(** * Lost & Found items manager: record store, codec, search, matching, sorting

    A shallow embedding of [Lost_and_found_items_manager.cpp].  The C++
    program keeps its records in a heap array [Item* items] of [capacity]
    slots, of which the first [itemCount] are live; every function below takes
    that array as a [list Item] and indexes it with stdpp's [!!], [<[_:=_]>]
    and [alter], as the source indexes it with [items[i]].  [int] values are
    kept as [Z]; pointers into the array ([Item*]) are positions
    ([option nat], [None] being [NULL]).  Values typed at the console are
    parameters of the modelled functions.  An access outside the array is
    undefined in C++; here the slot reads as absent and the statement is
    skipped, and the properties below assume [itemCount] within the array
    wherever a loop depends on it. *)

From Stdlib Require Import ZArith Lia Ascii Sorted Permutation.
From Stdlib.Strings Require Import Byte.
From Stdlib Require String.
From stdpp Require Import base tactics option list numbers strings sorting relations.

Local Open Scope Z_scope.

(** ** The item structure *)

Record Item := mkItem {
  id : Z;
  name : string;
  category : string;
  description : string;
  date : string;          (* char date[12], the twelve bytes of the array *)
  location : string;
  status : string;        (* "Lost" or "Found" *)
  matched : Z;            (* 0 = No, 1 = Yes *)
  claimed : Z;            (* 0 = No, 1 = Yes *)
  matchedItemID : Z;
  personName : string;
  personContact : string
}.

Definition set_matched (v : Z) (it : Item) : Item :=
  mkItem (id it) (name it) (category it) (description it) (date it)
         (location it) (status it) v (claimed it) (matchedItemID it)
         (personName it) (personContact it).

Definition set_claimed (v : Z) (it : Item) : Item :=
  mkItem (id it) (name it) (category it) (description it) (date it)
         (location it) (status it) (matched it) v (matchedItemID it)
         (personName it) (personContact it).

Definition set_matchedItemID (v : Z) (it : Item) : Item :=
  mkItem (id it) (name it) (category it) (description it) (date it)
         (location it) (status it) (matched it) (claimed it) v
         (personName it) (personContact it).

(** [for (int i = lo; i < hi; i++) body], threading the loop's state. *)
Definition for_loop {S : Type} (lo hi : nat) (body : nat → S → S) (s : S) : S :=
  foldl (λ acc i, body i acc) s (seq lo (hi - lo)).

(** ** Helper functions *)

(** [tolower] in the "C" locale, on an unsigned char. *)
Definition tolower (c : ascii) : ascii :=
  let n := N_of_ascii c in
  if ((65 <=? n) && (n <=? 90))%N then ascii_of_N (n + 32) else c.

Fixpoint toLowerCase (s : string) : string :=
  match s with
  | EmptyString => EmptyString
  | String c s' => String (tolower c) (toLowerCase s')
  end.

(** [std::string::find]: the first position at which [sub] occurs in [s];
    [None] is [string::npos]. *)
Fixpoint find (s sub : string) : option nat :=
  if String.prefix sub s then Some 0%nat
  else match s with
       | EmptyString => None
       | String _ s' => S <$> find s' sub
       end.

Definition containsSubstring (str substr : string) : bool :=
  let lowerStr := toLowerCase str in
  let lowerSub := toLowerCase substr in
  bool_decide (find lowerStr lowerSub ≠ None).

(** ** Search & filter functions

    Each returns the filled prefix of [results], in the order it was
    written ([results[count++] = i]). *)

Definition searchByName (items : list Item) (itemCount : Z) (nameQ : string) : list nat :=
  for_loop 0 (Z.to_nat itemCount) (λ i results,
    match items !! i with
    | Some it => if containsSubstring (name it) nameQ then results ++ [i] else results
    | None => results
    end) [].

Definition searchByStatus (items : list Item) (itemCount : Z) (statusQ : string) : list nat :=
  let lowerStatus := toLowerCase statusQ in
  for_loop 0 (Z.to_nat itemCount) (λ i results,
    match items !! i with
    | Some it =>
        let itemStatus := toLowerCase (status it) in
        if String.eqb itemStatus lowerStatus && (matched it =? 0)
        then results ++ [i] else results
    | None => results
    end) [].

Definition filterByMatched (items : list Item) (itemCount : Z) (matchedValue : Z) : list nat :=
  for_loop 0 (Z.to_nat itemCount) (λ i results,
    match items !! i with
    | Some it => if matched it =? matchedValue then results ++ [i] else results
    | None => results
    end) [].

(** ** Matching system *)

Definition fieldsOverlap (it newItem : Item) : bool :=
  containsSubstring (name it) (name newItem) ||
  containsSubstring (name newItem) (name it) ||
  containsSubstring (category it) (category newItem) ||
  containsSubstring (category newItem) (category it) ||
  containsSubstring (description it) (description newItem) ||
  containsSubstring (description newItem) (description it) ||
  containsSubstring (location it) (location newItem) ||
  containsSubstring (location newItem) (location it).

Definition findPotentialMatches (items : list Item) (itemCount : Z) (newItem : Item) : list nat :=
  for_loop 0 (Z.to_nat itemCount) (λ i matchIndices,
    match items !! i with
    | Some it =>
        if (matched it =? 1) || String.eqb (status it) (status newItem)
        then matchIndices
        else if fieldsOverlap it newItem then matchIndices ++ [i] else matchIndices
    | None => matchIndices
    end) [].

(** Pointer lookups.  [getItemByID] returns at the first hit. *)
Fixpoint firstWithID (items : list Item) (i remaining : nat) (idQ : Z) : option nat :=
  match remaining with
  | O => None
  | S r =>
      match items !! i with
      | Some it => if id it =? idQ then Some i else firstWithID items (S i) r idQ
      | None => None
      end
  end.

Definition getItemByID (items : list Item) (itemCount : Z) (idQ : Z) : option nat :=
  firstWithID items 0 (Z.to_nat itemCount) idQ.

(** [markAsMatched(Item& item1, Item& item2)], the two references being the
    slots [p1] and [p2] of the array; the four assignments in source order. *)
Definition markAsMatched (p1 p2 : nat) (items : list Item) : list Item :=
  let items := alter (set_matched 1) p1 items in
  let items := alter (set_matched 1) p2 items in
  let items := match items !! p2 with
               | Some item2 => alter (set_matchedItemID (id item2)) p1 items
               | None => items
               end in
  match items !! p1 with
  | Some item1 => alter (set_matchedItemID (id item1)) p2 items
  | None => items
  end.

(** [markMatchByID]: [newItem] is the slot [newPos]; [None] is [false]. *)
Definition markMatchByID (items : list Item) (itemCount : Z) (newPos : nat) (matchID : Z)
  : option (list Item) :=
  match firstWithID items 0 (Z.to_nat itemCount) matchID with
  | Some i => Some (markAsMatched newPos i items)
  | None => None
  end.

(** ** Sorting system *)

Definition swapItems (a b : nat) (items : list Item) : list Item :=
  match items !! a, items !! b with
  | Some x, Some y => <[b:=x]> (<[a:=y]> items)
  | _, _ => items
  end.

(** One test of the inner loop at [j]: [if (cond(items[j], items[j+1])) swap]. *)
Definition bubbleStep (outOfOrder : Item → Item → bool) (j : nat) (items : list Item) : list Item :=
  match items !! j, items !! (j + 1)%nat with
  | Some x, Some y => if outOfOrder x y then swapItems j (j + 1) items else items
  | _, _ => items
  end.

(** The two nested loops shared by the five sort functions. *)
Definition bubbleSort (outOfOrder : Item → Item → bool) (items : list Item) (itemCount : Z)
  : list Item :=
  let n := Z.to_nat itemCount in
  for_loop 0 (n - 1) (λ i items,
    for_loop 0 (n - i - 1) (bubbleStep outOfOrder) items) items.

Definition string_gt (a b : string) : bool :=
  match String.compare a b with Gt => true | _ => false end.
Definition string_lt (a b : string) : bool :=
  match String.compare a b with Lt => true | _ => false end.

(** The C string held by a char array: the bytes before the first NUL. *)
Fixpoint cstr (s : string) : string :=
  match s with
  | EmptyString => EmptyString
  | String c s' => if Ascii.eqb c zero then EmptyString else String c (cstr s')
  end.

(** [strcmp], as the sign of the comparison. *)
Definition strcmp (a b : string) : comparison := String.compare (cstr a) (cstr b).

(** The swap conditions of the five sort functions. *)
Definition idCond (ascending : bool) (x y : Item) : bool :=
  (ascending && (id x >? id y)) || (negb ascending && (id x <? id y)).

Definition nameCond (ascending : bool) (x y : Item) : bool :=
  (ascending && string_gt (name x) (name y)) ||
  (negb ascending && string_lt (name x) (name y)).

Definition categoryCond (ascending : bool) (x y : Item) : bool :=
  (ascending && string_gt (category x) (category y)) ||
  (negb ascending && string_lt (category x) (category y)).

Definition dateCond (ascending : bool) (x y : Item) : bool :=
  (ascending && bool_decide (strcmp (date x) (date y) = Gt)) ||
  (negb ascending && bool_decide (strcmp (date x) (date y) = Lt)).

Definition statusCond (lostFirst : bool) (x y : Item) : bool :=
  (lostFirst && string_lt (status x) (status y)) ||
  (negb lostFirst && string_gt (status x) (status y)).

Definition sortByID (items : list Item) (itemCount : Z) (ascending : bool) : list Item :=
  bubbleSort (idCond ascending) items itemCount.

Definition sortByName (items : list Item) (itemCount : Z) (ascending : bool) : list Item :=
  bubbleSort (nameCond ascending) items itemCount.

Definition sortByCategory (items : list Item) (itemCount : Z) (ascending : bool) : list Item :=
  bubbleSort (categoryCond ascending) items itemCount.

Definition sortByDate (items : list Item) (itemCount : Z) (ascending : bool) : list Item :=
  bubbleSort (dateCond ascending) items itemCount.

Definition sortByStatus (items : list Item) (itemCount : Z) (lostFirst : bool) : list Item :=
  bubbleSort (statusCond lostFirst) items itemCount.

(** The [switch (choice)] of [sortMenu], with its translation of [order]
    into the flag. *)
Definition sortChoice (choice order : Z) (items : list Item) (itemCount : Z) : list Item :=
  let ascendingOrLostFirst := if choice =? 4 then order =? 2 else order =? 1 in
  if choice =? 1 then sortByID items itemCount ascendingOrLostFirst
  else if choice =? 2 then sortByName items itemCount ascendingOrLostFirst
  else if choice =? 3 then sortByCategory items itemCount ascendingOrLostFirst
  else if choice =? 4 then sortByDate items itemCount ascendingOrLostFirst
  else if choice =? 5 then sortByStatus items itemCount ascendingOrLostFirst
  else items.

(** ** Binary layout

    [int] is four bytes and [size_t] eight, both written in the machine's
    byte order (least significant byte first); a [char] of a string is one
    byte. *)

Definition INT_MAX : Z := 2147483647.
Definition INT_MIN : Z := -2147483648.

(** The value an [int] computation has once reduced to 32 bits. *)
Definition int_wrap (z : Z) : Z := (z + 2147483648) mod 4294967296 - 2147483648.

Definition byte_of_Z (z : Z) : byte :=
  default x00 (Byte.of_N (Z.to_N (z mod 256))).
Definition Z_of_byte (b : byte) : Z := Z.of_N (Byte.to_N b).

Fixpoint le_bytes (n : nat) (z : Z) : list byte :=
  match n with
  | O => []
  | S n' => byte_of_Z z :: le_bytes n' (z / 256)
  end.

Fixpoint le_value (bs : list byte) : Z :=
  match bs with
  | [] => 0
  | b :: bs' => Z_of_byte b + 256 * le_value bs'
  end.

Definition sizeof_int : nat := 4.
Definition sizeof_size_t : nat := 8.
Definition sizeof_date : nat := 12.

(** [file.write(reinterpret_cast<char*>(&v), sizeof(v))] *)
Definition write_int (v : Z) : list byte := le_bytes sizeof_int v.
Definition write_size (len : nat) : list byte := le_bytes sizeof_size_t (Z.of_nat len).

(** [len = s.length(); file.write(&len, sizeof(len)); file.write(s.c_str(), len)] *)
Definition write_string (s : string) : list byte :=
  write_size (String.length s) ++ String.list_byte_of_string s.

Definition write_item (it : Item) : list byte :=
  write_int (id it) ++
  write_string (name it) ++
  write_string (category it) ++
  write_string (description it) ++
  String.list_byte_of_string (date it) ++
  write_string (location it) ++
  write_string (status it) ++
  write_int (matched it) ++
  write_int (claimed it) ++
  write_int (matchedItemID it) ++
  write_string (personName it) ++
  write_string (personContact it).

(** The bytes [saveToFile] puts in the file once it is open. *)
Definition encode (items : list Item) (itemCount nextID : Z) : list byte :=
  write_int nextID ++ write_int itemCount ++
  for_loop 0 (Z.to_nat itemCount) (λ i out,
    match items !! i with
    | Some it => out ++ write_item it
    | None => out
    end) [].

(** [saveToFile]: [canWrite] tells whether [file.open(filename, ios::out)]
    succeeds; the file ([None] when it cannot be opened for reading) is
    rewritten whole, or left as it was ("File can't be opened."). *)
Definition saveToFile (canWrite : bool) (items : list Item) (itemCount nextID : Z)
    (file : option (list byte)) : option (list byte) :=
  if canWrite then Some (encode items itemCount nextID) else file.

(** Reading: a stream of the bytes not yet consumed.  [None] is a read that
    hits the end of the file, after which the source goes on with an
    uninitialised [len] or buffer. *)
Definition Reader (A : Type) : Type := list byte → option (A * list byte).

Definition ret {A : Type} (a : A) : Reader A := λ s, Some (a, s).
Definition bind {A B : Type} (m : Reader A) (k : A → Reader B) : Reader B :=
  λ s, match m s with
       | Some (a, s') => k a s'
       | None => None
       end.

Notation "x <~ m ;; k" := (bind m (λ x, k))
  (at level 100, m at next level, right associativity).

(** [file.read(buf, n)] *)
Definition read_bytes (n : nat) : Reader (list byte) :=
  λ s, if (n <=? length s)%nat then Some (take n s, drop n s) else None.

Definition int_of_bytes (bs : list byte) : Z := int_wrap (le_value bs).

Definition read_int : Reader Z :=
  bs <~ read_bytes sizeof_int ;; ret (int_of_bytes bs).

Definition read_size : Reader nat :=
  bs <~ read_bytes sizeof_size_t ;; ret (Z.to_nat (le_value bs)).

(** [file.read(&len, sizeof(len)); buffer = new char[len + 1];
    file.read(buffer, len); s.assign(buffer, len)] *)
Definition read_string : Reader string :=
  len <~ read_size ;;
  buffer <~ read_bytes len ;;
  ret (String.string_of_list_byte buffer).

Definition read_date : Reader string :=
  bs <~ read_bytes sizeof_date ;; ret (String.string_of_list_byte bs).

(** One iteration of the loading loop: every field of [items[i]] is
    assigned, in the order of the layout. *)
Definition read_item : Reader Item :=
  i_id <~ read_int ;;
  i_name <~ read_string ;;
  i_category <~ read_string ;;
  i_description <~ read_string ;;
  i_date <~ read_date ;;
  i_location <~ read_string ;;
  i_status <~ read_string ;;
  i_matched <~ read_int ;;
  i_claimed <~ read_int ;;
  i_matchedItemID <~ read_int ;;
  i_personName <~ read_string ;;
  i_personContact <~ read_string ;;
  ret (mkItem i_id i_name i_category i_description i_date i_location i_status
              i_matched i_claimed i_matchedItemID i_personName i_personContact).

Fixpoint read_items (i remaining : nat) (items : list Item) : Reader (list Item) :=
  match remaining with
  | O => ret items
  | S r => it <~ read_item ;; read_items (S i) r (<[i:=it]> items)
  end.

(** The header test of [loadFromFile]: both reads must succeed. *)
Definition read_header : Reader (Z * Z) :=
  h_nextID <~ read_int ;;
  h_itemCount <~ read_int ;;
  ret (h_nextID, h_itemCount).

(** [while (capacity < itemCount) capacity *= 2;] on 32-bit ints.  Shifting
    left 32 times leaves 0, so a loop that has not stopped after 33 rounds
    never stops: [None]. *)
Fixpoint growCapacity (fuel : nat) (capacity itemCount : Z) : option Z :=
  if capacity <? itemCount then
    match fuel with
    | O => None
    | S fuel' => growCapacity fuel' (int_wrap (capacity * 2)) itemCount
    end
  else Some capacity.

Definition string_of_zeros (n : nat) : string :=
  String.string_of_list_ascii (replicate n zero).

(** A value-initialised [Item]. *)
Definition defaultItem : Item :=
  mkItem 0 "" "" "" (string_of_zeros sizeof_date) "" "" 0 0 0 "" "".

(** ** The program state: the variables of [main] and the file *)

Record State := mkState {
  items : list Item;
  itemCount : Z;
  capacity : Z;
  nextID : Z;
  fileBytes : option (list byte)   (* items.bin; None: cannot be opened for reading *)
}.

(** [loadFromFile]; [None] when the source runs into undefined behaviour
    (a read past the end of the file) or does not return. *)
Definition loadFromFile (st : State) : option State :=
  match fileBytes st with
  | None => Some (mkState (items st) 0 (capacity st) 100 (fileBytes st))
  | Some bytes =>
      match read_header bytes with
      | None => Some (mkState (items st) 0 (capacity st) 100 (fileBytes st))
      | Some ((h_nextID, h_itemCount), rest) =>
          match
            (if h_itemCount >? capacity st then
               match growCapacity 33 (capacity st) h_itemCount with
               | Some c => Some (replicate (Z.to_nat c) defaultItem, c)
               | None => None
               end
             else Some (items st, capacity st))
          with
          | None => None
          | Some (items1, capacity1) =>
              match read_items 0 (Z.to_nat h_itemCount) items1 rest with
              | Some (items2, _) =>
                  Some (mkState items2 h_itemCount capacity1 h_nextID (fileBytes st))
              | None => None
              end
          end
      end
  end.

(** [resizeArray] *)
Definition resizeArray (items : list Item) (capacity : Z) : list Item * Z :=
  let newCapacity := int_wrap (capacity * 2) in
  let newItems := replicate (Z.to_nat newCapacity) defaultItem in
  (for_loop 0 (Z.to_nat capacity) (λ i newItems,
     match items !! i with
     | Some x => <[i:=x]> newItems
     | None => newItems
     end) newItems,
   newCapacity).

(** The state with which [main] calls [loadFromFile]. *)
Definition initialState (file : option (list byte)) : State :=
  mkState (replicate 10 defaultItem) 0 10 100 file.

(** ** Add item operations *)

(** What the prompts of [addLostItem] / [addFoundItem] and of the update
    menu return: texts accepted by [getInput], [selectCategory] and
    [getValidDate] ([in_date] is the ten characters typed). *)
Record ItemInput := mkInput {
  in_name : string;
  in_category : string;
  in_description : string;
  in_date : string;
  in_location : string;
  in_personName : string;
  in_personContact : string
}.

(** [strncpy(dst, src, n)]: the characters of [src] up to its end or its
    first NUL, then NULs, [n] bytes in all. *)
Fixpoint strncpy (n : nat) (src : string) : string :=
  match n with
  | O => EmptyString
  | S n' =>
      match src with
      | EmptyString => String zero (strncpy n' EmptyString)
      | String c s' =>
          if Ascii.eqb c zero then String zero (strncpy n' EmptyString)
          else String c (strncpy n' s')
      end
  end.

(** The end of [getValidDate]: [strncpy(date, temp.c_str(), 11); date[11] = '\0']. *)
Definition dateBuffer (temp : string) : string :=
  String.append (strncpy 11 temp) (String zero EmptyString).

(** The call [findPotentialMatches(items, itemCount - 1, newItem, matchCount)]
    of [searchForMatches], [newItem] being [items[itemCount - 1]]. *)
Definition candidatesForNew (items : list Item) (itemCount : Z) : list nat :=
  match items !! Z.to_nat (itemCount - 1) with
  | Some newItem => findPotentialMatches items (itemCount - 1) newItem
  | None => []
  end.

(** The loop asking for the id to match; [picks] are the numbers typed, and
    the end of [picks] stands for the closing 0.  The boolean tells whether
    a match was made (and the file saved). *)
Fixpoint pickLoop (items : list Item) (itemCount : Z) (newPos : nat)
    (matchIndices : list nat) (picks : list Z) : list Item * bool :=
  match picks with
  | [] => (items, false)
  | choice :: rest =>
      if choice =? 0 then (items, false)
      else if existsb (λ idx, match items !! idx with
                              | Some it => id it =? choice
                              | None => false
                              end) matchIndices
      then match markMatchByID items itemCount newPos choice with
           | Some items' => (items', true)
           | None => pickLoop items itemCount newPos matchIndices rest
           end
      else pickLoop items itemCount newPos matchIndices rest
  end.

Definition searchForMatches (canWrite searchChoice : bool) (picks : list Z) (st : State) : State :=
  if searchChoice then
    let matchIndices := candidatesForNew (items st) (itemCount st) in
    if (0 <? length matchIndices)%nat then
      let '(items', done) :=
        pickLoop (items st) (itemCount st) (Z.to_nat (itemCount st - 1)) matchIndices picks in
      if done
      then mkState items' (itemCount st) (capacity st) (nextID st)
             (saveToFile canWrite items' (itemCount st) (nextID st) (fileBytes st))
      else st
    else st
  else st.

(** [addLostItem] and [addFoundItem] differ in the status literal only. *)
Definition addItem (statusLit : string) (canWrite : bool) (inp : ItemInput)
    (searchChoice : bool) (picks : list Z) (st : State) : State :=
  let '(items1, capacity1) :=
    if itemCount st =? capacity st then resizeArray (items st) (capacity st)
    else (items st, capacity st) in
  let newItem :=
    mkItem (nextID st) (in_name inp) (in_category inp) (in_description inp)
           (dateBuffer (in_date inp)) (in_location inp) statusLit 0 0 (-1)
           (in_personName inp) (in_personContact inp) in
  let nextID1 := int_wrap (nextID st + 1) in
  let items2 := <[Z.to_nat (itemCount st) := newItem]> items1 in
  let itemCount2 := itemCount st + 1 in
  let file2 := saveToFile canWrite items2 itemCount2 nextID1 (fileBytes st) in
  searchForMatches canWrite searchChoice picks
    (mkState items2 itemCount2 capacity1 nextID1 file2).

Definition addLostItem := addItem "Lost".
Definition addFoundItem := addItem "Found".

(** ** Update *)

Inductive Edit :=
| EditName (s : string)
| EditCategory (s : string)
| EditDescription (s : string)
| EditDate (s : string)
| EditLocation (s : string)
| EditPersonName (s : string)
| EditPersonContact (s : string)
| EditAll (inp : ItemInput).

(** One round of [updateItemMenu] on [*item]. *)
Definition applyEdit (it : Item) (e : Edit) : Item :=
  match e with
  | EditName s =>
      mkItem (id it) s (category it) (description it) (date it) (location it)
        (status it) (matched it) (claimed it) (matchedItemID it)
        (personName it) (personContact it)
  | EditCategory s =>
      mkItem (id it) (name it) s (description it) (date it) (location it)
        (status it) (matched it) (claimed it) (matchedItemID it)
        (personName it) (personContact it)
  | EditDescription s =>
      mkItem (id it) (name it) (category it) s (date it) (location it)
        (status it) (matched it) (claimed it) (matchedItemID it)
        (personName it) (personContact it)
  | EditDate s =>
      mkItem (id it) (name it) (category it) (description it) (dateBuffer s)
        (location it) (status it) (matched it) (claimed it) (matchedItemID it)
        (personName it) (personContact it)
  | EditLocation s =>
      mkItem (id it) (name it) (category it) (description it) (date it) s
        (status it) (matched it) (claimed it) (matchedItemID it)
        (personName it) (personContact it)
  | EditPersonName s =>
      mkItem (id it) (name it) (category it) (description it) (date it)
        (location it) (status it) (matched it) (claimed it) (matchedItemID it)
        s (personContact it)
  | EditPersonContact s =>
      mkItem (id it) (name it) (category it) (description it) (date it)
        (location it) (status it) (matched it) (claimed it) (matchedItemID it)
        (personName it) s
  | EditAll inp =>
      mkItem (id it) (in_name inp) (in_category inp) (in_description inp)
        (dateBuffer (in_date inp)) (in_location inp)
        (status it) (matched it) (claimed it) (matchedItemID it)
        (in_personName inp) (in_personContact inp)
  end.

Inductive UpdateOutcome := UpdateNoItems | UpdateNotFound | Updated.

Definition updateItem (canWrite : bool) (idQ : Z) (edits : list Edit) (st : State)
  : State * UpdateOutcome :=
  if itemCount st =? 0 then (st, UpdateNoItems)
  else match firstWithID (items st) 0 (Z.to_nat (itemCount st)) idQ with
       | None => (st, UpdateNotFound)
       | Some p =>
           let items' := alter (λ it, foldl applyEdit it edits) p (items st) in
           (mkState items' (itemCount st) (capacity st) (nextID st)
              (saveToFile canWrite items' (itemCount st) (nextID st) (fileBytes st)),
            Updated)
       end.

(** ** Delete *)

Inductive DeleteOutcome := DeleteNoItems | DeleteNotFound | DeleteCancelled | Deleted.

(** "Shift items to fill the gap": [for (i = index; i < itemCount - 1; i++)
    items[i] = items[i + 1]]. *)
Definition shiftDown (index : nat) (items : list Item) (itemCount : Z) : list Item :=
  for_loop index (Z.to_nat itemCount - 1) (λ i items,
    match items !! (i + 1)%nat with
    | Some x => <[i:=x]> items
    | None => items
    end) items.

Definition deleteItem (canWrite : bool) (idQ : Z) (confirm : bool) (st : State)
  : State * DeleteOutcome :=
  if itemCount st =? 0 then (st, DeleteNoItems)
  else match firstWithID (items st) 0 (Z.to_nat (itemCount st)) idQ with
       | None => (st, DeleteNotFound)
       | Some index =>
           if negb confirm then (st, DeleteCancelled)
           else
             let items' := shiftDown index (items st) (itemCount st) in
             let itemCount' := itemCount st - 1 in
             (mkState items' itemCount' (capacity st) (nextID st)
                (saveToFile canWrite items' itemCount' (nextID st) (fileBytes st)),
              Deleted)
       end.

(** ** Marking functions *)

(** The message with which [markItemAsMatched] ends. *)
Inductive MatchOutcome :=
| MatchNotEnoughItems   (* "Not enough items to mark as matched." *)
| MatchSelf             (* "Cannot match an item with itself." *)
| MatchNotFound         (* "One or both item IDs not found." *)
| MatchSameStatus       (* "Invalid match! You can only match a Lost item with a Found item." *)
| MatchAlreadyMatched   (* "One or both items are already matched." *)
| MatchDone.            (* "Items matched successfully!" *)

(** "Find both items": the loop has no [break], the last hit stays. *)
Definition findBoth (items : list Item) (itemCount : Z) (id1 id2 : Z)
  : option nat * option nat :=
  for_loop 0 (Z.to_nat itemCount) (λ i ptrs,
    match items !! i with
    | Some it =>
        (if id it =? id1 then Some i else fst ptrs,
         if id it =? id2 then Some i else snd ptrs)
    | None => ptrs
    end) (None, None).

Definition markItemAsMatched (canWrite : bool) (id1 id2 : Z) (st : State)
  : State * MatchOutcome :=
  if itemCount st <? 2 then (st, MatchNotEnoughItems)
  else if id1 =? id2 then (st, MatchSelf)
  else match findBoth (items st) (itemCount st) id1 id2 with
       | (Some p1, Some p2) =>
           match items st !! p1, items st !! p2 with
           | Some item1, Some item2 =>
               if (String.eqb (status item1) "Lost" && String.eqb (status item2) "Lost") ||
                  (String.eqb (status item1) "Found" && String.eqb (status item2) "Found")
               then (st, MatchSameStatus)
               else if negb (matched item1 =? 0) || negb (matched item2 =? 0)
               then (st, MatchAlreadyMatched)
               else
                 let items' := markAsMatched p1 p2 (items st) in
                 (mkState items' (itemCount st) (capacity st) (nextID st)
                    (saveToFile canWrite items' (itemCount st) (nextID st) (fileBytes st)),
                  MatchDone)
           | _, _ => (st, MatchNotFound)
           end
       | _ => (st, MatchNotFound)
       end.

(** The message with which [markAsClaimed] ends. *)
Inductive ClaimOutcome :=
| ClaimNotFound         (* "Item not found." *)
| ClaimNotMatched       (* "Item cannot be claimed because it is not matched yet." *)
| ClaimAlreadyClaimed   (* "Item is already claimed." *)
| ClaimDone.            (* "Item marked as claimed successfully." *)

(** [idQ] is the number that left the input loop (which asks again for
    numbers [<= 0]). *)
Definition markAsClaimed (canWrite : bool) (idQ : Z) (st : State) : State * ClaimOutcome :=
  match getItemByID (items st) (itemCount st) idQ with
  | None => (st, ClaimNotFound)
  | Some p =>
      match items st !! p with
      | None => (st, ClaimNotFound)
      | Some item =>
          if matched item =? 0 then (st, ClaimNotMatched)
          else if claimed item =? 1 then (st, ClaimAlreadyClaimed)
          else
            let items1 := alter (set_claimed 1) p (items st) in
            let items2 :=
              if negb (matchedItemID item =? -1) then
                match getItemByID items1 (itemCount st) (matchedItemID item) with
                | Some q => alter (set_claimed 1) q items1
                | None => items1
                end
              else items1 in
            (mkState items2 (itemCount st) (capacity st) (nextID st)
               (saveToFile canWrite items2 (itemCount st) (nextID st) (fileBytes st)),
             ClaimDone)
      end
  end.

(** ** Sort menu, clear, main menu *)

(** [sortMenu]: one (choice, order) pair per round, until "Back". *)
Definition sortMenu (canWrite : bool) (rounds : list (Z * Z)) (st : State) : State :=
  foldl (λ st r,
    let items' := sortChoice (fst r) (snd r) (items st) (itemCount st) in
    mkState items' (itemCount st) (capacity st) (nextID st)
      (saveToFile canWrite items' (itemCount st) (nextID st) (fileBytes st)))
    st rounds.

Inductive ClearOutcome := ClearFailed | ClearCancelled | Cleared.

(** [clearAllItems]: [canWrite] tells whether the [ofstream] opens. *)
Definition clearAllItems (canWrite confirm : bool) (st : State) : State * ClearOutcome :=
  if confirm then
    if canWrite
    then (mkState (items st) 0 (capacity st) 100 (Some []), Cleared)
    else (st, ClearFailed)
  else (st, ClearCancelled).

(** The commands of [mainMenu] that touch the store; [CmdSave], a call of
    [saveToFile] on its own; and [CmdRestart], leaving the program and
    running [main] again, which loads the file. *)
Inductive Command :=
| CmdAddLost (inp : ItemInput) (searchChoice : bool) (picks : list Z)
| CmdAddFound (inp : ItemInput) (searchChoice : bool) (picks : list Z)
| CmdUpdate (idQ : Z) (edits : list Edit)
| CmdDelete (idQ : Z) (confirm : bool)
| CmdClaim (idQ : Z)
| CmdMatch (id1 id2 : Z)
| CmdSort (rounds : list (Z * Z))
| CmdClear (confirm : bool)
| CmdSave
| CmdRestart.

Definition step (canWrite : bool) (c : Command) (st : State) : option State :=
  match c with
  | CmdAddLost inp sc picks => Some (addLostItem canWrite inp sc picks st)
  | CmdAddFound inp sc picks => Some (addFoundItem canWrite inp sc picks st)
  | CmdUpdate idQ edits => Some (fst (updateItem canWrite idQ edits st))
  | CmdDelete idQ confirm => Some (fst (deleteItem canWrite idQ confirm st))
  | CmdClaim idQ => Some (fst (markAsClaimed canWrite idQ st))
  | CmdMatch id1 id2 => Some (fst (markItemAsMatched canWrite id1 id2 st))
  | CmdSort rounds => Some (sortMenu canWrite rounds st)
  | CmdClear confirm => Some (fst (clearAllItems canWrite confirm st))
  | CmdSave =>
      Some (mkState (items st) (itemCount st) (capacity st) (nextID st)
              (saveToFile canWrite (items st) (itemCount st) (nextID st) (fileBytes st)))
  | CmdRestart => loadFromFile (initialState (fileBytes st))
  end.

(** A session: commands with, for each, whether the file can be written. *)
Fixpoint run (cmds : list (bool * Command)) (st : State) : option State :=
  match cmds with
  | [] => Some st
  | (canWrite, c) :: rest =>
      match step canWrite c st with
      | Some st' => run rest st'
      | None => None
      end
  end.

(** ** The other search & filter functions *)

Definition searchByCategory (items : list Item) (itemCount : Z) (categoryQ : string)
  : list nat :=
  for_loop 0 (Z.to_nat itemCount) (λ i results,
    match items !! i with
    | Some it => if containsSubstring (category it) categoryQ then results ++ [i] else results
    | None => results
    end) [].

Definition searchByDescription (items : list Item) (itemCount : Z) (descriptionQ : string)
  : list nat :=
  for_loop 0 (Z.to_nat itemCount) (λ i results,
    match items !! i with
    | Some it =>
        if containsSubstring (description it) descriptionQ then results ++ [i] else results
    | None => results
    end) [].

Definition searchByLocation (items : list Item) (itemCount : Z) (locationQ : string)
  : list nat :=
  for_loop 0 (Z.to_nat itemCount) (λ i results,
    match items !! i with
    | Some it => if containsSubstring (location it) locationQ then results ++ [i] else results
    | None => results
    end) [].

(** [strcmp(items[i].date, date) == 0] *)
Definition searchByDate (items : list Item) (itemCount : Z) (dateQ : string) : list nat :=
  for_loop 0 (Z.to_nat itemCount) (λ i results,
    match items !! i with
    | Some it =>
        if bool_decide (strcmp (date it) dateQ = Eq) then results ++ [i] else results
    | None => results
    end) [].

Definition filterByClaimed (items : list Item) (itemCount : Z) (claimedValue : Z) : list nat :=
  for_loop 0 (Z.to_nat itemCount) (λ i results,
    match items !! i with
    | Some it => if claimed it =? claimedValue then results ++ [i] else results
    | None => results
    end) [].

(** ** Date input: the checks of [getValidDate] *)

(** [temp[i]] of a [std::string]. *)
Definition charAt (s : string) (i : nat) : ascii := default zero (String.get i s).

(** [isdigit] in the "C" locale. *)
Definition isdigit (c : ascii) : bool :=
  let n := N_of_ascii c in ((48 <=? n) && (n <=? 57))%N.

(** [c - '0'] *)
Definition digitValue (c : ascii) : Z := Z.of_N (N_of_ascii c) - 48.

Definition dateYear (temp : string) : Z :=
  digitValue (charAt temp 0) * 1000 + digitValue (charAt temp 1) * 100 +
  digitValue (charAt temp 2) * 10 + digitValue (charAt temp 3).

Definition dateMonth (temp : string) : Z :=
  digitValue (charAt temp 5) * 10 + digitValue (charAt temp 6).

Definition dateDay (temp : string) : Z :=
  digitValue (charAt temp 8) * 10 + digitValue (charAt temp 9).

(** "Leap year check" *)
Definition isLeapYear (year : Z) : bool :=
  ((year mod 4 =? 0) && negb (year mod 100 =? 0)) || (year mod 400 =? 0).

(** [daysInMonth[month - 1]], with [daysInMonth[1] = 29] in a leap year. *)
Definition daysInMonth (year month : Z) : Z :=
  let table := [31; if isLeapYear year then 29 else 28; 31; 30; 31; 30;
                31; 31; 30; 31; 30; 31] in
  default 0 (table !! Z.to_nat (month - 1)).

(** One round of the loop of [getValidDate]: [None] is a rejected text (the
    prompt is shown again), [Some] the twelve bytes copied into [date]. *)
Definition getValidDate (temp : string) : option string :=
  if negb (String.length temp =? 10)%nat ||
     negb (Ascii.eqb (charAt temp 4) "-") || negb (Ascii.eqb (charAt temp 7) "-")
  then None
  else if negb (isdigit (charAt temp 0)) || negb (isdigit (charAt temp 1)) ||
          negb (isdigit (charAt temp 2)) || negb (isdigit (charAt temp 3)) ||
          negb (isdigit (charAt temp 5)) || negb (isdigit (charAt temp 6)) ||
          negb (isdigit (charAt temp 8)) || negb (isdigit (charAt temp 9))
  then None
  else
    let year := dateYear temp in
    let month := dateMonth temp in
    let day := dateDay temp in
    if (month <? 1) || (month >? 12) then None
    else if (day <? 1) || (day >? daysInMonth year month) then None
    else Some (dateBuffer temp).

(** ** Status input: one round of the loop of [getStatus] *)

(** [toupper] in the "C" locale. *)
Definition toupper (c : ascii) : ascii :=
  let n := N_of_ascii c in
  if ((97 <=? n) && (n <=? 122))%N then ascii_of_N (n - 32) else c.

Definition getStatus (input : string) : option string :=
  let temp := toLowerCase input in
  if String.eqb temp "lost" || String.eqb temp "found" then
    match temp with
    | EmptyString => Some temp
    | String c rest => Some (String (toupper c) rest)
    end
  else None.

(** Case 5 of [filterSearchMenu]: the status typed, then the search. *)
Definition searchStatusMenu (items : list Item) (itemCount : Z) (input : string)
  : option (list nat) :=
  match getStatus input with
  | Some statusQ => Some (searchByStatus items itemCount statusQ)
  | None => None
  end.

(** ** [viewFromFile]: the records it displays, read into a store of its own *)
Definition viewFromFile (file : option (list byte)) : option (list Item) :=
  match loadFromFile (mkState (replicate 10 defaultItem) 0 10 100 file) with
  | Some st => Some (take (Z.to_nat (itemCount st)) (items st))
  | None => None
  end.

(** ** Category input: the table and one round of the loop of [selectCategory] *)




(** ** Vocabulary of the properties *)

(** The live records: the first [itemCount] slots of the array. *)
Definition live (items : list Item) (itemCount : Z) : list Item :=
  take (Z.to_nat itemCount) items.

(** Equality and containment of texts, letter case ignored. *)
Definition eq_nocase (s t : string) : Prop := toLowerCase s = toLowerCase t.

Definition contains_nocase (s sub : string) : Prop :=
  ∃ p q, toLowerCase s = p +:+ toLowerCase sub +:+ q.

(** Overlap in either direction on one of name, category, description,
    location. *)
Definition overlap (c n : Item) : Prop :=
  contains_nocase (name c) (name n) ∨ contains_nocase (name n) (name c) ∨
  contains_nocase (category c) (category n) ∨ contains_nocase (category n) (category c) ∨
  contains_nocase (description c) (description n) ∨
  contains_nocase (description n) (description c) ∨
  contains_nocase (location c) (location n) ∨ contains_nocase (location n) (location c).

Definition opposite_status (s t : string) : Prop :=
  (s = "Lost" ∧ t = "Found") ∨ (s = "Found" ∧ t = "Lost").

(** The values the program itself gives to [status], [matched], [claimed]. *)
Definition valid_flags (it : Item) : Prop :=
  (status it = "Lost" ∨ status it = "Found") ∧
  (matched it = 0 ∨ matched it = 1) ∧
  (claimed it = 0 ∨ claimed it = 1).

(** [o] is the slot a scan without [break] over the first [k] slots ends
    with for [idQ]: the last slot holding that id, if any. *)
Definition is_last_hit (items : list Item) (k : nat) (idQ : Z) (o : option nat) : Prop :=
  match o with
  | Some p =>
      (p < k)%nat ∧ (∃ it, items !! p = Some it ∧ id it = idQ) ∧
      ∀ j it, (p < j < k)%nat → items !! j = Some it → id it ≠ idQ
  | None => ∀ j it, (j < k)%nat → items !! j = Some it → id it ≠ idQ
  end.

(** The ids of the live records are pairwise different. *)
Definition unique_ids (items : list Item) (itemCount : Z) : Prop :=
  NoDup (id <$> live items itemCount).

(** ** Example data: the wallet scenario *)

Definition walletLost : Item :=
  mkItem 100 "Wallet" "Accessories" "Brown leather wallet" (dateBuffer "2026-01-05")
         "Library" "Lost" 0 0 (-1) "Abebe" "0911000000".

Definition walletFound : Item :=
  mkItem 101 "wallet" "Accessories" "A wallet with cards" (dateBuffer "2026-01-06")
         "Library" "Found" 0 0 (-1) "" "".

Definition exampleItems : list Item :=
  [walletLost; walletFound] ++ replicate 8 defaultItem.

Definition exampleState : State := mkState exampleItems 2 10 102 None.

(** The wallet scenario after the two reports have been matched. *)
Definition matchedState : State := fst (markItemAsMatched true 100 101 exampleState).

Definition walletLostMatched : Item := set_matchedItemID 101 (set_matched 1 walletLost).

(** ** Vocabulary of the sort properties *)

Inductive SortKey := ByID | ByName | ByCategory | ByDate | ByStatus.

(** The sort function of a key, and the swap condition it tests. *)
Definition sortBy (k : SortKey) (flag : bool) (items : list Item) (itemCount : Z)
  : list Item :=
  match k with
  | ByID => sortByID items itemCount flag
  | ByName => sortByName items itemCount flag
  | ByCategory => sortByCategory items itemCount flag
  | ByDate => sortByDate items itemCount flag
  | ByStatus => sortByStatus items itemCount flag
  end.

Definition swapCond (k : SortKey) (flag : bool) : Item → Item → bool :=
  match k with
  | ByID => idCond flag
  | ByName => nameCond flag
  | ByCategory => categoryCond flag
  | ByDate => dateCond flag
  | ByStatus => statusCond flag
  end.

(** The key a sort compares: a number, or a text (for the date, the C string
    in the array). *)
Definition sortKey (k : SortKey) (it : Item) : Z + string :=
  match k with
  | ByID => inl (id it)
  | ByName => inr (name it)
  | ByCategory => inr (category it)
  | ByDate => inr (cstr (date it))
  | ByStatus => inr (status it)
  end.

(** One exchange of two neighbours among the first [n] slots, made because
    the condition holds of them. *)
Inductive adjacent_swap (outOfOrder : Item → Item → bool) (n : nat)
  : list Item → list Item → Prop :=
| adjacent_swap_intro (l1 : list Item) (x y : Item) (l2 : list Item) :
    outOfOrder x y = true →
    (length l1 + 2 ≤ n)%nat →
    adjacent_swap outOfOrder n (l1 ++ x :: y :: l2) (l1 ++ y :: x :: l2).

(** ** Vocabulary of the codec properties *)

Definition int_range (z : Z) : Prop := INT_MIN ≤ z ≤ INT_MAX.

(** A length a [size_t] can hold. *)
Definition size_range (s : string) : Prop :=
  Z.of_nat (String.length s) < 256 ^ Z.of_nat sizeof_size_t.

(** A record as the C++ types allow it: [int] fields in range, twelve bytes
    of date, texts whose length fits a [size_t]. *)
Definition storable_item (it : Item) : Prop :=
  int_range (id it) ∧ int_range (matched it) ∧ int_range (claimed it) ∧
  int_range (matchedItemID it) ∧
  String.length (date it) = sizeof_date ∧
  size_range (name it) ∧ size_range (category it) ∧ size_range (description it) ∧
  size_range (location it) ∧ size_range (status it) ∧
  size_range (personName it) ∧ size_range (personContact it).

(** A store that the variables of the program can hold. *)
Definition storable (items : list Item) (itemCount nextID : Z) : Prop :=
  0 ≤ itemCount ∧ (Z.to_nat itemCount ≤ length items)%nat ∧
  int_range itemCount ∧ int_range nextID ∧
  Forall storable_item (live items itemCount).

(** Doubling [capacity] reaches [itemCount] without leaving the [int] range. *)
Definition can_grow (capacity itemCount : Z) : Prop :=
  ∃ k : nat, itemCount ≤ capacity * 2 ^ Z.of_nat k ∧ capacity * 2 ^ Z.of_nat k ≤ INT_MAX.

(** ** Vocabulary of the session properties *)

(** The record array: a live part inside the array, records that fit the
    C++ types, ids pairwise different and all below the counter. *)
Definition arr_inv (items : list Item) (itemCount nextID : Z) : Prop :=
  0 ≤ itemCount ∧ (Z.to_nat itemCount ≤ length items)%nat ∧
  Forall storable_item (live items itemCount) ∧
  unique_ids items itemCount ∧
  Forall (λ it, id it < nextID) (live items itemCount).

(** The variables of [main]: the array has [capacity] slots, a capacity that
    doubling reached from 10. *)
Definition mem_inv (st : State) : Prop :=
  arr_inv (items st) (itemCount st) (nextID st) ∧
  int_range (nextID st) ∧
  Z.of_nat (length (items st)) = capacity st ∧
  (∃ j : nat, capacity st = 10 * 2 ^ Z.of_nat j) ∧
  capacity st ≤ INT_MAX.

(** The file: absent, emptied by [clearAllItems], or written by
    [saveToFile] from such an array. *)
Definition disk_ok (file : option (list byte)) : Prop :=
  file = None ∨ file = Some [] ∨
  ∃ items itemCount nextID,
    file = Some (encode items itemCount nextID) ∧
    arr_inv items itemCount nextID ∧ int_range nextID ∧ can_grow 10 itemCount.

Definition Inv (st : State) : Prop := mem_inv st ∧ disk_ok (fileBytes st).

(** Texts a [std::string] can hold. *)
Definition input_ok (inp : ItemInput) : Prop :=
  size_range (in_name inp) ∧ size_range (in_category inp) ∧
  size_range (in_description inp) ∧ size_range (in_location inp) ∧
  size_range (in_personName inp) ∧ size_range (in_personContact inp).

Definition edit_ok (e : Edit) : Prop :=
  match e with
  | EditName s | EditCategory s | EditDescription s | EditLocation s
  | EditPersonName s | EditPersonContact s => size_range s
  | EditDate _ => True
  | EditAll inp => input_ok inp
  end.

(** A command the [int] variables can follow: an add needs room for
    [nextID++] and, when the array is full, for [capacity * 2]. *)
Definition cmd_ok (st : State) (c : Command) : Prop :=
  match c with
  | CmdAddLost inp _ _ | CmdAddFound inp _ _ =>
      input_ok inp ∧ nextID st < INT_MAX ∧
      (itemCount st = capacity st → capacity st * 2 ≤ INT_MAX)
  | CmdUpdate _ edits => Forall edit_ok edits
  | _ => True
  end.

Fixpoint run_ok (cmds : list (bool * Command)) (st : State) : Prop :=
  match cmds with
  | [] => True
  | (canWrite, c) :: rest =>
      cmd_ok st c ∧ ∀ st', step canWrite c st = Some st' → run_ok rest st'
  end.

(** The commands that set the counter anew: a confirmed clear-all that can
    empty the file, and a restart. *)
Definition resets (wc : bool * Command) : Prop :=
  match wc with
  | (canWrite, CmdClear confirm) => canWrite = true ∧ confirm = true
  | (_, CmdRestart) => True
  | _ => False
  end.

Definition walletInput : ItemInput :=
  mkInput "Wallet" "Accessories" "Brown leather wallet" "2026-01-05" "Library"
          "Abebe" "0911000000".

(** A first session: the lost wallet is reported, then the found one, which
    is matched with it on the spot, then the wallet is claimed. *)
Definition walletSession : list (bool * Command) :=
  [(true, CmdAddLost walletInput false []);
   (true, CmdAddFound walletInput true [100]);
   (true, CmdClaim 100)].

(** ** Vocabulary of the date properties *)

(** The day a typed date names, as one number: year, month and day side by
    side. *)
Definition dateNumber (temp : string) : Z :=
  dateYear temp * 10000 + dateMonth temp * 100 + dateDay temp.

Definition two_nuls : string := String zero (String zero EmptyString).

(** ** Vocabulary of the properties of the operations *)

(** The record an add operation builds from the texts typed. *)
Definition newRecord (statusLit : string) (inp : ItemInput) (newID : Z) : Item :=
  mkItem newID (in_name inp) (in_category inp) (in_description inp)
         (dateBuffer (in_date inp)) (in_location inp) statusLit 0 0 (-1)
         (in_personName inp) (in_personContact inp).

(** A record after [markAsMatched] has linked it with the record [other]. *)
Definition linked_to (other : Z) (it : Item) : Item :=
  set_matchedItemID other (set_matched 1 it).

(** An add the [int] variables can follow. *)
Definition add_ok (st : State) (inp : ItemInput) : Prop :=
  input_ok inp ∧ nextID st < INT_MAX ∧
  (itemCount st = capacity st → capacity st * 2 ≤ INT_MAX).

(** The record the pointer returned by [getItemByID] points to. *)
Definition recordByID (items : list Item) (itemCount idQ : Z) : option Item :=
  getItemByID items itemCount idQ ≫= (items !!.).

(** ** Vocabulary of the order properties *)

(** Comparison of two keys: numbers by value, texts as [std::string]
    compares them. *)
Definition key_compare (a b : Z + string) : comparison :=
  match a, b with
  | inl x, inl y => x ?= y
  | inr s, inr t => String.compare s t
  | inl _, inr _ => Lt
  | inr _, inl _ => Gt
  end.

(** Whether a sort leaves its key rising: the flag itself, except for the
    status, whose flag "Lost first" asks for the greater text first. *)
Definition ascends (k : SortKey) (flag : bool) : bool :=
  match k with
  | ByStatus => negb flag
  | _ => flag
  end.

(** Two records, in this order, are as the sort wants them. *)
Definition in_order (k : SortKey) (flag : bool) (x y : Item) : Prop :=
  key_compare (sortKey k x) (sortKey k y) ≠ (if ascends k flag then Gt else Lt).

(** ** Vocabulary of the consistency of the records *)

(** A record as the operations leave it: status and flags as the program
    writes them, an id from the counter, no link and no claim while it is
    not matched, and the id of a record once it is. *)
Definition record_ok (it : Item) : Prop :=
  valid_flags it ∧ 100 ≤ id it ∧
  (matched it = 0 → matchedItemID it = -1 ∧ claimed it = 0) ∧
  (matched it = 1 → 100 ≤ matchedItemID it).

(** Links between live records go both ways, between a lost and a found
    record, which are claimed together. *)
Definition links_ok (l : list Item) : Prop :=
  ∀ a b, a ∈ l → b ∈ l → matched a = 1 → matchedItemID a = id b →
    matched b = 1 ∧ matchedItemID b = id a ∧ claimed b = claimed a ∧
    opposite_status (status a) (status b).

Definition store_ok (l : list Item) (nid : Z) : Prop :=
  100 ≤ nid ∧ Forall record_ok l ∧
  Forall (λ it, matched it = 1 → matchedItemID it < nid) l ∧
  links_ok l.

(** The file: absent, emptied, or written from such records. *)
Definition disk_store_ok (file : option (list byte)) : Prop :=
  file = None ∨ file = Some [] ∨
  ∃ items itemCount nextID,
    file = Some (encode items itemCount nextID) ∧
    arr_inv items itemCount nextID ∧ int_range nextID ∧ can_grow 10 itemCount ∧
    store_ok (live items itemCount) nextID.

(** What a session keeps: the variables of [main] as in [mem_inv], and
    consistent records in memory and in the file. *)
Definition SInv (st : State) : Prop :=
  mem_inv st ∧ store_ok (live (items st) (itemCount st)) (nextID st) ∧
  disk_store_ok (fileBytes st).

(** Two records that differ in their texts only. *)
Definition same_core (x x' : Item) : Prop :=
  id x' = id x ∧ status x' = status x ∧ matched x' = matched x ∧
  claimed x' = claimed x ∧ matchedItemID x' = matchedItemID x.

(** ** Vocabulary of the layout properties *)

(** The bytes a record takes in the file: four [int]s, seven lengths, the
    date array and the characters of the seven texts. *)
Definition record_bytes (it : Item) : nat :=
  4 * sizeof_int + 7 * sizeof_size_t + String.length (date it) +
  String.length (name it) + String.length (category it) +
  String.length (description it) + String.length (location it) +
  String.length (status it) + String.length (personName it) +
  String.length (personContact it).


(** * Properties *)

(** ** Loops *)

Lemma for_loop_nil {S : Type} (lo hi : nat) (body : nat → S → S) (s : S) :
  (hi ≤ lo)%nat → for_loop lo hi body s = s.
Proof.
  intros Hle. unfold for_loop.
  replace (hi - lo)%nat with 0%nat by lia. reflexivity.
Qed.

Lemma for_loop_last {S : Type} (lo hi : nat) (body : nat → S → S) (s : S) :
  (lo ≤ hi)%nat →
  for_loop lo (Datatypes.S hi) body s = body hi (for_loop lo hi body s).
Proof.
  intros Hle. unfold for_loop.
  replace (Datatypes.S hi - lo)%nat with (Datatypes.S (hi - lo)) by lia.
  rewrite seq_S, foldl_app. simpl.
  replace (lo + (hi - lo))%nat with hi by lia. reflexivity.
Qed.

Lemma for_loop_first {S : Type} (lo hi : nat) (body : nat → S → S) (s : S) :
  (lo < hi)%nat →
  for_loop lo hi body s = for_loop (Datatypes.S lo) hi body (body lo s).
Proof.
  intros Hlt. unfold for_loop.
  replace (hi - lo)%nat with (Datatypes.S (hi - Datatypes.S lo)) by lia.
  reflexivity.
Qed.

Lemma for_loop_ext {S : Type} (lo hi : nat) (f g : nat → S → S) (s : S) :
  (∀ i x, (lo ≤ i < hi)%nat → f i x = g i x) →
  for_loop lo hi f s = for_loop lo hi g s.
Proof.
  intros Hfg. unfold for_loop.
  assert (Hin : ∀ i, i ∈ seq lo (hi - lo) → (lo ≤ i < hi)%nat).
  { intros i Hi. apply elem_of_seq in Hi. lia. }
  revert s Hin. generalize (seq lo (hi - lo)) as l.
  induction l as [|a l IH]; intros s Hin; simpl; [reflexivity|].
  rewrite Hfg by (apply Hin; left).
  apply IH. intros i Hi. apply Hin. by right.
Qed.

(** Invariant rule for a counting loop. *)
Lemma for_loop_inv {S : Type} (P : nat → S → Prop) (lo hi : nat)
    (body : nat → S → S) (s : S) :
  (lo ≤ hi)%nat →
  P lo s →
  (∀ i x, (lo ≤ i < hi)%nat → P i x → P (Datatypes.S i) (body i x)) →
  P hi (for_loop lo hi body s).
Proof.
  intros Hle H0 Hstep.
  induction hi as [|hi IH].
  - replace lo with 0%nat in * by lia. by rewrite for_loop_nil.
  - destruct (decide (lo = Datatypes.S hi)) as [->|Hne].
    + by rewrite for_loop_nil.
    + rewrite for_loop_last by lia.
      apply Hstep; [lia|]. apply IH; [lia|].
      intros i x Hi. apply Hstep. lia.
Qed.

(** ** The collecting loop of the search functions *)

Lemma collect_spec (items : list Item) (c : Item → bool) (n : nat) :
  let r := for_loop 0 n (λ i results,
             match items !! i with
             | Some it => if c it then results ++ [i] else results
             | None => results
             end) [] in
  StronglySorted lt r ∧
  ∀ i, i ∈ r ↔ (i < n)%nat ∧ ∃ it, items !! i = Some it ∧ c it = true.
Proof.
  cbv zeta.
  apply (for_loop_inv (λ k (r : list nat),
    StronglySorted lt r ∧
    ∀ i, i ∈ r ↔ (i < k)%nat ∧ ∃ it, items !! i = Some it ∧ c it = true)).
  - lia.
  - split; [constructor|]. intros i. split.
    + intros Hi. inversion Hi.
    + intros [Hi _]. lia.
  - intros k r _ [Hsorted Hmem].
    assert (Hskip : ∀ i, (i < Datatypes.S k)%nat ∧ (∃ it, items !! i = Some it ∧ c it = true)
                     ↔ ((i < k)%nat ∧ ∃ it, items !! i = Some it ∧ c it = true) ∨
                       (i = k ∧ ∃ it, items !! i = Some it ∧ c it = true)).
    { intros i. split.
      - intros [Hi Hit]. destruct (decide (i = k)); [right|left]; split; auto; lia.
      - intros [[Hi Hit]|[-> Hit]]; split; auto; lia. }
    destruct (items !! k) as [it|] eqn:Hk; [destruct (c it) eqn:Hc|].
    + split.
      * apply StronglySorted_app_2; [|assumption|repeat constructor].
        intros x y Hx Hy. apply Hmem in Hx as [Hx _].
        apply list_elem_of_singleton in Hy as ->. exact Hx.
      * intros i. rewrite elem_of_app, list_elem_of_singleton, Hmem, Hskip.
        split; (intros [H|H]; [left; exact H|right]).
        -- subst i. split; [reflexivity|]. exists it. by split.
        -- by destruct H.
    + split; [assumption|]. intros i. rewrite Hmem, Hskip. split.
      * intros H. by left.
      * intros [H|[-> (it' & Hit' & Hc')]]; [exact H|]. congruence.
    + split; [assumption|]. intros i. rewrite Hmem, Hskip. split.
      * intros H. by left.
      * intros [H|[-> (it' & Hit' & Hc')]]; [exact H|]. congruence.
Qed.

(** ** Texts *)

Lemma append_cons (a : ascii) (p q : string) :
  String a p +:+ q = String a (p +:+ q).
Proof. reflexivity. Qed.

Lemma append_nil (q : string) : "" +:+ q = q.
Proof. reflexivity. Qed.

Lemma prefix_spec (p s : string) :
  String.prefix p s = true ↔ ∃ q, s = p +:+ q.
Proof.
  revert s. induction p as [|a p IH]; intros s.
  - destruct s; simpl; split; eauto.
  - destruct s as [|b s]; simpl.
    + split; [discriminate|]. intros [q Hq]. discriminate.
    + destruct (ascii_dec a b) as [->|Hne].
      * rewrite IH. split; intros [q Hq]; exists q;
          rewrite append_cons in *; congruence.
      * split; [discriminate|]. intros [q Hq].
        rewrite append_cons in Hq. congruence.
Qed.

Lemma find_unfold (s sub : string) :
  find s sub =
  if String.prefix sub s then Some 0%nat
  else match s with
       | EmptyString => None
       | String _ s' => S <$> find s' sub
       end.
Proof. destruct s; reflexivity. Qed.

Lemma find_spec (s sub : string) :
  find s sub ≠ None ↔ ∃ p q, s = p +:+ sub +:+ q.
Proof.
  induction s as [|a s IH]; rewrite find_unfold.
  - destruct (String.prefix sub "") eqn:Hp.
    + split; [|done]. intros _. apply prefix_spec in Hp as [q Hq].
      exists EmptyString, q. exact Hq.
    + split; [done|]. intros (p & q & Hpq).
      destruct p; [|discriminate].
      assert (String.prefix sub "" = true) by (apply prefix_spec; eauto).
      congruence.
  - destruct (String.prefix sub (String a s)) eqn:Hp.
    + split; [|done]. intros _. apply prefix_spec in Hp as [q Hq].
      exists EmptyString, q. exact Hq.
    + split.
      * intros Hf. destruct (find s sub) eqn:Hfs; [|done].
        destruct IH as [IH _]. destruct IH as (p & q & Hpq); [done|].
        exists (String a p), q. rewrite append_cons. by rewrite Hpq.
      * intros (p & q & Hpq). destruct p as [|b p].
        -- rewrite append_nil in Hpq.
           assert (String.prefix sub (String a s) = true)
             by (apply prefix_spec; eauto).
           congruence.
        -- rewrite append_cons in Hpq. injection Hpq as -> Hs.
           destruct IH as [_ IH]. destruct (find s sub); [done|].
           exfalso. apply IH; eauto.
Qed.

Lemma containsSubstring_spec (str substr : string) :
  containsSubstring str substr = true ↔ contains_nocase str substr.
Proof.
  unfold containsSubstring, contains_nocase.
  rewrite bool_decide_eq_true. apply find_spec.
Qed.

Lemma fieldsOverlap_spec (c n : Item) :
  fieldsOverlap c n = true ↔ overlap c n.
Proof.
  unfold fieldsOverlap, overlap.
  rewrite !orb_true_iff, !containsSubstring_spec. tauto.
Qed.

Lemma opposite_status_ne (c n : Item) :
  valid_flags c → valid_flags n →
  opposite_status (status c) (status n) ↔ status c ≠ status n.
Proof.
  unfold valid_flags, opposite_status.
  intros ([Hc|Hc] & _) ([Hn|Hn] & _); rewrite Hc, Hn; split; intros H;
    try done; try (destruct H as [[? ?]|[? ?]]; done); auto.
Qed.

(** ** Status search *)

(** C5: the status search returns, in store order (strictly increasing
    positions), exactly the positions of the live records whose status equals
    the query with letter case ignored and whose matched flag is 0; a record
    with a non-zero matched flag is never returned, whatever its status. *)
Theorem searchByStatus_unmatched_only (items : list Item) (itemCount : Z) (statusQ : string) :
  let results := searchByStatus items itemCount statusQ in
  StronglySorted lt results ∧
  (∀ i, i ∈ results ↔
        (i < Z.to_nat itemCount)%nat ∧
        ∃ it, items !! i = Some it ∧ eq_nocase (status it) statusQ ∧ matched it = 0) ∧
  (∀ i it, items !! i = Some it → matched it ≠ 0 → i ∉ results).
Proof.
  cbv zeta. unfold searchByStatus.
  pose proof (collect_spec items
    (λ it, String.eqb (toLowerCase (status it)) (toLowerCase statusQ) && (matched it =? 0))
    (Z.to_nat itemCount)) as [Hsorted Hmem].
  assert (Hiff : ∀ it,
    String.eqb (toLowerCase (status it)) (toLowerCase statusQ) && (matched it =? 0) = true
    ↔ eq_nocase (status it) statusQ ∧ matched it = 0).
  { intros it. rewrite andb_true_iff, String.eqb_eq, Z.eqb_eq. reflexivity. }
  split; [exact Hsorted|]. split.
  - intros i. rewrite Hmem. split.
    + intros [Hi (it & Hit & Hc)]. split; [exact Hi|].
      exists it. split; [exact Hit|]. by apply Hiff.
    + intros [Hi (it & Hit & Hc)]. split; [exact Hi|].
      exists it. split; [exact Hit|]. by apply Hiff.
  - intros i it Hit Hm Hi. apply Hmem in Hi as [_ (it' & Hit' & Hc)].
    apply Hiff in Hc as [_ Hz]. congruence.
Qed.

(** ** Candidate search *)

Lemma findPotentialMatches_spec (items : list Item) (itemCount : Z) (newItem : Item) :
  let r := findPotentialMatches items itemCount newItem in
  StronglySorted lt r ∧
  ∀ i, i ∈ r ↔
       (i < Z.to_nat itemCount)%nat ∧
       ∃ c, items !! i = Some c ∧ matched c ≠ 1 ∧ status c ≠ status newItem ∧
            overlap c newItem.
Proof.
  cbv zeta. unfold findPotentialMatches.
  pose proof (collect_spec items
    (λ it, negb ((matched it =? 1) || String.eqb (status it) (status newItem)) &&
           fieldsOverlap it newItem) (Z.to_nat itemCount)) as Hc.
  cbv zeta in Hc.
  erewrite for_loop_ext; [|intros i x _]; last first.
  { instantiate (1 := λ i results,
      match items !! i with
      | Some it =>
          if negb ((matched it =? 1) || String.eqb (status it) (status newItem)) &&
             fieldsOverlap it newItem
          then results ++ [i] else results
      | None => results
      end).
    simpl. destruct (items !! i) as [it|]; [|reflexivity].
    destruct ((matched it =? 1) || String.eqb (status it) (status newItem));
      reflexivity. }
  destruct Hc as [Hsorted Hmem]. split; [exact Hsorted|].
  intros i. rewrite Hmem.
  assert (Hiff : ∀ c,
    negb ((matched c =? 1) || String.eqb (status c) (status newItem)) &&
      fieldsOverlap c newItem = true
    ↔ matched c ≠ 1 ∧ status c ≠ status newItem ∧ overlap c newItem).
  { intros c. rewrite andb_true_iff, negb_true_iff, orb_false_iff,
      Z.eqb_neq, String.eqb_neq, fieldsOverlap_spec. tauto. }
  split; intros [Hi (c & Hcl & H)]; (split; [exact Hi|]); exists c;
    (split; [exact Hcl|]); by apply Hiff.
Qed.

(** C4: with the new record in the last live slot, the candidate search
    returns in store order exactly the positions of the other live records
    that are unmatched, of the opposite status, and overlap with the new
    record (letter case ignored, either direction) on name, category,
    description or location. *)
Theorem candidatesForNew_spec (items : list Item) (itemCount : Z) (newItem : Item) :
  0 < itemCount →
  items !! Z.to_nat (itemCount - 1) = Some newItem →
  Forall valid_flags (live items itemCount) →
  let r := candidatesForNew items itemCount in
  StronglySorted lt r ∧
  ∀ i, i ∈ r ↔
       ((i < Z.to_nat itemCount)%nat ∧ i ≠ Z.to_nat (itemCount - 1)) ∧
       ∃ c, items !! i = Some c ∧ matched c = 0 ∧
            opposite_status (status c) (status newItem) ∧ overlap c newItem.
Proof.
  intros Hpos Hnew Hvalid. cbv zeta. unfold candidatesForNew. rewrite Hnew.
  destruct (findPotentialMatches_spec items (itemCount - 1) newItem) as [Hs Hm].
  split; [exact Hs|]. intros i. rewrite Hm.
  assert (Hv : ∀ j c, (j < Z.to_nat itemCount)%nat → items !! j = Some c → valid_flags c).
  { intros j c Hj Hc. rewrite Forall_lookup in Hvalid. apply (Hvalid j).
    unfold live. by rewrite lookup_take_lt. }
  assert (Hvn : valid_flags newItem) by (apply (Hv (Z.to_nat (itemCount - 1))); [lia|done]).
  split.
  - intros [Hi (c & Hc & Hm1 & Hst & Hov)].
    split; [lia|]. exists c.
    assert (valid_flags c) as Hvc by (apply (Hv i); [lia|done]).
    split; [done|]. split; [destruct Hvc as (_ & [?|?] & _); [done|lia]|].
    split; [by apply opposite_status_ne|done].
  - intros [[Hi Hne] (c & Hc & Hm0 & Hst & Hov)].
    split; [lia|]. exists c.
    assert (valid_flags c) as Hvc by (apply (Hv i); [lia|done]).
    split; [done|]. split; [lia|].
    split; [by apply opposite_status_ne|done].
Qed.

Lemma exampleItems_valid : Forall valid_flags (live exampleItems 2).
Proof.
  unfold live, exampleItems. simpl.
  apply Forall_cons. split; [unfold valid_flags; simpl; auto|].
  apply Forall_cons. split; [unfold valid_flags; simpl; auto|].
  apply Forall_nil. exact I.
Qed.

Lemma candidatesForNew_witness :
  let r := candidatesForNew exampleItems 2 in
  StronglySorted lt r ∧
  ∀ i, i ∈ r ↔
       ((i < Z.to_nat 2)%nat ∧ i ≠ Z.to_nat (2 - 1)) ∧
       ∃ c, exampleItems !! i = Some c ∧ matched c = 0 ∧
            opposite_status (status c) (status walletFound) ∧ overlap c walletFound.
Proof.
  apply (candidatesForNew_spec exampleItems 2 walletFound);
    [lia | reflexivity | exact exampleItems_valid].
Defined.

(** ** Lookups by id *)

Lemma firstWithID_Some (items : list Item) (i r : nat) (idQ : Z) (p : nat) :
  firstWithID items i r idQ = Some p →
  (i ≤ p < i + r)%nat ∧
  (∃ it, items !! p = Some it ∧ id it = idQ) ∧
  ∀ j it, (i ≤ j < p)%nat → items !! j = Some it → id it ≠ idQ.
Proof.
  revert i. induction r as [|r IH]; intros i; simpl; [discriminate|].
  destruct (items !! i) as [it|] eqn:Hi; [|discriminate].
  destruct (id it =? idQ) eqn:Hid.
  - intros [= <-]. apply Z.eqb_eq in Hid.
    split; [lia|]. split; [eauto|]. intros j it' Hj. lia.
  - intros Hf. apply IH in Hf as (Hp & Hit & Hbefore).
    split; [lia|]. split; [exact Hit|].
    intros j it' Hj Hj'. destruct (decide (j = i)) as [->|Hne].
    + apply Z.eqb_neq in Hid. congruence.
    + apply (Hbefore j); [lia|done].
Qed.

Lemma firstWithID_None (items : list Item) (i r : nat) (idQ : Z) :
  (i + r ≤ length items)%nat →
  firstWithID items i r idQ = None →
  ∀ j it, (i ≤ j < i + r)%nat → items !! j = Some it → id it ≠ idQ.
Proof.
  revert i. induction r as [|r IH]; intros i Hlen; simpl; [intros; lia|].
  destruct (items !! i) as [it|] eqn:Hi.
  - destruct (id it =? idQ) eqn:Hid; [discriminate|].
    intros Hf j it' Hj Hj'. destruct (decide (j = i)) as [->|Hne].
    + apply Z.eqb_neq in Hid. congruence.
    + apply (IH (S i)) with (j := j); [lia|done|lia|done].
  - apply lookup_ge_None in Hi. lia.
Qed.

(** The lookup only reads the ids. *)
Lemma firstWithID_ids (items items' : list Item) (i r : nat) (idQ : Z) :
  (∀ j, id <$> items !! j = id <$> items' !! j) →
  firstWithID items i r idQ = firstWithID items' i r idQ.
Proof.
  intros Hids. revert i. induction r as [|r IH]; intros i; simpl; [reflexivity|].
  specialize (Hids i).
  destruct (items !! i) as [it|], (items' !! i) as [it'|]; simpl in Hids;
    try discriminate; [|reflexivity].
  injection Hids as ->. by rewrite IH.
Qed.

Lemma unique_ids_pos (items : list Item) (itemCount : Z) (i j : nat) (a b : Item) :
  unique_ids items itemCount →
  (i < Z.to_nat itemCount)%nat → (j < Z.to_nat itemCount)%nat →
  items !! i = Some a → items !! j = Some b → id a = id b → i = j.
Proof.
  unfold unique_ids, live. intros Hnd Hi Hj Ha Hb Hab.
  apply (NoDup_lookup _ i j (id a) Hnd);
    rewrite list_lookup_fmap, lookup_take_lt by done.
  - by rewrite Ha.
  - rewrite Hb. simpl. by rewrite Hab.
Qed.

Lemma findBoth_spec (items : list Item) (itemCount : Z) (id1 id2 : Z) :
  is_last_hit items (Z.to_nat itemCount) id1 (fst (findBoth items itemCount id1 id2)) ∧
  is_last_hit items (Z.to_nat itemCount) id2 (snd (findBoth items itemCount id1 id2)).
Proof.
  unfold findBoth.
  apply (for_loop_inv (λ k (ptrs : option nat * option nat),
    is_last_hit items k id1 (fst ptrs) ∧ is_last_hit items k id2 (snd ptrs))).
  - lia.
  - simpl. split; intros j it Hj; lia.
  - assert (Hstep : ∀ k idQ o it,
      items !! k = Some it → is_last_hit items k idQ o →
      is_last_hit items (S k) idQ (if id it =? idQ then Some k else o)).
    { intros k idQ o it Hk Ho. destruct (id it =? idQ) eqn:Hid.
      - apply Z.eqb_eq in Hid. simpl. split; [lia|]. split; [eauto|].
        intros j it' Hj. lia.
      - apply Z.eqb_neq in Hid. destruct o as [p|]; simpl in *.
        + destruct Ho as (Hp & Hit & Hafter). split; [lia|]. split; [exact Hit|].
          intros j it' Hj Hj'. destruct (decide (j = k)) as [->|Hne];
            [congruence|]. apply (Hafter j); [lia|done].
        + intros j it' Hj Hj'. destruct (decide (j = k)) as [->|Hne];
            [congruence|]. apply (Ho j); [lia|done]. }
    assert (Hskip : ∀ k idQ o,
      items !! k = None → is_last_hit items k idQ o → is_last_hit items (S k) idQ o).
    { intros k idQ o Hk Ho. destruct o as [p|]; simpl in *.
      - destruct Ho as (Hp & Hit & Hafter). split; [lia|]. split; [exact Hit|].
        intros j it' Hj Hj'. destruct (decide (j = k)) as [->|Hne];
          [congruence|]. apply (Hafter j); [lia|done].
      - intros j it' Hj Hj'. destruct (decide (j = k)) as [->|Hne];
          [congruence|]. apply (Ho j); [lia|done]. }
    intros k [o1 o2] _ [H1 H2]. simpl in *.
    destruct (items !! k) as [it|] eqn:Hk; simpl; split; auto.
Qed.

(** With unique ids the scan ends on the one live slot that holds the id. *)
Lemma is_last_hit_unique (items : list Item) (itemCount : Z) (p : nat) (a : Item) (o : option nat) :
  unique_ids items itemCount →
  (p < Z.to_nat itemCount)%nat → items !! p = Some a →
  is_last_hit items (Z.to_nat itemCount) (id a) o → o = Some p.
Proof.
  intros Hu Hp Ha Ho. destruct o as [q|]; simpl in Ho.
  - destruct Ho as (Hq & (it & Hit & Hid) & _). f_equal.
    by apply (unique_ids_pos items itemCount q p it a).
  - exfalso. by apply (Ho p a).
Qed.

(** ** Matching two records *)

Lemma markAsMatched_lookup (p1 p2 : nat) (items : list Item) (a b : Item) :
  p1 ≠ p2 → items !! p1 = Some a → items !! p2 = Some b →
  markAsMatched p1 p2 items !! p1 = Some (set_matchedItemID (id b) (set_matched 1 a)) ∧
  markAsMatched p1 p2 items !! p2 = Some (set_matchedItemID (id a) (set_matched 1 b)) ∧
  ∀ j, j ≠ p1 → j ≠ p2 → markAsMatched p1 p2 items !! j = items !! j.
Proof.
  intros Hne Ha Hb. unfold markAsMatched.
  set (items1 := alter (set_matched 1) p1 items).
  set (items2 := alter (set_matched 1) p2 items1).
  assert (H2b : items2 !! p2 = Some (set_matched 1 b)).
  { unfold items2, items1.
    by rewrite list_lookup_alter_eq, list_lookup_alter_ne, Hb by done. }
  assert (H2a : items2 !! p1 = Some (set_matched 1 a)).
  { unfold items2, items1.
    by rewrite list_lookup_alter_ne, list_lookup_alter_eq, Ha by done. }
  rewrite H2b. simpl.
  set (items3 := alter (set_matchedItemID (id b)) p1 items2).
  assert (H3a : items3 !! p1 = Some (set_matchedItemID (id b) (set_matched 1 a))).
  { unfold items3. by rewrite list_lookup_alter_eq, H2a. }
  rewrite H3a. simpl. split; [|split].
  - by rewrite list_lookup_alter_ne.
  - unfold items3. by rewrite list_lookup_alter_eq, list_lookup_alter_ne, H2b by done.
  - intros j Hj1 Hj2. unfold items3, items2, items1.
    by rewrite !list_lookup_alter_ne by done.
Qed.

(** When the explicit match succeeds: the guards of [markItemAsMatched], read
    on the two records the ids resolve to. *)
Lemma markItemAsMatched_done (canWrite : bool) (st st' : State) (pa pb : nat) (a b : Item) :
  unique_ids (items st) (itemCount st) →
  (pa < Z.to_nat (itemCount st))%nat → (pb < Z.to_nat (itemCount st))%nat →
  items st !! pa = Some a → items st !! pb = Some b →
  markItemAsMatched canWrite (id a) (id b) st = (st', MatchDone) →
  id a ≠ id b ∧
  ¬ (status a = "Lost" ∧ status b = "Lost") ∧
  ¬ (status a = "Found" ∧ status b = "Found") ∧
  matched a = 0 ∧ matched b = 0 ∧
  items st' = markAsMatched pa pb (items st).
Proof.
  intros Hu Hpa Hpb Ha Hb. unfold markItemAsMatched.
  destruct (itemCount st <? 2); [discriminate|].
  destruct (id a =? id b) eqn:Hab; [discriminate|]. apply Z.eqb_neq in Hab.
  destruct (findBoth_spec (items st) (itemCount st) (id a) (id b)) as [H1 H2].
  apply (is_last_hit_unique _ _ pa a) in H1; [|done..].
  apply (is_last_hit_unique _ _ pb b) in H2; [|done..].
  destruct (findBoth (items st) (itemCount st) (id a) (id b)) as [o1 o2].
  simpl in H1, H2. subst o1 o2. rewrite Ha, Hb.
  destruct (String.eqb_spec (status a) "Lost") as [Hal|Hal];
  destruct (String.eqb_spec (status b) "Lost") as [Hbl|Hbl];
  destruct (String.eqb_spec (status a) "Found") as [Haf|Haf];
  destruct (String.eqb_spec (status b) "Found") as [Hbf|Hbf];
  simpl; try discriminate;
  (destruct (matched a =? 0) eqn:Hma; simpl; [|discriminate]);
  (destruct (matched b =? 0) eqn:Hmb; simpl; [|discriminate]);
  apply Z.eqb_eq in Hma, Hmb; intros [= <-]; simpl;
  repeat split; try done; intros [? ?]; congruence.
Qed.

(** C2: when [markItemAsMatched] succeeds on the ids of two live records [a]
    and [b] (at different positions of a store with unique ids and with
    status and flags as the program writes them), the two records are linked
    to each other and both matched; and success implies opposite status,
    both unmatched before, and different ids. *)
Theorem markItemAsMatched_symmetric (canWrite : bool) (st st' : State)
    (pa pb : nat) (a b : Item) :
  unique_ids (items st) (itemCount st) →
  Forall valid_flags (live (items st) (itemCount st)) →
  (pa < Z.to_nat (itemCount st))%nat → (pb < Z.to_nat (itemCount st))%nat →
  pa ≠ pb →
  items st !! pa = Some a → items st !! pb = Some b →
  markItemAsMatched canWrite (id a) (id b) st = (st', MatchDone) →
  (∃ a' b', items st' !! pa = Some a' ∧ items st' !! pb = Some b' ∧
            id a' = id a ∧ id b' = id b ∧
            matchedItemID a' = id b ∧ matchedItemID b' = id a ∧
            matched a' = 1 ∧ matched b' = 1) ∧
  opposite_status (status a) (status b) ∧
  matched a = 0 ∧ matched b = 0 ∧ id a ≠ id b.
Proof.
  intros Hu Hvalid Hpa Hpb Hne Ha Hb Hdone.
  destruct (markItemAsMatched_done canWrite st st' pa pb a b Hu Hpa Hpb Ha Hb Hdone)
    as (Hid & HnL & HnF & Hma & Hmb & Hitems).
  destruct (markAsMatched_lookup pa pb (items st) a b Hne Ha Hb) as (Ha' & Hb' & _).
  split.
  - exists (set_matchedItemID (id b) (set_matched 1 a)),
           (set_matchedItemID (id a) (set_matched 1 b)).
    rewrite Hitems. repeat split; done.
  - assert (valid_flags a ∧ valid_flags b) as [Hva Hvb].
    { rewrite Forall_lookup in Hvalid. unfold live in Hvalid.
      split; [apply (Hvalid pa)|apply (Hvalid pb)]; by rewrite lookup_take_lt. }
    repeat split; try done.
    destruct Hva as ([Hsa|Hsa] & _), Hvb as ([Hsb|Hsb] & _); unfold opposite_status;
      tauto.
Qed.

(** The wallet scenario: matching 100 with 101 succeeds. *)
Lemma markItemAsMatched_symmetric_witness :
  (∃ a' b', items (fst (markItemAsMatched true 100 101 exampleState)) !! 0%nat = Some a' ∧
            items (fst (markItemAsMatched true 100 101 exampleState)) !! 1%nat = Some b' ∧
            id a' = id walletLost ∧ id b' = id walletFound ∧
            matchedItemID a' = id walletFound ∧ matchedItemID b' = id walletLost ∧
            matched a' = 1 ∧ matched b' = 1) ∧
  opposite_status (status walletLost) (status walletFound) ∧
  matched walletLost = 0 ∧ matched walletFound = 0 ∧ id walletLost ≠ id walletFound.
Proof.
  apply (markItemAsMatched_symmetric true exampleState
           (fst (markItemAsMatched true 100 101 exampleState)) 0 1 walletLost walletFound).
  - unfold unique_ids, live. simpl. apply NoDup_cons. split.
    + rewrite list_elem_of_singleton. discriminate.
    + apply NoDup_singleton.
  - exact exampleItems_valid.
  - simpl. lia.
  - simpl. lia.
  - discriminate.
  - reflexivity.
  - reflexivity.
  - reflexivity.
Defined.

(** ** Self match *)

(** C10 as the code has it: with both ids equal the operation changes nothing
    and ends with the self-match message, whether or not the id exists,
    provided the store holds at least two records; with fewer it ends with
    "Not enough items" before the ids are compared. *)
Theorem markItemAsMatched_self (canWrite : bool) (st : State) (a : Z) :
  markItemAsMatched canWrite a a st =
  (st, if itemCount st <? 2 then MatchNotEnoughItems else MatchSelf).
Proof.
  unfold markItemAsMatched. destruct (itemCount st <? 2); [reflexivity|].
  by rewrite Z.eqb_refl.
Qed.

(** On the empty store of a first run, matching 7 with 7 is not answered
    with the self-match message. *)
Lemma markItemAsMatched_self_empty :
  snd (markItemAsMatched true 7 7 (initialState None)) ≠ MatchSelf.
Proof. discriminate. Qed.

(** ** Claiming *)

Lemma getItemByID_set_claimed (items : list Item) (itemCount : Z) (p : nat) (idQ : Z) :
  getItemByID (alter (set_claimed 1) p items) itemCount idQ = getItemByID items itemCount idQ.
Proof.
  unfold getItemByID. apply firstWithID_ids. intros j.
  destruct (decide (p = j)) as [->|Hne].
  - rewrite list_lookup_alter_eq. by destruct (items !! j).
  - by rewrite list_lookup_alter_ne.
Qed.

(** C3: for an id that resolves to a live record [t] (flags as the program
    writes them), [markAsClaimed] fails and leaves the whole state as it was
    unless [t] is matched and not yet claimed; in that case it succeeds; and
    whenever it succeeds, [t]'s slot and the slot its [matchedItemID] resolves
    to both hold [claimed = 1]. *)
Theorem markAsClaimed_precondition (canWrite : bool) (st : State) (idQ : Z)
    (p : nat) (t : Item) :
  Forall valid_flags (live (items st) (itemCount st)) →
  getItemByID (items st) (itemCount st) idQ = Some p →
  items st !! p = Some t →
  (¬ (matched t = 1 ∧ claimed t = 0) →
     ∃ o, o ≠ ClaimDone ∧ markAsClaimed canWrite idQ st = (st, o)) ∧
  (matched t = 1 ∧ claimed t = 0 → snd (markAsClaimed canWrite idQ st) = ClaimDone) ∧
  (∀ st', markAsClaimed canWrite idQ st = (st', ClaimDone) →
     (∃ t', items st' !! p = Some t' ∧ id t' = id t ∧ claimed t' = 1) ∧
     (∀ q, matchedItemID t ≠ -1 →
           getItemByID (items st) (itemCount st) (matchedItemID t) = Some q →
           ∃ c', items st' !! q = Some c' ∧ id c' = matchedItemID t ∧ claimed c' = 1)).
Proof.
  intros Hvalid Hget Ht.
  assert (Hvt : valid_flags t).
  { apply firstWithID_Some in Hget as (Hp & _).
    rewrite Forall_lookup in Hvalid. apply (Hvalid p).
    unfold live. rewrite lookup_take_lt by lia. done. }
  destruct Hvt as (_ & Hm & Hc).
  unfold markAsClaimed. rewrite Hget, Ht.
  split; [|split].
  - intros Hnot. destruct (matched t =? 0) eqn:Hm0.
    + exists ClaimNotMatched. by split.
    + destruct (claimed t =? 1) eqn:Hc1.
      * exists ClaimAlreadyClaimed. by split.
      * exfalso. apply Hnot. lia.
  - intros [Hm1 Hc0]. rewrite Hm1, Hc0. reflexivity.
  - intros st'. destruct (matched t =? 0); [discriminate|].
    destruct (claimed t =? 1); [discriminate|].
    intros [= <-]. simpl.
    set (items1 := alter (set_claimed 1) p (items st)).
    assert (H1 : items1 !! p = Some (set_claimed 1 t)).
    { unfold items1. by rewrite list_lookup_alter_eq, Ht. }
    destruct (matchedItemID t =? -1) eqn:Hsent; simpl.
    + apply Z.eqb_eq in Hsent. split; [|intros; lia].
      exists (set_claimed 1 t). by rewrite H1.
    + assert (Hsame : getItemByID items1 (itemCount st) (matchedItemID t) =
                      getItemByID (items st) (itemCount st) (matchedItemID t))
        by apply getItemByID_set_claimed.
      rewrite Hsame. clear Hsame.
      destruct (getItemByID (items st) (itemCount st) (matchedItemID t)) as [q|] eqn:Hq.
      * split.
        -- destruct (decide (q = p)) as [->|Hne].
           ++ exists (set_claimed 1 (set_claimed 1 t)).
              by rewrite list_lookup_alter_eq, H1.
           ++ exists (set_claimed 1 t). by rewrite list_lookup_alter_ne, H1.
        -- intros q' _ [= <-].
           apply firstWithID_Some in Hq as (_ & (c & Hc' & Hidc) & _).
           destruct (decide (q = p)) as [->|Hne].
           ++ exists (set_claimed 1 (set_claimed 1 t)).
              rewrite list_lookup_alter_eq, H1. simpl. split; [done|].
              split; [congruence|done].
           ++ exists (set_claimed 1 c).
              rewrite list_lookup_alter_eq. unfold items1.
              rewrite list_lookup_alter_ne, Hc' by done. done.
      * split; [|intros; discriminate].
        exists (set_claimed 1 t). by rewrite H1.
Qed.

(** ** Deleting *)

Lemma firstWithID_first (items : list Item) (n k : nat) (r : Item) :
  (n ≤ length items)%nat → (k < n)%nat →
  items !! k = Some r →
  (∀ j it, (j < k)%nat → items !! j = Some it → id it ≠ id r) →
  firstWithID items 0 n (id r) = Some k.
Proof.
  intros Hlen Hk Hr Hfirst.
  destruct (firstWithID items 0 n (id r)) as [p|] eqn:Hf.
  - apply firstWithID_Some in Hf as (Hp & (it & Hit & Hid) & Hbefore).
    f_equal. destruct (decide (p < k)%nat) as [Hlt|Hge].
    + exfalso. by apply (Hfirst p it).
    + destruct (decide (k < p)%nat) as [Hlt|Hge']; [|lia].
      exfalso. apply (Hbefore k r); [lia|done|done].
  - exfalso. apply (firstWithID_None items 0 n (id r)) with (j := k) (it := r);
      [lia|done|lia|done|done].
Qed.

(** The shifting loop, slot by slot. *)
Lemma shiftDown_lookup (index : nat) (items : list Item) (itemCount : Z) (j : nat) :
  (Z.to_nat itemCount ≤ length items)%nat →
  (index < Z.to_nat itemCount)%nat →
  shiftDown index items itemCount !! j =
  if decide (index ≤ j < Z.to_nat itemCount - 1)%nat then items !! S j else items !! j.
Proof.
  intros Hlen Hidx. unfold shiftDown. revert j.
  refine (for_loop_inv (λ m (cur : list Item),
    ∀ j, cur !! j = if decide (index ≤ j < m)%nat then items !! S j else items !! j)
    index (Z.to_nat itemCount - 1)%nat _ items _ _ _).
  - lia.
  - intros j. case_decide; [lia|done].
  - intros i cur Hi Hcur j.
    assert (Hnext : cur !! (i + 1)%nat = items !! (i + 1)%nat).
    { rewrite Hcur. case_decide; [lia|done]. }
    destruct (lookup_lt_is_Some_2 items (i + 1)) as [x Hx]; [lia|].
    rewrite Hnext, Hx.
    assert (Hleni : (i < length cur)%nat).
    { apply lookup_lt_is_Some. rewrite Hcur. case_decide; apply lookup_lt_is_Some; lia. }
    destruct (decide (i = j)) as [->|Hne].
    + rewrite list_lookup_insert_eq by done.
      case_decide; [|lia]. by rewrite <- Hx, Nat.add_1_r.
    + rewrite list_lookup_insert_ne by done. rewrite Hcur.
      repeat case_decide; try done; lia.
Qed.

Lemma shiftDown_live (index : nat) (items : list Item) (itemCount : Z) :
  (Z.to_nat itemCount ≤ length items)%nat →
  (index < Z.to_nat itemCount)%nat →
  live (shiftDown index items itemCount) (itemCount - 1) = delete index (live items itemCount).
Proof.
  intros Hlen Hidx. unfold live. apply list_eq. intros j.
  replace (Z.to_nat (itemCount - 1)) with (Z.to_nat itemCount - 1)%nat by lia.
  rewrite list_lookup_delete.
  destruct (decide (j < Z.to_nat itemCount - 1)%nat) as [Hj|Hj].
  - rewrite lookup_take_lt by done. rewrite shiftDown_lookup by done.
    repeat case_decide; try lia; by rewrite lookup_take_lt by lia.
  - rewrite lookup_take_ge by lia.
    symmetry. case_decide; apply lookup_take_ge; lia.
Qed.

(** C7: on a non-empty store, deleting (and confirming) by the id of the
    record at live position [k] -- the first record with that id -- succeeds;
    the live sequence afterwards is the old one without its [k]-th element:
    the records before [k] stay where they were, those after [k] move one
    position down in the same order, and the count drops by one. *)
Theorem deleteItem_preserves_order (canWrite : bool) (st : State) (k : nat) (r : Item) :
  (Z.to_nat (itemCount st) ≤ length (items st))%nat →
  (k < Z.to_nat (itemCount st))%nat →
  items st !! k = Some r →
  (∀ j it, (j < k)%nat → items st !! j = Some it → id it ≠ id r) →
  ∃ st', deleteItem canWrite (id r) true st = (st', Deleted) ∧
    itemCount st' = itemCount st - 1 ∧
    nextID st' = nextID st ∧
    live (items st') (itemCount st') = delete k (live (items st) (itemCount st)) ∧
    (∀ j, (j < k)%nat →
          live (items st') (itemCount st') !! j = live (items st) (itemCount st) !! j) ∧
    (∀ j, (k ≤ j)%nat →
          live (items st') (itemCount st') !! j = live (items st) (itemCount st) !! S j) ∧
    length (live (items st') (itemCount st')) =
      (length (live (items st) (itemCount st)) - 1)%nat.
Proof.
  intros Hlen Hk Hr Hfirst. unfold deleteItem.
  destruct (itemCount st =? 0) eqn:H0; [apply Z.eqb_eq in H0; lia|].
  rewrite (firstWithID_first _ _ k r) by done. simpl.
  eexists. split; [reflexivity|]. simpl.
  rewrite shiftDown_live by done.
  split; [reflexivity|]. split; [reflexivity|]. split; [reflexivity|].
  split; [|split].
  - intros j Hj. by apply list_lookup_delete_lt.
  - intros j Hj. by apply list_lookup_delete_ge.
  - apply length_delete. apply lookup_lt_is_Some. unfold live.
    rewrite length_take_le by done. done.
Qed.

(** ** Sorting: every exchange is an adjacent, out-of-order one *)

Section BubbleSwaps.
Variable outOfOrder : Item → Item → bool.

Lemma bubbleStep_cases (j : nat) (items : list Item) :
  bubbleStep outOfOrder j items = items ∨
  ∃ l1 x y l2, items = l1 ++ x :: y :: l2 ∧ length l1 = j ∧
               outOfOrder x y = true ∧
               bubbleStep outOfOrder j items = l1 ++ y :: x :: l2.
Proof.
  unfold bubbleStep.
  destruct (items !! j) as [x|] eqn:Hx; [|by left].
  destruct (items !! (j + 1)%nat) as [y|] eqn:Hy; [|by left].
  destruct (outOfOrder x y) eqn:Hxy; [|by left].
  right. exists (take j items), x, y, (drop (S (S j)) items).
  assert (Hlen : length (take j items) = j).
  { apply length_take_le. apply lookup_lt_Some in Hx. lia. }
  assert (Hsplit : items = take j items ++ x :: y :: drop (S (S j)) items).
  { rewrite <- (take_drop_middle items j x Hx) at 1. do 2 f_equal.
    rewrite Nat.add_1_r in Hy.
    rewrite <- (take_drop_middle items (S j) y Hy) at 1.
    rewrite drop_app_length'; [done|].
    symmetry. apply length_take_le. apply lookup_lt_Some in Hy. lia. }
  split; [exact Hsplit|]. split; [exact Hlen|]. split; [exact Hxy|].
  unfold swapItems. rewrite Hx, Hy.
  rewrite Hsplit at 1.
  rewrite (insert_app_r_alt _ _ j) by lia.
  rewrite Hlen, Nat.sub_diag. simpl.
  rewrite (insert_app_r_alt _ _ (j + 1)) by lia.
  rewrite Hlen. replace (j + 1 - j)%nat with 1%nat by lia. reflexivity.
Qed.

Lemma bubblePass_swaps (n m : nat) (items : list Item) :
  (m + 1 ≤ n)%nat →
  rtc (adjacent_swap outOfOrder n) items (for_loop 0 m (bubbleStep outOfOrder) items).
Proof.
  intros Hm.
  apply (for_loop_inv (λ _ cur, rtc (adjacent_swap outOfOrder n) items cur)).
  - lia.
  - constructor.
  - intros j cur Hj Hcur.
    destruct (bubbleStep_cases j cur) as [->|(l1 & x & y & l2 & -> & Hlen & Hxy & ->)];
      [exact Hcur|].
    eapply rtc_r; [exact Hcur|]. constructor; [exact Hxy|lia].
Qed.

Lemma bubbleSort_swaps (items : list Item) (itemCount : Z) :
  rtc (adjacent_swap outOfOrder (Z.to_nat itemCount)) items
      (bubbleSort outOfOrder items itemCount).
Proof.
  unfold bubbleSort.
  apply (for_loop_inv (λ _ cur,
    rtc (adjacent_swap outOfOrder (Z.to_nat itemCount)) items cur)).
  - lia.
  - constructor.
  - intros i cur Hi Hcur. etrans; [exact Hcur|].
    apply bubblePass_swaps. lia.
Qed.

(** What one exchange does to the live records. *)
Lemma adjacent_swap_live (n : nat) (l l' : list Item) :
  adjacent_swap outOfOrder n l l' →
  ∃ l1 x y l2, take n l = l1 ++ x :: y :: l2 ∧ take n l' = l1 ++ y :: x :: l2 ∧
               outOfOrder x y = true ∧ drop n l' = drop n l ∧ length l' = length l.
Proof.
  intros [l1 x y l2 Hxy Hlen].
  exists l1, x, y, (take (n - (length l1 + 2)) l2).
  rewrite !take_app_ge, !drop_app_ge by lia.
  replace (n - length l1)%nat with (S (S (n - (length l1 + 2)))) by lia.
  simpl. repeat split; try done.
  rewrite !length_app. reflexivity.
Qed.

Lemma swaps_perm (n : nat) (l l' : list Item) :
  rtc (adjacent_swap outOfOrder n) l l' →
  take n l' ≡ₚ take n l ∧ drop n l' = drop n l ∧ length l' = length l.
Proof.
  induction 1 as [l|l l' l'' Hstep _ (IHp & IHd & IHl)]; [done|].
  apply adjacent_swap_live in Hstep
    as (l1 & x & y & l2 & Hl & Hl' & _ & Hd & Hlen).
  split; [|split; congruence].
  rewrite IHp, Hl, Hl'. apply Permutation_app_head. apply perm_swap.
Qed.

(** Records that the condition never exchanges with one another keep
    their order. *)
Lemma swaps_filter (P : Item → Prop) `{∀ x, Decision (P x)} (n : nat) (l l' : list Item) :
  (∀ x y, outOfOrder x y = true → ¬ (P x ∧ P y)) →
  rtc (adjacent_swap outOfOrder n) l l' →
  filter P (take n l') = filter P (take n l).
Proof.
  intros Hex. induction 1 as [l|l l' l'' Hstep _ IH]; [done|].
  apply adjacent_swap_live in Hstep as (l1 & x & y & l2 & Hl & Hl' & Hxy & _).
  rewrite IH, Hl, Hl', !filter_app, !filter_cons. f_equal.
  specialize (Hex x y Hxy).
  destruct (decide (P x)), (decide (P y)); tauto.
Qed.
End BubbleSwaps.

(** ** Sorting: the result is in order *)

Lemma StronglySorted_lookup_2 {A : Type} (R : relation A) (l : list A) :
  (∀ a b x y, (a < b)%nat → l !! a = Some x → l !! b = Some y → R x y) →
  StronglySorted R l.
Proof.
  induction l as [|z l IH]; intros Hl; constructor.
  - apply IH. intros a b x y Hab Ha Hb. apply (Hl (S a) (S b)); [lia|done..].
  - apply Forall_lookup. intros b y Hb. apply (Hl 0%nat (S b)); [lia|done..].
Qed.

Section BubbleOrder.
Variable outOfOrder : Item → Item → bool.
Hypothesis outOfOrder_asym : ∀ x y, outOfOrder x y = true → outOfOrder y x = false.
Hypothesis inOrder_trans :
  ∀ x y z, outOfOrder x y = false → outOfOrder y z = false → outOfOrder x z = false.

Lemma bubbleStep_lookup (j : nat) (items : list Item) (x y : Item) (a : nat) :
  items !! j = Some x → items !! (j + 1)%nat = Some y →
  bubbleStep outOfOrder j items !! a =
  if outOfOrder x y
  then (if decide (a = j) then Some y
        else if decide (a = j + 1)%nat then Some x else items !! a)
  else items !! a.
Proof.
  intros Hx Hy. unfold bubbleStep, swapItems. rewrite Hx, Hy.
  destruct (outOfOrder x y); [|reflexivity].
  pose proof (lookup_lt_Some _ _ _ Hx). pose proof (lookup_lt_Some _ _ _ Hy).
  destruct (decide (a = j)) as [->|Haj].
  - rewrite list_lookup_insert_ne by lia.
    by rewrite list_lookup_insert_eq by lia.
  - destruct (decide (a = j + 1)%nat) as [->|Haj1].
    + by rewrite list_lookup_insert_eq by (rewrite length_insert; lia).
    + by rewrite !list_lookup_insert_ne by lia.
Qed.

Lemma bubbleStep_length (j : nat) (items : list Item) :
  length (bubbleStep outOfOrder j items) = length items.
Proof.
  unfold bubbleStep, swapItems.
  destruct (items !! j), (items !! (j + 1)%nat); try done.
  destruct (outOfOrder _ _); [|done]. by rewrite !length_insert.
Qed.

(** One pass over the slots [0..m]: the greatest record ends in slot [m]. *)
Lemma bubblePass_spec (m : nat) (items : list Item) :
  (m < length items)%nat →
  let cur := for_loop 0 m (bubbleStep outOfOrder) items in
  length cur = length items ∧
  (∀ b, (m < b)%nat → cur !! b = items !! b) ∧
  (∀ a, (a ≤ m)%nat → ∃ a', (a' ≤ m)%nat ∧ cur !! a = items !! a') ∧
  (∀ a x y, (a < m)%nat → cur !! a = Some x → cur !! m = Some y →
            outOfOrder x y = false).
Proof.
  intros Hm. cbv zeta.
  refine (for_loop_inv (λ j (cur : list Item),
    length cur = length items ∧
    (∀ b, (j < b)%nat → cur !! b = items !! b) ∧
    (∀ a, (a ≤ j)%nat → ∃ a', (a' ≤ j)%nat ∧ cur !! a = items !! a') ∧
    (∀ a x y, (a < j)%nat → cur !! a = Some x → cur !! j = Some y →
              outOfOrder x y = false)) 0 m _ items _ _ _).
  - lia.
  - split; [done|]. split; [done|]. split.
    + intros a Ha. exists 0%nat. split; [lia|]. by replace a with 0%nat by lia.
    + intros; lia.
  - intros j cur Hj (Hlen & Hafter & Hfrom & Hmax).
    destruct (lookup_lt_is_Some_2 cur j) as [x Hx]; [lia|].
    destruct (lookup_lt_is_Some_2 cur (j + 1)) as [y Hy]; [lia|].
    pose proof (bubbleStep_lookup j cur x y) as Hlook.
    split; [by rewrite bubbleStep_length|].
    destruct (outOfOrder x y) eqn:Hxy.
    + split; [|split].
      * intros b Hb. rewrite Hlook by done.
        rewrite !decide_False by lia. apply Hafter. lia.
      * intros a Ha. rewrite Hlook by done.
        destruct (decide (a = j)) as [->|Haj].
        -- exists (j + 1)%nat. split; [lia|]. rewrite <- Hy. apply Hafter. lia.
        -- destruct (decide (a = j + 1)%nat) as [->|Haj1].
           ++ destruct (Hfrom j) as (a' & Ha' & Heq); [lia|].
              exists a'. split; [lia|]. by rewrite <- Hx.
           ++ destruct (Hfrom a) as (a' & Ha' & Heq); [lia|].
              exists a'. split; [lia|done].
      * intros a x' y' Ha. rewrite !Hlook by done.
        replace (S j) with (j + 1)%nat by lia.
        rewrite (decide_False (P := (j + 1 = j)%nat)) by lia.
        rewrite (decide_True (P := (j + 1 = j + 1)%nat)) by lia.
        destruct (decide (a = j)) as [->|Haj].
        -- intros [= <-] [= <-]. by apply outOfOrder_asym.
        -- rewrite decide_False by lia. intros Hx' [= <-].
           apply (Hmax a x' x); [lia|done..].
    + split; [|split].
      * intros b Hb. rewrite Hlook by done. apply Hafter. lia.
      * intros a Ha. rewrite Hlook by done.
        destruct (decide (a = j + 1)%nat) as [->|Haj1].
        -- exists (j + 1)%nat. split; [lia|]. apply Hafter. lia.
        -- destruct (Hfrom a) as (a' & Ha' & Heq); [lia|].
           exists a'. split; [lia|done].
      * intros a x' y' Ha. rewrite !Hlook by done.
        replace (S j) with (j + 1)%nat by lia. rewrite Hy.
        intros Hx' [= <-].
        destruct (decide (a = j)) as [->|Haj].
        -- congruence.
        -- apply (inOrder_trans x' x y); [|done].
           apply (Hmax a x' x); [lia|done..].
Qed.

Lemma bubbleSort_in_order (items : list Item) (itemCount : Z) :
  (Z.to_nat itemCount ≤ length items)%nat →
  ∀ a b x y, (a < b < Z.to_nat itemCount)%nat →
    bubbleSort outOfOrder items itemCount !! a = Some x →
    bubbleSort outOfOrder items itemCount !! b = Some y →
    outOfOrder x y = false.
Proof.
  intros Hlen. unfold bubbleSort. set (n := Z.to_nat itemCount) in *.
  assert (Hinv :
    length (for_loop 0 (n - 1) (λ i items0,
              for_loop 0 (n - i - 1) (bubbleStep outOfOrder) items0) items)
      = length items ∧
    ∀ a b x y, (a < b)%nat → (n - (n - 1) ≤ b < n)%nat →
      for_loop 0 (n - 1) (λ i items0,
        for_loop 0 (n - i - 1) (bubbleStep outOfOrder) items0) items !! a = Some x →
      for_loop 0 (n - 1) (λ i items0,
        for_loop 0 (n - i - 1) (bubbleStep outOfOrder) items0) items !! b = Some y →
      outOfOrder x y = false).
  { refine (for_loop_inv (λ i (cur : list Item),
      length cur = length items ∧
      ∀ a b x y, (a < b)%nat → (n - i ≤ b < n)%nat →
        cur !! a = Some x → cur !! b = Some y → outOfOrder x y = false)
      0 (n - 1)%nat _ items _ _ _).
    - lia.
    - split; [done|]. intros; lia.
    - intros i cur Hi [Hcl Hdone].
      destruct (bubblePass_spec (n - i - 1) cur) as (Hl & Hafter & Hfrom & Hmax);
        [lia|].
      split; [congruence|].
      intros a b x y Hab Hb Hx Hy.
      destruct (decide (b = n - i - 1)%nat) as [->|Hbm].
      + apply (Hmax a x y); [lia|done..].
      + rewrite Hafter in Hy by lia.
        destruct (decide (a ≤ n - i - 1)%nat) as [Ham|Ham].
        * destruct (Hfrom a Ham) as (a' & Ha' & Heq). rewrite Heq in Hx.
          apply (Hdone a' b x y); [lia|lia|done..].
        * rewrite Hafter in Hx by lia.
          apply (Hdone a b x y); [lia|lia|done..]. }
  destruct Hinv as [_ Hinv].
  intros a b x y Hab. apply Hinv; lia.
Qed.
End BubbleOrder.

(** ** Sorting by id, and the key of each sort *)

Lemma idCond_asym (x y : Item) : idCond true x y = true → idCond true y x = false.
Proof. unfold idCond. simpl. rewrite !orb_false_r. lia. Qed.

Lemma idCond_trans (x y z : Item) :
  idCond true x y = false → idCond true y z = false → idCond true x z = false.
Proof. unfold idCond. simpl. rewrite !orb_false_r. lia. Qed.

Lemma NoDup_fmap_elem_inj {A B : Type} (f : A → B) (l : list A) (x y : A) :
  NoDup (f <$> l) → x ∈ l → y ∈ l → f x = f y → x = y.
Proof.
  intros Hnd Hx Hy Hxy.
  apply list_elem_of_lookup in Hx as [i Hi]. apply list_elem_of_lookup in Hy as [j Hj].
  assert (i = j) as ->; [|congruence].
  apply (NoDup_lookup _ i j (f x) Hnd); rewrite list_lookup_fmap.
  - by rewrite Hi.
  - rewrite Hj. simpl. by rewrite Hxy.
Qed.

(** After [sortByID] ascending the live records are in non-decreasing id
    order and are the records that were live before. *)
Lemma sortByID_sorted (items : list Item) (itemCount : Z) :
  (Z.to_nat itemCount ≤ length items)%nat →
  StronglySorted (λ x y, id x ≤ id y) (live (sortByID items itemCount true) itemCount) ∧
  live (sortByID items itemCount true) itemCount ≡ₚ live items itemCount.
Proof.
  intros Hlen. split.
  - apply StronglySorted_lookup_2. intros a b x y Hab Ha Hb. unfold live in *.
    apply lookup_take_Some in Ha as [Ha Han]. apply lookup_take_Some in Hb as [Hb Hbn].
    pose proof (bubbleSort_in_order (idCond true) idCond_asym idCond_trans
                  items itemCount Hlen a b x y ltac:(lia) Ha Hb) as Hord.
    unfold idCond in Hord. simpl in Hord. rewrite orb_false_r in Hord. lia.
  - apply (swaps_perm (idCond true)). apply bubbleSort_swaps.
Qed.

(** With unique ids, the result of [sortByID] ascending depends only on
    which records are live, not on their order. *)
Lemma sortByID_canonical (items items' : list Item) (itemCount : Z) :
  (Z.to_nat itemCount ≤ length items)%nat →
  (Z.to_nat itemCount ≤ length items')%nat →
  live items' itemCount ≡ₚ live items itemCount →
  unique_ids items itemCount →
  live (sortByID items' itemCount true) itemCount =
  live (sortByID items itemCount true) itemCount.
Proof.
  intros Hlen Hlen' Hperm Hu.
  destruct (sortByID_sorted items itemCount Hlen) as [Hs Hp].
  destruct (sortByID_sorted items' itemCount Hlen') as [Hs' Hp'].
  apply (StronglySorted_unique_strong (λ x y, id x ≤ id y)); [|done|done|].
  - intros x1 x2 Hx1 Hx2 H12 H21.
    apply (NoDup_fmap_elem_inj id (live items itemCount)); [exact Hu| | |lia].
    + by rewrite <- Hperm, <- Hp'.
    + by rewrite <- Hp.
  - by rewrite Hp', Hperm, Hp.
Qed.

Lemma sortByID_strict (items : list Item) (itemCount : Z) :
  (Z.to_nat itemCount ≤ length items)%nat →
  unique_ids items itemCount →
  StronglySorted (λ x y, id x < id y) (live (sortByID items itemCount true) itemCount).
Proof.
  intros Hlen Hu. destruct (sortByID_sorted items itemCount Hlen) as [Hs Hp].
  assert (Hnd : NoDup (id <$> live (sortByID items itemCount true) itemCount)).
  { unfold unique_ids in Hu. by rewrite Hp. }
  revert Hs Hnd. generalize (live (sortByID items itemCount true) itemCount) as l.
  induction l as [|z l IH]; intros Hs Hnd; [constructor|].
  apply StronglySorted_inv in Hs as [Hs Hz].
  rewrite fmap_cons in Hnd. apply NoDup_cons in Hnd as [Hzl Hnd].
  constructor; [by apply IH|].
  rewrite Forall_forall in Hz |- *. intros y Hy.
  assert (id z ≠ id y).
  { intros Heq. apply Hzl. rewrite Heq. apply list_elem_of_fmap. eauto. }
  specialize (Hz y Hy). simpl in Hz. lia.
Qed.

Lemma string_compare_refl (s : string) : String.compare s s = Eq.
Proof.
  induction s as [|a s IH]; simpl; [reflexivity|].
  unfold Ascii.compare. by rewrite N.compare_refl.
Qed.

(** A swap condition only holds between records whose keys differ. *)
Lemma swapCond_strict (k : SortKey) (flag : bool) (x y : Item) :
  swapCond k flag x y = true → sortKey k x ≠ sortKey k y.
Proof.
  destruct k; simpl;
    unfold idCond, nameCond, categoryCond, dateCond, statusCond,
           string_gt, string_lt, strcmp;
    intros Hc Heq; injection Heq as Heq;
    rewrite Heq in Hc; rewrite ?string_compare_refl in Hc;
    destruct flag; simpl in Hc; try discriminate; try lia;
    rewrite ?orb_false_r in Hc;
    try (apply bool_decide_eq_true in Hc; discriminate).
Qed.

Lemma sortBy_bubbleSort (k : SortKey) (flag : bool) (items : list Item) (itemCount : Z) :
  sortBy k flag items itemCount = bubbleSort (swapCond k flag) items itemCount.
Proof. by destruct k. Qed.

(** C6: each of the five sorts, in either direction, is a series of
    exchanges of neighbours for which its strict condition holds, a
    condition that never holds between equal keys; hence for every key value
    the records carrying it keep their relative order.  With unique ids,
    sorting by id ascending after any sort gives the same sequence as sorting
    the original store by id ascending: the live records in strictly
    increasing id order. *)
Theorem sort_stable_and_canonical (k : SortKey) (flag : bool)
    (items : list Item) (itemCount : Z) :
  (Z.to_nat itemCount ≤ length items)%nat →
  rtc (adjacent_swap (swapCond k flag) (Z.to_nat itemCount))
      items (sortBy k flag items itemCount) ∧
  (∀ x y, swapCond k flag x y = true → sortKey k x ≠ sortKey k y) ∧
  (∀ v, filter (λ x, sortKey k x = v) (live (sortBy k flag items itemCount) itemCount) =
        filter (λ x, sortKey k x = v) (live items itemCount)) ∧
  (unique_ids items itemCount →
     live (sortByID (sortBy k flag items itemCount) itemCount true) itemCount =
       live (sortByID items itemCount true) itemCount ∧
     StronglySorted (λ x y, id x < id y)
       (live (sortByID items itemCount true) itemCount) ∧
     live (sortByID items itemCount true) itemCount ≡ₚ live items itemCount).
Proof.
  intros Hlen. rewrite sortBy_bubbleSort.
  pose proof (bubbleSort_swaps (swapCond k flag) items itemCount) as Hswaps.
  split; [exact Hswaps|]. split; [apply swapCond_strict|]. split.
  - intros v. unfold live.
    apply (swaps_filter (swapCond k flag) (λ x, sortKey k x = v)); [|exact Hswaps].
    intros x y Hxy [Hx Hy]. apply (swapCond_strict k flag x y Hxy). congruence.
  - intros Hu. destruct (swaps_perm _ _ _ _ Hswaps) as (Hp & _ & Hl).
    split; [|split].
    + apply sortByID_canonical; [done|lia|exact Hp|done].
    + by apply sortByID_strict.
    + by apply sortByID_sorted.
Qed.

(** ** Bytes and integers *)

Lemma Z_of_byte_range (b : byte) : 0 ≤ Z_of_byte b < 256.
Proof.
  unfold Z_of_byte. pose proof (Byte.to_N_bounded b). lia.
Qed.

Lemma Z_of_byte_of_Z (z : Z) : Z_of_byte (byte_of_Z z) = z mod 256.
Proof.
  unfold Z_of_byte, byte_of_Z.
  pose proof (Z.mod_pos_bound z 256 ltac:(lia)) as Hb.
  destruct (Byte.of_N (Z.to_N (z mod 256))) as [b|] eqn:Hof; simpl.
  - apply Byte.to_of_N in Hof. rewrite Hof. lia.
  - apply Byte.of_N_None_iff in Hof. lia.
Qed.

Lemma le_bytes_length (n : nat) (z : Z) : length (le_bytes n z) = n.
Proof. revert z. induction n as [|n IH]; intros z; simpl; [done|]. by rewrite IH. Qed.

Lemma le_value_bytes (n : nat) (z : Z) :
  le_value (le_bytes n z) = z mod 256 ^ Z.of_nat n.
Proof.
  revert z. induction n as [|n IH]; intros z.
  - simpl. by rewrite Z.mod_1_r.
  - cbn [le_bytes le_value]. rewrite Z_of_byte_of_Z, IH.
    rewrite Nat2Z.inj_succ, Z.pow_succ_r by lia.
    rewrite Z.rem_mul_r by lia. reflexivity.
Qed.

Lemma int_wrap_small (z : Z) : int_range z → int_wrap z = z.
Proof.
  unfold int_range, INT_MIN, INT_MAX, int_wrap. intros Hz.
  rewrite Z.mod_small by lia. lia.
Qed.

Lemma int_of_bytes_write (v : Z) : int_range v → int_of_bytes (write_int v) = v.
Proof.
  intros Hv. unfold int_of_bytes, write_int, sizeof_int. rewrite le_value_bytes.
  change (256 ^ Z.of_nat 4) with 4294967296.
  unfold int_wrap. rewrite Z.add_mod_idemp_l by lia.
  fold (int_wrap v). by apply int_wrap_small.
Qed.

(** ** Reading back what was written *)

Lemma read_bytes_app (bs rest : list byte) (n : nat) :
  n = length bs → read_bytes n (bs ++ rest) = Some (bs, rest).
Proof.
  intros ->. unfold read_bytes.
  rewrite length_app. destruct (Nat.leb_spec (length bs) (length bs + length rest)); [|lia].
  by rewrite take_app_length, drop_app_length.
Qed.

Lemma bind_read_int {B : Type} (k : Z → Reader B) (v : Z) (rest : list byte) :
  int_range v → bind read_int k (write_int v ++ rest) = k v rest.
Proof.
  intros Hv. unfold read_int, bind at 1 2, ret.
  rewrite read_bytes_app by (unfold write_int; by rewrite le_bytes_length).
  by rewrite int_of_bytes_write.
Qed.

Lemma length_list_byte_of_string (s : string) :
  length (String.list_byte_of_string s) = String.length s.
Proof.
  unfold String.list_byte_of_string. rewrite length_map.
  induction s as [|a s IH]; simpl; [done|]. by rewrite IH.
Qed.

Lemma bind_read_string {B : Type} (k : string → Reader B) (s : string) (rest : list byte) :
  size_range s → bind read_string k (write_string s ++ rest) = k s rest.
Proof.
  unfold size_range. intros Hs.
  unfold read_string, read_size, write_string, write_size, bind, ret.
  rewrite <- app_assoc.
  rewrite read_bytes_app by (by rewrite le_bytes_length).
  rewrite le_value_bytes, Z.mod_small by lia. rewrite Nat2Z.id.
  rewrite read_bytes_app by (by rewrite length_list_byte_of_string).
  by rewrite String.string_of_list_byte_of_string.
Qed.

Lemma bind_read_date {B : Type} (k : string → Reader B) (d : string) (rest : list byte) :
  String.length d = sizeof_date →
  bind read_date k (String.list_byte_of_string d ++ rest) = k d rest.
Proof.
  intros Hd. unfold read_date, bind, ret.
  rewrite read_bytes_app by (by rewrite length_list_byte_of_string).
  by rewrite String.string_of_list_byte_of_string.
Qed.

Lemma read_item_write (it : Item) (rest : list byte) :
  storable_item it → read_item (write_item it ++ rest) = Some (it, rest).
Proof.
  intros (Hid & Hm & Hc & Hmi & Hd & Hn & Hcat & Hdesc & Hloc & Hst & Hpn & Hpc).
  unfold read_item, write_item. rewrite <- !app_assoc.
  rewrite bind_read_int by done.
  rewrite !bind_read_string by done.
  rewrite bind_read_date by done.
  rewrite !bind_read_string by done.
  rewrite !bind_read_int by done.
  rewrite !bind_read_string by done.
  unfold ret. by destruct it.
Qed.

Lemma encode_records (items : list Item) (n : nat) :
  (n ≤ length items)%nat →
  for_loop 0 n (λ i out,
    match items !! i with
    | Some it => out ++ write_item it
    | None => out
    end) [] = take n items ≫= write_item.
Proof.
  intros Hn.
  refine (for_loop_inv (λ k (out : list byte), out = take k items ≫= write_item)
            0 n _ [] _ _ _); [lia|done|].
  intros k out Hk ->.
  destruct (lookup_lt_is_Some_2 items k) as [it Hit]; [lia|].
  rewrite Hit, (take_S_r _ _ _ Hit), bind_app. simpl. by rewrite app_nil_r.
Qed.

Lemma read_items_written (recs : list Item) (i : nat) (items0 : list Item)
    (rest : list byte) :
  Forall storable_item recs →
  (i + length recs ≤ length items0)%nat →
  read_items i (length recs) items0 ((recs ≫= write_item) ++ rest) =
  Some (take i items0 ++ recs ++ drop (i + length recs) items0, rest).
Proof.
  revert i items0. induction recs as [|r recs IH]; intros i items0 Hvalid Hlen.
  - simpl. unfold ret. rewrite Nat.add_0_r. by rewrite take_drop.
  - apply Forall_cons in Hvalid as [Hr Hvalid]. simpl in Hlen.
    cbn [read_items length]. rewrite bind_cons, <- app_assoc.
    unfold bind at 1. rewrite read_item_write by done.
    rewrite IH; [|done|rewrite length_insert; lia].
    do 2 f_equal.
    rewrite (take_S_r _ _ r) by (apply list_lookup_insert_eq; lia).
    rewrite take_insert_ge by lia. rewrite drop_insert_lt by lia.
    rewrite <- app_assoc. simpl. do 3 f_equal.
    by rewrite Nat.add_succ_r.
Qed.

Lemma read_header_written (nid cnt : Z) (rest : list byte) :
  int_range nid → int_range cnt →
  read_header (write_int nid ++ write_int cnt ++ rest) = Some ((nid, cnt), rest).
Proof.
  intros Hn Hc. unfold read_header.
  rewrite bind_read_int by done. by rewrite bind_read_int by done.
Qed.

(** ** Growing the array on load *)

Lemma growCapacity_grows (fuel : nat) (c n : Z) (k : nat) :
  0 < c → (k < fuel)%nat →
  n ≤ c * 2 ^ Z.of_nat k → c * 2 ^ Z.of_nat k ≤ INT_MAX →
  ∃ c', growCapacity fuel c n = Some c' ∧ n ≤ c' ∧ c ≤ c' ∧ c' ≤ INT_MAX.
Proof.
  revert fuel c. induction k as [|k IH]; intros fuel c Hc Hk Hn Hmax.
  - rewrite Z.pow_0_r, Z.mul_1_r in *. exists c.
    destruct fuel; simpl; destruct (Z.ltb_spec c n); try lia; done.
  - rewrite Nat2Z.inj_succ, Z.pow_succ_r in * by lia.
    assert (0 < 2 ^ Z.of_nat k) by (apply Z.pow_pos_nonneg; lia).
    destruct fuel as [|fuel]; [lia|]. simpl.
    destruct (Z.ltb_spec c n) as [Hlt|Hge].
    + assert (Hw : int_wrap (c * 2) = c * 2).
      { apply int_wrap_small. unfold int_range, INT_MIN. nia. }
      rewrite Hw.
      destruct (IH fuel (c * 2)) as (c' & Hg & H1 & H2 & H3); [lia|lia|nia|nia|].
      exists c'. repeat split; try done. lia.
    + exists c. repeat split; try done; try lia. nia.
Qed.

(** The loop gives no result exactly when it cannot stop. *)
Lemma growCapacity_zero (fuel : nat) (n : Z) :
  0 < n → growCapacity fuel 0 n = None.
Proof.
  intros Hn. induction fuel as [|fuel IH]; simpl;
    destruct (Z.ltb_spec 0 n); try lia; done.
Qed.

Lemma growCapacity_result (fuel : nat) (c n c' : Z) :
  growCapacity fuel c n = Some c' → n ≤ c'.
Proof.
  revert c. induction fuel as [|fuel IH]; intros c; simpl;
    destruct (Z.ltb_spec c n); try discriminate; try (intros [= <-]; lia).
  apply IH.
Qed.

(** ** What a successful read has consumed *)

Lemma byte_of_Z_of_byte (b : byte) : byte_of_Z (Z_of_byte b) = b.
Proof.
  unfold byte_of_Z. pose proof (Z_of_byte_range b) as Hb.
  rewrite Z.mod_small by lia. unfold Z_of_byte. rewrite N2Z.id.
  by rewrite Byte.of_to_N.
Qed.

Lemma le_value_range (bs : list byte) : 0 ≤ le_value bs < 256 ^ Z.of_nat (length bs).
Proof.
  induction bs as [|b bs IH].
  - simpl. lia.
  - cbn [le_value length]. rewrite Nat2Z.inj_succ, Z.pow_succ_r by lia.
    pose proof (Z_of_byte_range b). lia.
Qed.

Lemma le_bytes_value (bs : list byte) : le_bytes (length bs) (le_value bs) = bs.
Proof.
  induction bs as [|b bs IH]; [reflexivity|].
  cbn [le_bytes le_value length]. pose proof (Z_of_byte_range b) as Hb.
  assert (Hq : (Z_of_byte b + 256 * le_value bs) / 256 = le_value bs).
  { symmetry. apply (Z.div_unique _ _ _ (Z_of_byte b)); lia. }
  assert (Hr : byte_of_Z (Z_of_byte b + 256 * le_value bs) = b).
  { rewrite <- (byte_of_Z_of_byte b) at 2. unfold byte_of_Z. do 3 f_equal.
    rewrite (Z.mul_comm 256), Z.mod_add by lia. reflexivity. }
  by rewrite Hq, Hr, IH.
Qed.

Lemma le_bytes_mod (n : nat) (z : Z) : le_bytes n (z mod 256 ^ Z.of_nat n) = le_bytes n z.
Proof.
  revert z. induction n as [|n IH]; intros z; [reflexivity|].
  cbn [le_bytes]. rewrite Nat2Z.inj_succ, Z.pow_succ_r by lia.
  assert (0 < 256 ^ Z.of_nat n) by (apply Z.pow_pos_nonneg; lia).
  rewrite Z.rem_mul_r by lia.
  pose proof (Z.mod_pos_bound z 256 ltac:(lia)) as Hb.
  assert (Hq : (z mod 256 + 256 * ((z / 256) mod 256 ^ Z.of_nat n)) / 256
               = (z / 256) mod 256 ^ Z.of_nat n).
  { symmetry. apply (Z.div_unique _ _ _ (z mod 256)); lia. }
  rewrite Hq, IH. f_equal.
  unfold byte_of_Z. do 3 f_equal.
  rewrite (Z.mul_comm 256), Z.mod_add by lia. by rewrite Z.mod_mod by lia.
Qed.

Lemma write_int_of_bytes (bs : list byte) :
  length bs = sizeof_int → write_int (int_of_bytes bs) = bs ∧ int_range (int_of_bytes bs).
Proof.
  intros Hlen. unfold write_int, int_of_bytes. split.
  - rewrite <- (le_bytes_value bs) at 2. rewrite Hlen.
    rewrite <- (le_bytes_mod _ (int_wrap _)), <- (le_bytes_mod _ (le_value bs)).
    f_equal. unfold int_wrap, sizeof_int.
    change (256 ^ Z.of_nat 4) with 4294967296.
    rewrite Zminus_mod, Z.mod_mod by lia.
    rewrite <- Zminus_mod. f_equal. lia.
  - unfold int_range, int_wrap, INT_MIN, INT_MAX.
    pose proof (Z.mod_pos_bound (le_value bs + 2147483648) 4294967296 ltac:(lia)). lia.
Qed.

Lemma read_bytes_Some (n : nat) (s bs s' : list byte) :
  read_bytes n s = Some (bs, s') → s = bs ++ s' ∧ length bs = n.
Proof.
  unfold read_bytes. destruct (Nat.leb_spec n (length s)); [|discriminate].
  intros [= <- <-]. rewrite take_drop. split; [done|]. by apply length_take_le.
Qed.

Lemma bind_Some {A B : Type} (m : Reader A) (k : A → Reader B) (s : list byte)
    (b : B) (s'' : list byte) :
  bind m k s = Some (b, s'') → ∃ a s', m s = Some (a, s') ∧ k a s' = Some (b, s'').
Proof.
  unfold bind. destruct (m s) as [[a s']|]; [|discriminate]. eauto.
Qed.

Lemma read_int_Some (s : list byte) (v : Z) (s' : list byte) :
  read_int s = Some (v, s') → s = write_int v ++ s' ∧ int_range v.
Proof.
  unfold read_int. intros H. apply bind_Some in H as (bs & s1 & Hr & Hk).
  injection Hk as <- <-. apply read_bytes_Some in Hr as [-> Hlen].
  destruct (write_int_of_bytes bs Hlen) as [-> Hrange]. done.
Qed.

Lemma read_string_Some (s : list byte) (str : string) (s' : list byte) :
  read_string s = Some (str, s') → s = write_string str ++ s' ∧ size_range str.
Proof.
  unfold read_string, read_size. intros H.
  apply bind_Some in H as (len & s1 & Hlen & H).
  apply bind_Some in Hlen as (b8 & s0 & Hb8 & Hret). injection Hret as <- <-.
  apply bind_Some in H as (buffer & s2 & Hbuf & Hret). injection Hret as <- <-.
  apply read_bytes_Some in Hb8 as [-> Hl8]. apply read_bytes_Some in Hbuf as [-> Hlb].
  pose proof (le_value_range b8) as Hv. rewrite Hl8 in Hv.
  assert (Hsl : String.length (String.string_of_list_byte buffer) = length buffer).
  { rewrite <- length_list_byte_of_string.
    by rewrite String.list_byte_of_string_of_list_byte. }
  split.
  - unfold write_string, write_size. rewrite Hsl, Hlb, Z2Nat.id by lia.
    rewrite <- Hl8, le_bytes_value, String.list_byte_of_string_of_list_byte.
    by rewrite <- app_assoc.
  - unfold size_range. rewrite Hsl, Hlb. lia.
Qed.

Lemma read_date_Some (s : list byte) (d : string) (s' : list byte) :
  read_date s = Some (d, s') →
  s = String.list_byte_of_string d ++ s' ∧ String.length d = sizeof_date.
Proof.
  unfold read_date. intros H. apply bind_Some in H as (bs & s1 & Hr & Hk).
  injection Hk as <- <-. apply read_bytes_Some in Hr as [-> Hlen].
  rewrite String.list_byte_of_string_of_list_byte. split; [done|].
  rewrite <- length_list_byte_of_string.
  by rewrite String.list_byte_of_string_of_list_byte.
Qed.

Lemma read_item_Some (s : list byte) (it : Item) (s' : list byte) :
  read_item s = Some (it, s') → s = write_item it ++ s' ∧ storable_item it.
Proof.
  unfold read_item. intros H.
  apply bind_Some in H as (v1 & s1 & H1 & H). apply read_int_Some in H1 as [-> R1].
  apply bind_Some in H as (v2 & s2 & H2 & H). apply read_string_Some in H2 as [-> R2].
  apply bind_Some in H as (v3 & s3 & H3 & H). apply read_string_Some in H3 as [-> R3].
  apply bind_Some in H as (v4 & s4 & H4 & H). apply read_string_Some in H4 as [-> R4].
  apply bind_Some in H as (v5 & s5 & H5 & H). apply read_date_Some in H5 as [-> R5].
  apply bind_Some in H as (v6 & s6 & H6 & H). apply read_string_Some in H6 as [-> R6].
  apply bind_Some in H as (v7 & s7 & H7 & H). apply read_string_Some in H7 as [-> R7].
  apply bind_Some in H as (v8 & s8 & H8 & H). apply read_int_Some in H8 as [-> R8].
  apply bind_Some in H as (v9 & s9 & H9 & H). apply read_int_Some in H9 as [-> R9].
  apply bind_Some in H as (v10 & s10 & H10 & H). apply read_int_Some in H10 as [-> R10].
  apply bind_Some in H as (v11 & s11 & H11 & H). apply read_string_Some in H11 as [-> R11].
  apply bind_Some in H as (v12 & s12 & H12 & H). apply read_string_Some in H12 as [-> R12].
  unfold ret in H. injection H as <- <-. split.
  - unfold write_item.
    cbn [id name category description date location status matched claimed
         matchedItemID personName personContact].
    by rewrite <- !app_assoc.
  - unfold storable_item.
    cbn [id name category description date location status matched claimed
         matchedItemID personName personContact].
    unfold int_range in *. repeat split; (done || lia).
Qed.

Lemma read_items_Some (i r : nat) (items0 : list Item) (s : list byte)
    (items' : list Item) (s' : list byte) :
  (i + r ≤ length items0)%nat →
  read_items i r items0 s = Some (items', s') →
  ∃ recs, length recs = r ∧ Forall storable_item recs ∧
          s = (recs ≫= write_item) ++ s' ∧
          items' = take i items0 ++ recs ++ drop (i + r) items0.
Proof.
  revert i items0 s. induction r as [|r IH]; intros i items0 s Hlen.
  - simpl. unfold ret. intros [= <- <-]. exists []. repeat split; [constructor|].
    rewrite Nat.add_0_r. simpl. by rewrite take_drop.
  - cbn [read_items]. intros H. apply bind_Some in H as (it & s1 & Hit & H).
    apply read_item_Some in Hit as [-> Hst].
    apply IH in H as (recs & Hl & Hall & -> & ->); [|rewrite length_insert; lia].
    exists (it :: recs). split; [simpl; lia|]. split; [by constructor|].
    split; [by rewrite bind_cons, <- app_assoc|].
    rewrite (take_S_r _ _ it) by (apply list_lookup_insert_eq; lia).
    rewrite take_insert_ge by lia. rewrite drop_insert_lt by lia.
    rewrite <- app_assoc. simpl. do 3 f_equal. by rewrite Nat.add_succ_r.
Qed.

(** ** Loading *)

Lemma read_header_None (bytes : list byte) :
  read_header bytes = None ↔ (length bytes < sizeof_int + sizeof_int)%nat.
Proof.
  unfold read_header, read_int, bind, ret, read_bytes, sizeof_int.
  destruct (Nat.leb_spec 4 (length bytes)) as [H4|H4].
  - rewrite length_drop.
    destruct (Nat.leb_spec 4 (length bytes - 4)) as [H8|H8]; split; try done; lia.
  - split; [lia|done].
Qed.

Lemma read_header_Some (bytes : list byte) (nid cnt : Z) (rest : list byte) :
  read_header bytes = Some ((nid, cnt), rest) →
  bytes = write_int nid ++ write_int cnt ++ rest ∧ int_range nid ∧ int_range cnt.
Proof.
  unfold read_header. intros H.
  apply bind_Some in H as (v1 & s1 & H1 & H). apply read_int_Some in H1 as [-> R1].
  apply bind_Some in H as (v2 & s2 & H2 & H). apply read_int_Some in H2 as [-> R2].
  unfold ret in H. by injection H as <- <- <-.
Qed.

Lemma can_grow_steps (c n : Z) (k : nat) :
  0 < c → c * 2 ^ Z.of_nat k ≤ INT_MAX → (k < 33)%nat.
Proof.
  intros Hc Hk. destruct (decide (k < 33)%nat) as [|Hge]; [done|]. exfalso.
  assert (2 ^ 33 ≤ 2 ^ Z.of_nat k) by (apply Z.pow_le_mono_r; lia).
  unfold INT_MAX in Hk. change (2 ^ 33) with 8589934592 in *. nia.
Qed.

(** The array with which the loading loop starts. *)
Lemma load_array (st : State) (cnt : Z) (items1 : list Item) (capacity1 : Z) :
  0 < capacity st → Z.of_nat (length (items st)) = capacity st →
  (if cnt >? capacity st then
     match growCapacity 33 (capacity st) cnt with
     | Some c => Some (replicate (Z.to_nat c) defaultItem, c)
     | None => None
     end
   else Some (items st, capacity st)) = Some (items1, capacity1) →
  cnt ≤ capacity1 ∧ Z.of_nat (length items1) = capacity1.
Proof.
  intros Hc Hlen. destruct (Z.gtb_spec cnt (capacity st)) as [Hgt|Hle].
  - destruct (growCapacity 33 (capacity st) cnt) as [c|] eqn:Hg; [|discriminate].
    intros [= <- <-]. apply growCapacity_result in Hg.
    rewrite length_replicate. lia.
  - intros [= <- <-]. lia.
Qed.

Lemma load_array_Some (st : State) (cnt : Z) :
  0 < capacity st → can_grow (capacity st) cnt →
  ∃ items1 capacity1,
    (if cnt >? capacity st then
       match growCapacity 33 (capacity st) cnt with
       | Some c => Some (replicate (Z.to_nat c) defaultItem, c)
       | None => None
       end
     else Some (items st, capacity st)) = Some (items1, capacity1).
Proof.
  intros Hc [k [Hk1 Hk2]]. destruct (cnt >? capacity st); [|eauto].
  destruct (growCapacity_grows 33 (capacity st) cnt k) as (c' & -> & _);
    [done|by eapply can_grow_steps|done|done|]. eauto.
Qed.

(** Loading a stream that holds [cnt] written records. *)
Lemma loadFromFile_records (st : State) (nid cnt : Z) (recs : list Item) (tail : list byte) :
  0 < capacity st → Z.of_nat (length (items st)) = capacity st →
  fileBytes st = Some (write_int nid ++ write_int cnt ++ (recs ≫= write_item) ++ tail) →
  int_range nid → int_range cnt →
  length recs = Z.to_nat cnt → Forall storable_item recs →
  can_grow (capacity st) cnt →
  ∃ st', loadFromFile st = Some st' ∧
         nextID st' = nid ∧ itemCount st' = cnt ∧
         live (items st') (itemCount st') = recs ∧
         cnt ≤ capacity st' ∧ Z.of_nat (length (items st')) = capacity st' ∧
         fileBytes st' = fileBytes st.
Proof.
  intros Hc Hlen Hfile Hnid Hcnt Hrecs Hvalid Hgrow.
  unfold loadFromFile. rewrite Hfile, read_header_written by done.
  destruct (load_array_Some st cnt Hc Hgrow) as (items1 & capacity1 & Harr).
  rewrite Harr. apply load_array in Harr as [Hcap Hlen1]; [|done..].
  rewrite <- Hrecs, read_items_written by (done || lia).
  eexists. split; [reflexivity|]. simpl.
  repeat split; try done.
  - unfold live. rewrite <- Hrecs. by rewrite take_app_length.
  - rewrite !length_app, length_drop. lia.
Qed.

(** C1: what [saveToFile] writes for a store that fits the C++ types (any
    count, zero included, any nextID), [loadFromFile] reads back: same
    record count, same nextID, and the same live records in the same order. *)
Theorem save_load_roundtrip (src dst : State) :
  storable (items src) (itemCount src) (nextID src) →
  0 < capacity dst → Z.of_nat (length (items dst)) = capacity dst →
  can_grow (capacity dst) (itemCount src) →
  fileBytes dst =
    saveToFile true (items src) (itemCount src) (nextID src) (fileBytes src) →
  ∃ st', loadFromFile dst = Some st' ∧
         itemCount st' = itemCount src ∧
         nextID st' = nextID src ∧
         live (items st') (itemCount st') = live (items src) (itemCount src) ∧
         length (live (items st') (itemCount st')) = Z.to_nat (itemCount src).
Proof.
  intros (Hpos & Hlen & Hcnt & Hnid & Hvalid) Hcap Hdlen Hgrow Hfile.
  simpl in Hfile. unfold encode in Hfile.
  rewrite encode_records in Hfile by done.
  rewrite <- (app_nil_r (take _ _ ≫= _)) in Hfile.
  destruct (loadFromFile_records dst (nextID src) (itemCount src)
              (take (Z.to_nat (itemCount src)) (items src)) [])
    as (st' & Hload & Hn & Hc & Hlive & _); try done.
  { by apply length_take_le. }
  exists st'. repeat split; try done.
  rewrite Hlive. by apply length_take_le.
Qed.

Lemma exampleItems_storable : storable exampleItems 2 102.
Proof.
  unfold storable, int_range, INT_MIN, INT_MAX.
  split; [lia|]. split; [simpl; lia|]. split; [lia|]. split; [lia|].
  unfold live, exampleItems. simpl.
  repeat (apply Forall_cons; split;
          [unfold storable_item, int_range, size_range, INT_MIN, INT_MAX; simpl;
           repeat split; try lia; reflexivity|]).
  apply Forall_nil. exact I.
Qed.

(** Saving the wallet scenario and starting the program again. *)
Lemma save_load_roundtrip_witness :
  ∃ st', loadFromFile
           (initialState (saveToFile true exampleItems 2 102 None)) = Some st' ∧
         itemCount st' = itemCount exampleState ∧
         nextID st' = nextID exampleState ∧
         live (items st') (itemCount st') =
           live (items exampleState) (itemCount exampleState) ∧
         length (live (items st') (itemCount st')) = Z.to_nat (itemCount exampleState).
Proof.
  apply (save_load_roundtrip exampleState
           (initialState (saveToFile true exampleItems 2 102 None))).
  - exact exampleItems_storable.
  - simpl. lia.
  - reflexivity.
  - exists 0%nat. unfold INT_MAX. simpl. lia.
  - reflexivity.
Defined.



(** ** The scenario of the specification, on the properties above *)

Lemma matchedState_valid :
  Forall valid_flags (live (items matchedState) (itemCount matchedState)).
Proof.
  unfold live. simpl.
  apply Forall_cons. split; [unfold valid_flags; simpl; auto|].
  apply Forall_cons. split; [unfold valid_flags; simpl; auto|].
  apply Forall_nil. exact I.
Qed.

(** Claiming 100 once the wallets are matched. *)
Lemma markAsClaimed_precondition_witness :
  (¬ (matched walletLostMatched = 1 ∧ claimed walletLostMatched = 0) →
     ∃ o, o ≠ ClaimDone ∧ markAsClaimed true 100 matchedState = (matchedState, o)) ∧
  (matched walletLostMatched = 1 ∧ claimed walletLostMatched = 0 →
     snd (markAsClaimed true 100 matchedState) = ClaimDone) ∧
  (∀ st', markAsClaimed true 100 matchedState = (st', ClaimDone) →
     (∃ t', items st' !! 0%nat = Some t' ∧ id t' = id walletLostMatched ∧ claimed t' = 1) ∧
     (∀ q, matchedItemID walletLostMatched ≠ -1 →
           getItemByID (items matchedState) (itemCount matchedState)
             (matchedItemID walletLostMatched) = Some q →
           ∃ c', items st' !! q = Some c' ∧ id c' = matchedItemID walletLostMatched ∧
                 claimed c' = 1)).
Proof.
  apply (markAsClaimed_precondition true matchedState 100 0 walletLostMatched).
  - exact matchedState_valid.
  - reflexivity.
  - reflexivity.
Defined.

(** Sorting the two wallets by name. *)
Lemma sort_stable_and_canonical_witness :
  rtc (adjacent_swap (swapCond ByName true) (Z.to_nat 2))
      exampleItems (sortBy ByName true exampleItems 2) ∧
  (∀ x y, swapCond ByName true x y = true → sortKey ByName x ≠ sortKey ByName y) ∧
  (∀ v, filter (λ x, sortKey ByName x = v) (live (sortBy ByName true exampleItems 2) 2) =
        filter (λ x, sortKey ByName x = v) (live exampleItems 2)) ∧
  (unique_ids exampleItems 2 →
     live (sortByID (sortBy ByName true exampleItems 2) 2 true) 2 =
       live (sortByID exampleItems 2 true) 2 ∧
     StronglySorted (λ x y, id x < id y) (live (sortByID exampleItems 2 true) 2) ∧
     live (sortByID exampleItems 2 true) 2 ≡ₚ live exampleItems 2).
Proof.
  apply (sort_stable_and_canonical ByName true exampleItems 2).
  simpl. lia.
Defined.

(** Deleting the lost wallet, the first of the two records. *)
Lemma deleteItem_preserves_order_witness :
  ∃ st', deleteItem true (id walletLost) true exampleState = (st', Deleted) ∧
    itemCount st' = itemCount exampleState - 1 ∧
    nextID st' = nextID exampleState ∧
    live (items st') (itemCount st') =
      delete 0%nat (live (items exampleState) (itemCount exampleState)) ∧
    (∀ j, (j < 0)%nat →
          live (items st') (itemCount st') !! j =
          live (items exampleState) (itemCount exampleState) !! j) ∧
    (∀ j, (0 ≤ j)%nat →
          live (items st') (itemCount st') !! j =
          live (items exampleState) (itemCount exampleState) !! S j) ∧
    length (live (items st') (itemCount st')) =
      (length (live (items exampleState) (itemCount exampleState)) - 1)%nat.
Proof.
  apply (deleteItem_preserves_order true exampleState 0 walletLost).
  - simpl. lia.
  - simpl. lia.
  - reflexivity.
  - intros j it Hj. lia.
Defined.

(** ** Sessions: what every command keeps *)

Lemma arr_inv_same_ids (items items' : list Item) (n nid : Z) :
  arr_inv items n nid →
  length items' = length items →
  id <$> live items' n = id <$> live items n →
  Forall storable_item (live items' n) →
  arr_inv items' n nid.
Proof.
  intros (H0 & Hlen & _ & Hu & Hlt) Hl Hids Hst.
  unfold arr_inv, unique_ids in *. rewrite Hl, Hids.
  repeat split; try done.
  pose proof (proj2 (Forall_fmap id (λ v, v < nid) (live items n)) Hlt) as Hlt'.
  rewrite <- Hids in Hlt'.
  exact (proj1 (Forall_fmap id (λ v, v < nid) (live items' n)) Hlt').
Qed.

Lemma ids_alter (f : Item → Item) (p : nat) (items : list Item) :
  (∀ x, id (f x) = id x) → id <$> alter f p items = id <$> items.
Proof.
  intros Hf. rewrite (list_fmap_alter id f (λ v, v)).
  - by apply list_alter_id.
  - apply Forall_forall. intros x _. apply Hf.
Qed.

Lemma arr_inv_alter (f : Item → Item) (p : nat) (items : list Item) (n nid : Z) :
  (∀ x, id (f x) = id x) →
  (∀ x, items !! p = Some x → (p < Z.to_nat n)%nat → storable_item x → storable_item (f x)) →
  arr_inv items n nid → arr_inv (alter f p items) n nid.
Proof.
  intros Hid Hst Hinv. apply (arr_inv_same_ids items); [done|apply length_alter| |].
  - unfold live. by rewrite !fmap_take, ids_alter.
  - destruct Hinv as (_ & _ & Hall & _). unfold live in *.
    apply Forall_lookup. intros j x Hj.
    apply lookup_take_Some in Hj as [Hj Hjn].
    rewrite Forall_lookup in Hall.
    destruct (decide (p = j)) as [->|Hne].
    + rewrite list_lookup_alter_eq in Hj.
      destruct (items !! j) as [y|] eqn:Hy; [|discriminate].
      injection Hj as <-. apply Hst; [done..|].
      apply (Hall j). by rewrite lookup_take_lt.
    + rewrite list_lookup_alter_ne in Hj by done.
      apply (Hall j). by rewrite lookup_take_lt.
Qed.

Lemma arr_inv_storable (items : list Item) (n nid : Z) (p : nat) (x : Item) :
  arr_inv items n nid → (p < Z.to_nat n)%nat → items !! p = Some x →
  storable_item x ∧ id x < nid.
Proof.
  intros (_ & _ & Hst & _ & Hlt) Hp Hx. unfold live in *.
  rewrite Forall_lookup in Hst, Hlt. split.
  - apply (Hst p). by rewrite lookup_take_lt.
  - apply (Hlt p x). by rewrite lookup_take_lt.
Qed.

Lemma string_length_append (a b : string) :
  String.length (a +:+ b) = (String.length a + String.length b)%nat.
Proof. induction a as [|c a IH]; simpl; [done|]. by rewrite IH. Qed.

Lemma strncpy_length (n : nat) (src : string) : String.length (strncpy n src) = n.
Proof.
  revert src. induction n as [|n IH]; intros src; [reflexivity|].
  destruct src as [|c s]; simpl; [by rewrite IH|].
  destruct (Ascii.eqb c zero); simpl; by rewrite IH.
Qed.

Lemma dateBuffer_length (temp : string) : String.length (dateBuffer temp) = sizeof_date.
Proof.
  unfold dateBuffer. by rewrite string_length_append, strncpy_length.
Qed.

Lemma applyEdit_id (it : Item) (e : Edit) : id (applyEdit it e) = id it.
Proof. by destruct e. Qed.

Lemma applyEdit_storable (it : Item) (e : Edit) :
  edit_ok e → storable_item it → storable_item (applyEdit it e).
Proof.
  unfold storable_item.
  intros He (H1 & H2 & H3 & H4 & H5 & H6 & H7 & H8 & H9 & H10 & H11 & H12).
  destruct e; simpl in *; unfold input_ok in *;
    intuition (auto using dateBuffer_length).
Qed.

Lemma applyEdits_id (edits : list Edit) (it : Item) : id (foldl applyEdit it edits) = id it.
Proof.
  revert it. induction edits as [|e edits IH]; intros it; simpl; [done|].
  by rewrite IH, applyEdit_id.
Qed.

Lemma applyEdits_storable (edits : list Edit) (it : Item) :
  Forall edit_ok edits → storable_item it → storable_item (foldl applyEdit it edits).
Proof.
  revert it. induction edits as [|e edits IH]; intros it He Hit; simpl; [done|].
  apply Forall_cons in He as [He Hes]. apply IH; [done|]. by apply applyEdit_storable.
Qed.

Lemma set_claimed_storable (it : Item) : storable_item it → storable_item (set_claimed 1 it).
Proof.
  unfold storable_item, int_range, INT_MIN, INT_MAX. simpl. intuition lia.
Qed.

Lemma set_matched_storable (it : Item) : storable_item it → storable_item (set_matched 1 it).
Proof.
  unfold storable_item, int_range, INT_MIN, INT_MAX. simpl. intuition lia.
Qed.

Lemma set_matchedItemID_storable (v : Z) (it : Item) :
  int_range v → storable_item it → storable_item (set_matchedItemID v it).
Proof.
  unfold storable_item, int_range, INT_MIN, INT_MAX. simpl. intuition lia.
Qed.

Lemma mem_inv_can_grow (st : State) : mem_inv st → can_grow 10 (itemCount st).
Proof.
  intros ((_ & Hlen & _) & _ & Hcap & [j Hj] & Hmax).
  exists j. rewrite <- Hj. split; lia.
Qed.

Lemma saveToFile_ok (canWrite : bool) (st : State) (file : option (list byte)) :
  mem_inv st → disk_ok file →
  disk_ok (saveToFile canWrite (items st) (itemCount st) (nextID st) file).
Proof.
  intros Hm Hd. destruct canWrite; simpl; [|done].
  right. right. exists (items st), (itemCount st), (nextID st).
  split; [done|]. destruct Hm as (Harr & Hnid & Hrest).
  split; [done|]. split; [done|]. by apply mem_inv_can_grow.
Qed.

(** A command that rewrites slots in place and saves. *)
Lemma Inv_new_items (canWrite : bool) (st : State) (items' : list Item) :
  Inv st →
  arr_inv items' (itemCount st) (nextID st) →
  length items' = length (items st) →
  Inv (mkState items' (itemCount st) (capacity st) (nextID st)
         (saveToFile canWrite items' (itemCount st) (nextID st) (fileBytes st))).
Proof.
  intros [(Harr & Hnid & Hcap & Hj & Hmax) Hd] Harr' Hlen.
  assert (Hm : mem_inv (mkState items' (itemCount st) (capacity st) (nextID st)
                          (fileBytes st))).
  { unfold mem_inv. simpl. rewrite Hlen. done. }
  split; [exact Hm|]. simpl. by apply (saveToFile_ok canWrite _ _ Hm).
Qed.

Lemma updateItem_inv (canWrite : bool) (idQ : Z) (edits : list Edit) (st : State) :
  Inv st → Forall edit_ok edits →
  Inv (fst (updateItem canWrite idQ edits st)) ∧
  nextID (fst (updateItem canWrite idQ edits st)) = nextID st.
Proof.
  intros HI Hedits. unfold updateItem.
  destruct (itemCount st =? 0); [done|].
  destruct (firstWithID _ _ _ _) as [p|] eqn:Hp; [|done]. simpl.
  split; [|done]. apply Inv_new_items; [done| |apply length_alter].
  apply arr_inv_alter; [apply applyEdits_id| |by destruct HI as [[? _] _]].
  intros x _ _. by apply applyEdits_storable.
Qed.

Lemma markAsClaimed_inv (canWrite : bool) (idQ : Z) (st : State) :
  Inv st →
  Inv (fst (markAsClaimed canWrite idQ st)) ∧
  nextID (fst (markAsClaimed canWrite idQ st)) = nextID st.
Proof.
  intros HI. unfold markAsClaimed.
  destruct (getItemByID _ _ _) as [p|]; [|done].
  destruct (items st !! p) as [item|]; [|done].
  destruct (matched item =? 0); [done|]. destruct (claimed item =? 1); [done|].
  simpl. split; [|done].
  assert (H1 : arr_inv (alter (set_claimed 1) p (items st)) (itemCount st) (nextID st)).
  { apply arr_inv_alter; [done| |by destruct HI as [[? _] _]].
    intros x _ _. apply set_claimed_storable. }
  apply Inv_new_items; [done| |].
  - destruct (negb _); [|done]. destruct (getItemByID _ _ _) as [q|]; [|done].
    apply arr_inv_alter; [done| |done]. intros x _ _. apply set_claimed_storable.
  - destruct (negb _); [|apply length_alter].
    destruct (getItemByID _ _ _) as [q|]; by rewrite ?length_alter.
Qed.

Lemma markAsMatched_inv (p1 p2 : nat) (items : list Item) (n nid : Z) :
  (p1 < Z.to_nat n)%nat → (p2 < Z.to_nat n)%nat →
  arr_inv items n nid →
  arr_inv (markAsMatched p1 p2 items) n nid ∧
  length (markAsMatched p1 p2 items) = length items.
Proof.
  intros Hp1 Hp2 Hinv. unfold markAsMatched.
  set (items1 := alter (set_matched 1) p1 items).
  set (items2 := alter (set_matched 1) p2 items1).
  assert (H1 : arr_inv items1 n nid).
  { apply arr_inv_alter; [done| |done]. intros x _ _. apply set_matched_storable. }
  assert (H2 : arr_inv items2 n nid).
  { apply arr_inv_alter; [done| |done]. intros x _ _. apply set_matched_storable. }
  assert (Hl2 : length items2 = length items).
  { unfold items2, items1. by rewrite !length_alter. }
  set (items3 := match items2 !! p2 with
                 | Some item2 => alter (set_matchedItemID (id item2)) p1 items2
                 | None => items2
                 end).
  assert (H3 : arr_inv items3 n nid ∧ length items3 = length items).
  { unfold items3. destruct (items2 !! p2) as [item2|] eqn:Hi2; [|done].
    split; [|by rewrite length_alter].
    apply arr_inv_alter; [done| |done]. intros x _ _.
    apply set_matchedItemID_storable.
    destruct (arr_inv_storable items2 n nid p2 item2 H2 Hp2 Hi2) as [Hs _].
    apply Hs. }
  destruct H3 as [H3 Hl3].
  destruct (items3 !! p1) as [item1|] eqn:Hi1; [|done].
  split; [|by rewrite length_alter].
  apply arr_inv_alter; [done| |done]. intros x _ _.
  apply set_matchedItemID_storable.
  destruct (arr_inv_storable items3 n nid p1 item1 H3 Hp1 Hi1) as [Hs _].
  apply Hs.
Qed.

Lemma markItemAsMatched_inv (canWrite : bool) (id1 id2 : Z) (st : State) :
  Inv st →
  Inv (fst (markItemAsMatched canWrite id1 id2 st)) ∧
  nextID (fst (markItemAsMatched canWrite id1 id2 st)) = nextID st.
Proof.
  intros HI. unfold markItemAsMatched.
  destruct (itemCount st <? 2); [done|]. destruct (id1 =? id2); [done|].
  destruct (findBoth_spec (items st) (itemCount st) id1 id2) as [Hl1 Hl2].
  destruct (findBoth _ _ _ _) as [[p1|] [p2|]]; try done. simpl in Hl1, Hl2.
  destruct (items st !! p1) as [item1|]; [|done].
  destruct (items st !! p2) as [item2|]; [|done].
  destruct (_ || _); [done|]. destruct (_ || _); [done|]. simpl.
  split; [|done].
  destruct (markAsMatched_inv p1 p2 (items st) (itemCount st) (nextID st))
    as [Harr Hlen];
    [by destruct Hl1|by destruct Hl2|by destruct HI as [[? _] _]|].
  by apply Inv_new_items.
Qed.

Lemma for_loop_pres {S : Type} (P : S → Prop) (lo hi : nat) (body : nat → S → S) (s : S) :
  (∀ i x, P x → P (body i x)) → P s → P (for_loop lo hi body s).
Proof.
  intros Hbody. unfold for_loop. generalize (seq lo (hi - lo)) as l. intros l. revert s.
  induction l as [|a l IH]; intros s Hs; simpl; [done|]. apply IH. by apply Hbody.
Qed.

Lemma Inv_saved (canWrite : bool) (items' : list Item) (n' cap' nid' : Z)
    (file : option (list byte)) :
  mem_inv (mkState items' n' cap' nid' file) → disk_ok file →
  Inv (mkState items' n' cap' nid' (saveToFile canWrite items' n' nid' file)).
Proof.
  intros Hm Hd. split; [exact Hm|]. simpl.
  apply (saveToFile_ok canWrite (mkState items' n' cap' nid' file)); done.
Qed.

Lemma arr_inv_perm (items items' : list Item) (n nid : Z) :
  arr_inv items n nid → length items' = length items →
  live items' n ≡ₚ live items n → arr_inv items' n nid.
Proof.
  intros (H0 & Hlen & Hst & Hu & Hlt) Hl Hp. unfold arr_inv, unique_ids in *.
  rewrite Hl, Hp. done.
Qed.

Lemma shiftDown_length (index : nat) (items : list Item) (itemCount : Z) :
  length (shiftDown index items itemCount) = length items.
Proof.
  unfold shiftDown.
  apply (for_loop_pres (λ cur : list Item, length cur = length items)); [|done].
  intros i cur Hcur. destruct (cur !! (i + 1)%nat); [|done]. by rewrite length_insert.
Qed.

Lemma deleteItem_inv (canWrite : bool) (idQ : Z) (confirm : bool) (st : State) :
  Inv st →
  Inv (fst (deleteItem canWrite idQ confirm st)) ∧
  nextID (fst (deleteItem canWrite idQ confirm st)) = nextID st.
Proof.
  intros HI. unfold deleteItem.
  destruct (itemCount st =? 0); [done|].
  destruct (firstWithID _ _ _ _) as [k|] eqn:Hk; [|done].
  destruct confirm; [|done]. simpl. split; [|done].
  apply firstWithID_Some in Hk as (Hkn & _).
  destruct HI as [((H0 & Hlen & Hst & Hu & Hlt) & Hnid & Hcap & Hj & Hmax) Hd].
  apply Inv_saved; [|done].
  unfold mem_inv, arr_inv, unique_ids. simpl.
  rewrite shiftDown_length, shiftDown_live by lia.
  repeat split; try done; try lia; try (by destruct Hnid).
  - by apply Forall_delete.
  - rewrite list_fmap_delete. apply (sublist_NoDup _ _ Hu (sublist_delete _ k)).
  - by apply Forall_delete.
Qed.

Lemma sortChoice_perm (choice order : Z) (items : list Item) (itemCount : Z) :
  live (sortChoice choice order items itemCount) itemCount ≡ₚ live items itemCount ∧
  length (sortChoice choice order items itemCount) = length items.
Proof.
  unfold sortChoice, sortByID, sortByName, sortByCategory, sortByDate, sortByStatus, live.
  repeat match goal with
         | |- context [if ?c =? ?d then _ else _] => destruct (c =? d)
         end;
    try done;
    match goal with
    | |- context [bubbleSort ?cond _ _] =>
        destruct (swaps_perm cond _ _ _ (bubbleSort_swaps cond items itemCount))
          as (Hp & _ & Hl); done
    end.
Qed.

Lemma sortMenu_inv (canWrite : bool) (rounds : list (Z * Z)) (st : State) :
  Inv st →
  Inv (sortMenu canWrite rounds st) ∧ nextID (sortMenu canWrite rounds st) = nextID st.
Proof.
  unfold sortMenu. revert st.
  induction rounds as [|r rounds IH]; intros st HI; simpl; [done|].
  destruct (sortChoice_perm (fst r) (snd r) (items st) (itemCount st)) as [Hp Hl].
  match goal with
  | |- Inv (foldl _ ?st1 _) ∧ _ => destruct (IH st1) as [HI' Hn]
  end.
  - apply Inv_new_items; [done| |done].
    apply (arr_inv_perm (items st)); [by destruct HI as [[? _] _]|done..].
  - split; [exact HI'|]. by rewrite Hn.
Qed.

Lemma clearAllItems_inv (canWrite confirm : bool) (st : State) :
  Inv st → Inv (fst (clearAllItems canWrite confirm st)).
Proof.
  intros HI. unfold clearAllItems. destruct confirm, canWrite; try done. simpl.
  destruct HI as [((H0 & Hlen & Hst & Hu & Hlt) & Hnid & Hcap & Hj & Hmax) Hd].
  split; [|by right; left].
  unfold mem_inv, arr_inv, unique_ids, live, int_range, INT_MIN, INT_MAX. simpl.
  rewrite take_0. repeat split; try done; try lia; constructor.
Qed.

(** ** Adding *)

Lemma resizeArray_spec (items : list Item) (cap : Z) :
  Z.of_nat (length items) = cap → cap * 2 ≤ INT_MAX →
  resizeArray items cap = (items ++ replicate (Z.to_nat cap) defaultItem, cap * 2).
Proof.
  intros Hlen Hmax. unfold resizeArray.
  rewrite int_wrap_small by (unfold int_range, INT_MIN; lia). f_equal.
  set (m := Z.to_nat (cap * 2)).
  assert (Hinv : for_loop 0 (Z.to_nat cap) (λ i newItems,
            match items !! i with
            | Some x => <[i:=x]> newItems
            | None => newItems
            end) (replicate m defaultItem)
          = take (Z.to_nat cap) items ++ replicate (m - Z.to_nat cap) defaultItem).
  { refine (for_loop_inv (λ k (cur : list Item),
      cur = take k items ++ replicate (m - k) defaultItem) 0 (Z.to_nat cap) _ _ _ _ _).
    - lia.
    - by rewrite take_0, Nat.sub_0_r.
    - intros k cur Hk ->.
      destruct (lookup_lt_is_Some_2 items k) as [x Hx]; [lia|].
      rewrite Hx, (take_S_r _ _ _ Hx).
      assert (Hlk : length (take k items) = k) by (apply length_take_le; lia).
      rewrite insert_app_r_alt by lia. rewrite Hlk, Nat.sub_diag.
      replace (m - k)%nat with (S (m - S k)) by lia. simpl.
      by rewrite <- app_assoc. }
  rewrite Hinv. rewrite take_ge by lia. do 2 f_equal. lia.
Qed.

Lemma pickLoop_inv (items : list Item) (itemCount nid : Z) (newPos : nat)
    (matchIndices : list nat) (picks : list Z) :
  (newPos < Z.to_nat itemCount)%nat →
  arr_inv items itemCount nid →
  arr_inv (fst (pickLoop items itemCount newPos matchIndices picks)) itemCount nid ∧
  length (fst (pickLoop items itemCount newPos matchIndices picks)) = length items.
Proof.
  intros Hnew Hinv. induction picks as [|choice rest IH]; simpl; [done|].
  destruct (choice =? 0); [done|]. destruct (existsb _ _); [|done].
  unfold markMatchByID.
  destruct (firstWithID _ _ _ _) as [i|] eqn:Hi; [|done]. simpl.
  apply firstWithID_Some in Hi as (Hin & _).
  apply markAsMatched_inv; [done|lia|done].
Qed.

Lemma searchForMatches_inv (canWrite searchChoice : bool) (picks : list Z) (st : State) :
  Inv st → 0 < itemCount st →
  Inv (searchForMatches canWrite searchChoice picks st) ∧
  nextID (searchForMatches canWrite searchChoice picks st) = nextID st.
Proof.
  intros HI Hpos. unfold searchForMatches.
  destruct searchChoice; [|done]. destruct (0 <? _)%nat; [|done].
  destruct (pickLoop_inv (items st) (itemCount st) (nextID st)
              (Z.to_nat (itemCount st - 1))
              (candidatesForNew (items st) (itemCount st)) picks)
    as [Harr Hlen]; [lia|by destruct HI as [[? _] _]|].
  destruct (pickLoop _ _ _ _ _) as [items' done] eqn:Hpick. simpl in *.
  destruct done; [|done]. split; [|done]. by apply Inv_new_items.
Qed.

Lemma addItem_inv (statusLit : string) (canWrite : bool) (inp : ItemInput)
    (searchChoice : bool) (picks : list Z) (st : State) :
  size_range statusLit →
  Inv st → input_ok inp → nextID st < INT_MAX →
  (itemCount st = capacity st → capacity st * 2 ≤ INT_MAX) →
  Inv (addItem statusLit canWrite inp searchChoice picks st) ∧
  nextID (addItem statusLit canWrite inp searchChoice picks st) = nextID st + 1.
Proof.
  intros Hstatus HI (I1 & I2 & I3 & I4 & I5 & I6) Hnext Hroom.
  destruct HI as [((H0 & Hlen & Hst & Hu & Hlt) & Hnid & Hcap & [j Hj] & Hmax) Hd].
  unfold addItem.
  set (newItem := mkItem (nextID st) _ _ _ _ _ _ _ _ _ _ _).
  assert (Hw : int_wrap (nextID st + 1) = nextID st + 1).
  { apply int_wrap_small. unfold int_range, INT_MIN, INT_MAX in *. lia. }
  rewrite Hw.
  assert (Hnew : storable_item newItem).
  { unfold storable_item, newItem, int_range, INT_MIN, INT_MAX in *. simpl.
    repeat split; try done; try lia. apply dateBuffer_length. }
  assert (Harr : ∃ items1 capacity1,
    (if itemCount st =? capacity st then resizeArray (items st) (capacity st)
     else (items st, capacity st)) = (items1, capacity1) ∧
    Z.of_nat (length items1) = capacity1 ∧ itemCount st < capacity1 ∧
    live items1 (itemCount st) = live (items st) (itemCount st) ∧
    (∃ j' : nat, capacity1 = 10 * 2 ^ Z.of_nat j') ∧ capacity1 ≤ INT_MAX).
  { destruct (Z.eqb_spec (itemCount st) (capacity st)) as [Heq|Hne].
    - rewrite resizeArray_spec by (done || lia).
      eexists _, _. split; [reflexivity|].
      assert (0 < capacity st).
      { rewrite Hj. assert (0 < 2 ^ Z.of_nat j) by (apply Z.pow_pos_nonneg; lia). lia. }
      split; [rewrite length_app, length_replicate; lia|]. split; [lia|].
      split; [unfold live; apply take_app_le; lia|].
      split; [|lia]. exists (S j). rewrite Nat2Z.inj_succ, Z.pow_succ_r by lia. lia.
    - eexists _, _. split; [reflexivity|]. split; [done|]. split; [lia|].
      split; [done|]. split; [by exists j|done]. }
  destruct Harr as (items1 & capacity1 & -> & Hcap1 & Hroom1 & Hlive1 & Hj1 & Hmax1).
  set (items2 := <[Z.to_nat (itemCount st) := newItem]> items1).
  assert (Hlive2 : live items2 (itemCount st + 1) =
                   live (items st) (itemCount st) ++ [newItem]).
  { unfold live, items2. replace (Z.to_nat (itemCount st + 1))
      with (S (Z.to_nat (itemCount st))) by lia.
    rewrite (take_S_r _ _ newItem) by (apply list_lookup_insert_eq; lia).
    rewrite take_insert_ge by lia. unfold live in Hlive1. by rewrite Hlive1. }
  assert (Hm2 : ∀ file, mem_inv (mkState items2 (itemCount st + 1) capacity1
                                   (nextID st + 1) file)).
  { intros file. unfold mem_inv, arr_inv, unique_ids. simpl. rewrite Hlive2.
    unfold items2. rewrite length_insert.
    repeat split; try done; try lia.
    - apply Forall_app. split; [done|]. by apply Forall_singleton.
    - rewrite fmap_app. apply NoDup_app. split; [done|]. split; [|apply NoDup_singleton].
      intros v Hv. simpl. rewrite list_elem_of_singleton. intros ->.
      apply list_elem_of_fmap in Hv as (it & Hit & Hin).
      rewrite Forall_forall in Hlt. specialize (Hlt it Hin). simpl in Hlt. lia.
    - apply Forall_app. split.
      + eapply Forall_impl; [exact Hlt|]. simpl. intros; lia.
      + apply Forall_singleton. simpl. lia.
    - unfold int_range, INT_MIN in *. lia. }
  match goal with
  | |- Inv (searchForMatches _ _ _ ?st2) ∧ _ =>
      destruct (searchForMatches_inv canWrite searchChoice picks st2) as [HI2 Hn2]
  end.
  - by apply Inv_saved.
  - simpl. lia.
  - split; [exact HI2|]. by rewrite Hn2.
Qed.

(** ** Starting again *)

Lemma growCapacity_pow (fuel : nat) (c n c' : Z) (k : nat) :
  0 < c → n ≤ c * 2 ^ Z.of_nat k → c * 2 ^ Z.of_nat k ≤ INT_MAX →
  growCapacity fuel c n = Some c' →
  ∃ j : nat, c' = c * 2 ^ Z.of_nat j ∧ c' ≤ INT_MAX.
Proof.
  revert c k. induction fuel as [|fuel IH]; intros c k Hc Hn Hmax; simpl.
  - destruct (Z.ltb_spec c n); [discriminate|]. intros [= <-].
    assert (0 < 2 ^ Z.of_nat k) by (apply Z.pow_pos_nonneg; lia).
    exists 0%nat. simpl. split; [lia|nia].
  - assert (0 < 2 ^ Z.of_nat k) by (apply Z.pow_pos_nonneg; lia).
    destruct (Z.ltb_spec c n) as [Hlt|Hge].
    + destruct k as [|k]; [simpl in Hn; lia|].
      rewrite Nat2Z.inj_succ, Z.pow_succ_r in * by lia.
      assert (0 < 2 ^ Z.of_nat k) by (apply Z.pow_pos_nonneg; lia).
      rewrite int_wrap_small by (unfold int_range, INT_MIN; nia).
      intros Hg. apply (IH (c * 2) k) in Hg as (j & -> & Hj); [|lia|nia|nia].
      exists (S j). rewrite Nat2Z.inj_succ, Z.pow_succ_r by lia. split; [lia|done].
    + intros [= <-]. exists 0%nat. simpl. split; [lia|nia].
Qed.

Lemma loadFromFile_capacity (st st' : State) (nid cnt : Z) (rest : list byte) :
  fileBytes st = Some (write_int nid ++ write_int cnt ++ rest) →
  int_range nid → int_range cnt →
  0 < capacity st → can_grow (capacity st) cnt →
  loadFromFile st = Some st' →
  ∃ j : nat, capacity st' = capacity st * 2 ^ Z.of_nat j ∧ capacity st' ≤ INT_MAX.
Proof.
  intros Hfile Hnid Hcnt Hc [k [Hk1 Hk2]]. unfold loadFromFile.
  rewrite Hfile, read_header_written by done.
  assert (0 < 2 ^ Z.of_nat k) by (apply Z.pow_pos_nonneg; lia).
  destruct (cnt >? capacity st).
  - destruct (growCapacity 33 (capacity st) cnt) as [c|] eqn:Hg; [|discriminate].
    apply (growCapacity_pow _ _ _ _ k) in Hg as (j & -> & Hj); [|done..].
    destruct (read_items _ _ _ _) as [[items2 tail]|]; [|discriminate].
    intros [= <-]. simpl. eauto.
  - destruct (read_items _ _ _ _) as [[items2 tail]|]; [|discriminate].
    intros [= <-]. simpl. exists 0%nat. simpl. split; [lia|nia].
Qed.

Lemma firstRun_inv (file : option (list byte)) :
  disk_ok file → Inv (mkState (replicate 10 defaultItem) 0 10 100 file).
Proof.
  intros Hd. split; [|done].
  unfold mem_inv, arr_inv, unique_ids, live, int_range, INT_MIN, INT_MAX. simpl.
  repeat split; try done; try lia; try constructor.
  by exists 0%nat.
Qed.

(** Loading a file that [saveToFile] wrote from a store [items], [n],
    [nid]: the same count, counter and live records come back. *)
Lemma restart_saved (items0 : list Item) (n nid : Z) :
  arr_inv items0 n nid → int_range nid → can_grow 10 n →
  disk_ok (Some (encode items0 n nid)) →
  ∃ st', loadFromFile (initialState (Some (encode items0 n nid))) = Some st' ∧
         Inv st' ∧ nextID st' = nid ∧ itemCount st' = n ∧
         live (items st') (itemCount st') = live items0 n.
Proof.
  intros (H0 & Hlen & Hst & Hu & Hlt) Hnid Hgrow Hd.
  assert (Hn : int_range n).
  { destruct Hgrow as [k [Hk1 Hk2]].
    assert (0 < 2 ^ Z.of_nat k) by (apply Z.pow_pos_nonneg; lia).
    unfold int_range, INT_MIN. lia. }
  assert (Hfile : fileBytes (initialState (Some (encode items0 n nid))) =
                  Some (write_int nid ++ write_int n ++
                        (take (Z.to_nat n) items0 ≫= write_item) ++ [])).
  { simpl. unfold encode. by rewrite encode_records, app_nil_r by done. }
  assert (Hc0 : 0 < capacity (initialState (Some (encode items0 n nid))))
    by (simpl; lia).
  destruct (loadFromFile_records _ nid n (take (Z.to_nat n) items0) [] Hc0
              eq_refl Hfile Hnid Hn (length_take_le _ _ Hlen) Hst Hgrow)
    as (st' & Hload & Hnid' & Hcnt' & Hlive' & Hcap' & Hlen' & Hfile').
  destruct (loadFromFile_capacity _ st' nid n _ Hfile Hnid Hn Hc0
              Hgrow Hload) as (j & Hj & Hmax).
  exists st'. split; [done|]. split; [|by repeat split].
  split; [|by rewrite Hfile'].
  unfold mem_inv, arr_inv, unique_ids. rewrite Hlive', Hnid', Hcnt'.
  repeat split; try done; try lia; try (by destruct Hnid).
  exists j. by rewrite Hj.
Qed.

Lemma restart_inv (file : option (list byte)) :
  disk_ok file → ∃ st', loadFromFile (initialState file) = Some st' ∧ Inv st'.
Proof.
  intros Hd. pose proof Hd as Hd'.
  destruct Hd as [->|[->|(items & n & nid & -> & Harr & Hnid & Hgrow)]].
  - eexists. split; [reflexivity|]. by apply firstRun_inv.
  - eexists. split; [reflexivity|]. by apply firstRun_inv.
  - destruct (restart_saved items n nid) as (st' & Hload & HI & _); eauto.
Qed.

(** ** One command, then a session *)

Lemma size_range_Lost : size_range "Lost".
Proof. unfold size_range. vm_compute. reflexivity. Qed.

Lemma size_range_Found : size_range "Found".
Proof. unfold size_range. vm_compute. reflexivity. Qed.

Lemma step_inv (canWrite : bool) (c : Command) (st : State) :
  Inv st → cmd_ok st c →
  ∃ st', step canWrite c st = Some st' ∧ Inv st' ∧
         (¬ resets (canWrite, c) → nextID st ≤ nextID st').
Proof.
  intros HI Hok. destruct c; simpl in *.
  - destruct Hok as (Hinp & Hnext & Hroom).
    destruct (addItem_inv "Lost" canWrite inp searchChoice picks st
                size_range_Lost HI Hinp Hnext Hroom) as [HI' Hn].
    eexists. split; [reflexivity|]. split; [exact HI'|].
    intros _. unfold addLostItem. lia.
  - destruct Hok as (Hinp & Hnext & Hroom).
    destruct (addItem_inv "Found" canWrite inp searchChoice picks st
                size_range_Found HI Hinp Hnext Hroom) as [HI' Hn].
    eexists. split; [reflexivity|]. split; [exact HI'|].
    intros _. unfold addFoundItem. lia.
  - destruct (updateItem_inv canWrite idQ edits st HI Hok) as [HI' Hn].
    eexists. split; [reflexivity|]. split; [exact HI'|]. intros _. lia.
  - destruct (deleteItem_inv canWrite idQ confirm st HI) as [HI' Hn].
    eexists. split; [reflexivity|]. split; [exact HI'|]. intros _. lia.
  - destruct (markAsClaimed_inv canWrite idQ st HI) as [HI' Hn].
    eexists. split; [reflexivity|]. split; [exact HI'|]. intros _. lia.
  - destruct (markItemAsMatched_inv canWrite id1 id2 st HI) as [HI' Hn].
    eexists. split; [reflexivity|]. split; [exact HI'|]. intros _. lia.
  - destruct (sortMenu_inv canWrite rounds st HI) as [HI' Hn].
    eexists. split; [reflexivity|]. split; [exact HI'|]. intros _. lia.
  - eexists. split; [reflexivity|]. split; [by apply clearAllItems_inv|].
    unfold clearAllItems. intros Hnr. destruct confirm, canWrite; simpl; lia.
  - eexists. split; [reflexivity|]. split; [|simpl; intros _; lia].
    destruct HI as [Hm Hd]. apply Inv_saved; [|done]. exact Hm.
  - destruct (restart_inv (fileBytes st)) as (st' & Hload & HI'); [by destruct HI|].
    exists st'. split; [done|]. split; [done|]. intros Hnr. exfalso. by apply Hnr.
Qed.

Lemma run_inv (cmds : list (bool * Command)) (st : State) :
  Inv st → run_ok cmds st →
  ∃ st', run cmds st = Some st' ∧ Inv st' ∧
         (Forall (λ wc, ¬ resets wc) cmds → nextID st ≤ nextID st').
Proof.
  revert st. induction cmds as [|[canWrite c] cmds IH]; intros st HI Hok.
  - exists st. split; [done|]. split; [done|]. intros _. lia.
  - destruct Hok as [Hc Hrest].
    destruct (step_inv canWrite c st HI Hc) as (st1 & Hstep & HI1 & Hmono).
    destruct (IH st1 HI1 (Hrest st1 Hstep)) as (st' & Hrun & HI' & Hmono').
    exists st'. simpl. rewrite Hstep. split; [done|]. split; [done|].
    intros Hall. apply Forall_cons in Hall as [Hnr Hall].
    specialize (Hmono Hnr). specialize (Hmono' Hall). lia.
Qed.

(** C8 as the code has it.  The program starts with nextID 100 when there
    is no file.  From a store with unique ids below the counter, every
    session of commands (add, update, delete, match, claim, sort, clear-all,
    save, restart/load) the [int] variables can follow runs to a store in
    which the ids of the live records are again pairwise different and below
    the counter; the counter never decreases over a session without a
    confirmed clear-all and without a restart; a confirmed clear-all sets it
    back to 100; and saving then restarting gives back the same counter and
    the same live records. *)
Theorem session_counter_and_ids (cmds : list (bool * Command)) (st : State) :
  Inv st → run_ok cmds st →
  (∃ s0, loadFromFile (initialState None) = Some s0 ∧
         nextID s0 = 100 ∧ itemCount s0 = 0 ∧ Inv s0) ∧
  ∃ st', run cmds st = Some st' ∧ Inv st' ∧
         unique_ids (items st') (itemCount st') ∧
         Forall (λ it, id it < nextID st') (live (items st') (itemCount st')) ∧
         (Forall (λ wc, ¬ resets wc) cmds → nextID st ≤ nextID st') ∧
         nextID (fst (clearAllItems true true st')) = 100 ∧
         ∃ st'', run [(true, CmdSave); (true, CmdRestart)] st' = Some st'' ∧
                 nextID st'' = nextID st' ∧
                 live (items st'') (itemCount st'') = live (items st') (itemCount st').
Proof.
  intros HI Hok. split.
  - eexists. split; [reflexivity|]. split; [reflexivity|]. split; [reflexivity|].
    apply (firstRun_inv None). by left.
  - destruct (run_inv cmds st HI Hok) as (st' & Hrun & HI' & Hmono).
    exists st'. split; [done|]. split; [done|].
    pose proof HI' as [((H0 & Hlen & Hst & Hu & Hlt) & Hnid & Hcap & Hj & Hmax) Hd].
    split; [done|]. split; [done|]. split; [done|]. split; [done|].
    destruct (restart_saved (items st') (itemCount st') (nextID st'))
      as (st'' & Hload & _ & Hn & Hc & Hl); try done.
    + by apply mem_inv_can_grow; destruct HI'.
    + apply (saveToFile_ok true st' None); [by destruct HI'|by left].
    + exists st''. simpl. rewrite Hload. done.
Qed.

Lemma walletInput_ok : input_ok walletInput.
Proof. unfold input_ok, size_range. vm_compute. repeat split. Qed.

(** The wallet session, from the state of a first run. *)
Lemma session_counter_and_ids_witness :
  (∃ s0, loadFromFile (initialState None) = Some s0 ∧
         nextID s0 = 100 ∧ itemCount s0 = 0 ∧ Inv s0) ∧
  ∃ st', run walletSession (initialState None) = Some st' ∧ Inv st' ∧
         unique_ids (items st') (itemCount st') ∧
         Forall (λ it, id it < nextID st') (live (items st') (itemCount st')) ∧
         (Forall (λ wc, ¬ resets wc) walletSession →
          nextID (initialState None) ≤ nextID st') ∧
         nextID (fst (clearAllItems true true st')) = 100 ∧
         ∃ st'', run [(true, CmdSave); (true, CmdRestart)] st' = Some st'' ∧
                 nextID st'' = nextID st' ∧
                 live (items st'') (itemCount st'') = live (items st') (itemCount st').
Proof.
  apply (session_counter_and_ids walletSession (initialState None)).
  - apply (firstRun_inv None). by left.
  - unfold walletSession.
    split; [split; [exact walletInput_ok|]; split; vm_compute; [reflexivity|discriminate]|].
    intros st2 [= <-].
    split; [split; [exact walletInput_ok|]; split; vm_compute; [reflexivity|discriminate]|].
    intros st3 [= <-].
    split; [exact I|]. intros st4 _. exact I.
Defined.

(** Reporting one item and then clearing all items: the counter goes from
    101 back to 100. *)
Lemma nextID_decreases_on_clear :
  nextID <$> run [(true, CmdRestart); (true, CmdAddLost walletInput false [])]
                 (initialState None) = Some 101 ∧
  nextID <$> run [(true, CmdRestart); (true, CmdAddLost walletInput false []);
                  (true, CmdClear true)]
                 (initialState None) = Some 100.
Proof. split; reflexivity. Qed.

(** * Further properties of the program *)

(** ** Texts, letter case ignored *)

Lemma tolower_idemp (c : ascii) : tolower (tolower c) = tolower c.
Proof.
  destruct c as [b0 b1 b2 b3 b4 b5 b6 b7].
  destruct b0, b1, b2, b3, b4, b5, b6, b7; reflexivity.
Qed.

Lemma toLowerCase_idemp (s : string) : toLowerCase (toLowerCase s) = toLowerCase s.
Proof. induction s as [|c s IH]; simpl; [done|]. by rewrite tolower_idemp, IH. Qed.

Lemma toLowerCase_length (s : string) : String.length (toLowerCase s) = String.length s.
Proof. induction s as [|c s IH]; simpl; [done|]. by rewrite IH. Qed.

(** X1: [containsSubstring] decides containment with letter case ignored
    on both sides; the empty text is contained in every text, every text
    contains itself, and a text never contains a longer one. *)
Theorem containsSubstring_nocase (str substr : string) :
  (containsSubstring str substr = true ↔ contains_nocase str substr) ∧
  containsSubstring (toLowerCase str) substr = containsSubstring str substr ∧
  containsSubstring str (toLowerCase substr) = containsSubstring str substr ∧
  containsSubstring str "" = true ∧
  containsSubstring str str = true ∧
  ((String.length str < String.length substr)%nat → containsSubstring str substr = false).
Proof.
  split; [apply containsSubstring_spec|].
  split; [unfold containsSubstring; by rewrite toLowerCase_idemp|].
  split; [unfold containsSubstring; by rewrite toLowerCase_idemp|].
  split; [apply containsSubstring_spec; exists "", (toLowerCase str); reflexivity|].
  split.
  - apply containsSubstring_spec. exists "", "". rewrite append_nil.
    induction (toLowerCase str) as [|c s IH]; [reflexivity|].
    rewrite append_cons. by rewrite <- IH.
  - intros Hlen. destruct (containsSubstring str substr) eqn:Hc; [|done].
    apply containsSubstring_spec in Hc as (p & q & Hpq).
    apply (f_equal String.length) in Hpq.
    rewrite !string_length_append, !toLowerCase_length in Hpq. lia.
Qed.

(** ** The plain searches *)

Lemma collect_all (items : list Item) (c : Item → bool) (n : nat) :
  (∀ i, (i < n)%nat → ∃ it, items !! i = Some it ∧ c it = true) →
  for_loop 0 n (λ i results,
    match items !! i with
    | Some it => if c it then results ++ [i] else results
    | None => results
    end) [] = seq 0 n.
Proof.
  intros Hall.
  refine (for_loop_inv (λ k (r : list nat), r = seq 0 k) 0 n _ [] _ _ _); [lia|done|].
  intros k r Hk ->. destruct (Hall k) as (it & -> & ->); [lia|].
  by rewrite seq_S.
Qed.

(** X2: the searches by name, category, description and location return, in
    store order, exactly the live positions whose field contains the query
    with letter case ignored (the query inside the field, not the reverse),
    whatever the matched and claimed flags of the record. *)
Theorem text_searches_spec (items : list Item) (itemCount : Z) (query : string) :
  let found (field : Item → string) (results : list nat) :=
    StronglySorted lt results ∧
    ∀ i, i ∈ results ↔
         (i < Z.to_nat itemCount)%nat ∧
         ∃ it, items !! i = Some it ∧ contains_nocase (field it) query in
  found name (searchByName items itemCount query) ∧
  found category (searchByCategory items itemCount query) ∧
  found description (searchByDescription items itemCount query) ∧
  found location (searchByLocation items itemCount query).
Proof.
  assert (Hgen : ∀ field : Item → string,
    let r := for_loop 0 (Z.to_nat itemCount) (λ i results,
               match items !! i with
               | Some it => if containsSubstring (field it) query
                            then results ++ [i] else results
               | None => results
               end) [] in
    StronglySorted lt r ∧
    ∀ i, i ∈ r ↔ (i < Z.to_nat itemCount)%nat ∧
                 ∃ it, items !! i = Some it ∧ contains_nocase (field it) query).
  { intros field.
    destruct (collect_spec items (λ it, containsSubstring (field it) query)
                (Z.to_nat itemCount)) as [Hs Hm].
    split; [exact Hs|]. intros i. rewrite Hm.
    split; intros [Hi (it & Hit & Hc)]; (split; [exact Hi|]); exists it;
      (split; [exact Hit|]); by apply containsSubstring_spec. }
  cbv zeta.
  split; [apply (Hgen name)|]. split; [apply (Hgen category)|].
  split; [apply (Hgen description)|apply (Hgen location)].
Qed.

(** X3: with an empty query each of the four text searches returns every
    live position, in order. *)
Theorem text_searches_empty_query (items : list Item) (itemCount : Z) :
  (Z.to_nat itemCount ≤ length items)%nat →
  searchByName items itemCount "" = seq 0 (Z.to_nat itemCount) ∧
  searchByCategory items itemCount "" = seq 0 (Z.to_nat itemCount) ∧
  searchByDescription items itemCount "" = seq 0 (Z.to_nat itemCount) ∧
  searchByLocation items itemCount "" = seq 0 (Z.to_nat itemCount).
Proof.
  intros Hlen.
  assert (Hgen : ∀ field : Item → string,
    for_loop 0 (Z.to_nat itemCount) (λ i results,
      match items !! i with
      | Some it => if containsSubstring (field it) "" then results ++ [i] else results
      | None => results
      end) [] = seq 0 (Z.to_nat itemCount)).
  { intros field. apply (collect_all items (λ it, containsSubstring (field it) "")).
    intros i Hi. destruct (lookup_lt_is_Some_2 items i) as [it Hit]; [lia|].
    exists it. split; [done|].
    apply containsSubstring_spec. exists "", (toLowerCase (field it)). reflexivity. }
  split; [apply (Hgen name)|]. split; [apply (Hgen category)|].
  split; [apply (Hgen description)|apply (Hgen location)].
Qed.

Lemma text_searches_empty_query_witness :
  searchByName exampleItems 2 "" = seq 0 (Z.to_nat 2) ∧
  searchByCategory exampleItems 2 "" = seq 0 (Z.to_nat 2) ∧
  searchByDescription exampleItems 2 "" = seq 0 (Z.to_nat 2) ∧
  searchByLocation exampleItems 2 "" = seq 0 (Z.to_nat 2).
Proof.
  apply (text_searches_empty_query exampleItems 2). simpl. lia.
Defined.

(** ** The flag filters *)

(** X4: [filterByMatched] and [filterByClaimed] return, in store order,
    exactly the live positions whose flag equals the value asked for; when
    the flags are 0 or 1, each live position is in exactly one of the lists
    for 1 and for 0; and every position the status search returns is in the
    unmatched list. *)
Theorem flag_filters_spec (items : list Item) (itemCount : Z) :
  Forall valid_flags (live items itemCount) →
  (Z.to_nat itemCount ≤ length items)%nat →
  (∀ v, StronglySorted lt (filterByMatched items itemCount v) ∧
        ∀ i, i ∈ filterByMatched items itemCount v ↔
             (i < Z.to_nat itemCount)%nat ∧ ∃ it, items !! i = Some it ∧ matched it = v) ∧
  (∀ v, StronglySorted lt (filterByClaimed items itemCount v) ∧
        ∀ i, i ∈ filterByClaimed items itemCount v ↔
             (i < Z.to_nat itemCount)%nat ∧ ∃ it, items !! i = Some it ∧ claimed it = v) ∧
  (∀ i, (i < Z.to_nat itemCount)%nat →
        (i ∈ filterByMatched items itemCount 1 ↔ i ∉ filterByMatched items itemCount 0) ∧
        (i ∈ filterByClaimed items itemCount 1 ↔ i ∉ filterByClaimed items itemCount 0)) ∧
  (∀ statusQ i, i ∈ searchByStatus items itemCount statusQ →
                i ∈ filterByMatched items itemCount 0).
Proof.
  intros Hvalid Hlen.
  assert (Hm : ∀ v, StronglySorted lt (filterByMatched items itemCount v) ∧
        ∀ i, i ∈ filterByMatched items itemCount v ↔
             (i < Z.to_nat itemCount)%nat ∧ ∃ it, items !! i = Some it ∧ matched it = v).
  { intros v. destruct (collect_spec items (λ it, matched it =? v) (Z.to_nat itemCount))
      as [Hs Hmem].
    split; [exact Hs|]. intros i. unfold filterByMatched. rewrite Hmem.
    split; intros [Hi (it & Hit & Hc)]; (split; [exact Hi|]); exists it;
      (split; [exact Hit|]); by apply Z.eqb_eq. }
  assert (Hc : ∀ v, StronglySorted lt (filterByClaimed items itemCount v) ∧
        ∀ i, i ∈ filterByClaimed items itemCount v ↔
             (i < Z.to_nat itemCount)%nat ∧ ∃ it, items !! i = Some it ∧ claimed it = v).
  { intros v. destruct (collect_spec items (λ it, claimed it =? v) (Z.to_nat itemCount))
      as [Hs Hmem].
    split; [exact Hs|]. intros i. unfold filterByClaimed. rewrite Hmem.
    split; intros [Hi (it & Hit & Hc)]; (split; [exact Hi|]); exists it;
      (split; [exact Hit|]); by apply Z.eqb_eq. }
  split; [exact Hm|]. split; [exact Hc|]. split.
  - intros i Hi. destruct (lookup_lt_is_Some_2 items i) as [it Hit]; [lia|].
    assert (Hv : valid_flags it).
    { rewrite Forall_lookup in Hvalid. apply (Hvalid i). unfold live.
      by rewrite lookup_take_lt. }
    destruct Hv as (_ & Hvm & Hvc).
    rewrite !(proj2 (Hm _)), !(proj2 (Hc _)). split; split.
    + intros [_ (it' & Hit' & H1)] [_ (it'' & Hit'' & H0)]. congruence.
    + intros Hn. split; [done|]. exists it. split; [done|].
      destruct Hvm as [H0|H1]; [|done]. exfalso. apply Hn. eauto.
    + intros [_ (it' & Hit' & H1)] [_ (it'' & Hit'' & H0)]. congruence.
    + intros Hn. split; [done|]. exists it. split; [done|].
      destruct Hvc as [H0|H1]; [|done]. exfalso. apply Hn. eauto.
  - intros statusQ i Hi. apply (proj2 (Hm 0)).
    unfold searchByStatus in Hi.
    apply (proj2 (collect_spec items
      (λ it, String.eqb (toLowerCase (status it)) (toLowerCase statusQ) && (matched it =? 0))
      (Z.to_nat itemCount))) in Hi as [Hlt (it & Hit & Hcond)].
    split; [done|]. exists it. split; [done|].
    apply andb_true_iff in Hcond as [_ Hz]. by apply Z.eqb_eq.
Qed.

Lemma flag_filters_spec_witness :
  (∀ v, StronglySorted lt (filterByMatched exampleItems 2 v) ∧
        ∀ i, i ∈ filterByMatched exampleItems 2 v ↔
             (i < Z.to_nat 2)%nat ∧ ∃ it, exampleItems !! i = Some it ∧ matched it = v) ∧
  (∀ v, StronglySorted lt (filterByClaimed exampleItems 2 v) ∧
        ∀ i, i ∈ filterByClaimed exampleItems 2 v ↔
             (i < Z.to_nat 2)%nat ∧ ∃ it, exampleItems !! i = Some it ∧ claimed it = v) ∧
  (∀ i, (i < Z.to_nat 2)%nat →
        (i ∈ filterByMatched exampleItems 2 1 ↔ i ∉ filterByMatched exampleItems 2 0) ∧
        (i ∈ filterByClaimed exampleItems 2 1 ↔ i ∉ filterByClaimed exampleItems 2 0)) ∧
  (∀ statusQ i, i ∈ searchByStatus exampleItems 2 statusQ →
                i ∈ filterByMatched exampleItems 2 0).
Proof.
  apply (flag_filters_spec exampleItems 2).
  - exact exampleItems_valid.
  - simpl. lia.
Defined.

(** ** Dates *)

Lemma isdigit_range (c : ascii) : isdigit c = true → (48 ≤ N_of_ascii c ≤ 57)%N.
Proof. unfold isdigit. simpl. rewrite andb_true_iff, !N.leb_le. done. Qed.

Lemma isdigit_not_nul (c : ascii) : isdigit c = true → Ascii.eqb c zero = false.
Proof.
  intros Hd. apply isdigit_range in Hd. destruct (Ascii.eqb_spec c zero) as [->|]; [|done].
  simpl in Hd. lia.
Qed.

(** The texts [getValidDate] lets through. *)
Lemma getValidDate_shape (temp buf : string) :
  getValidDate temp = Some buf →
  ∃ y0 y1 y2 y3 m0 m1 d0 d1 : ascii,
    temp = String y0 (String y1 (String y2 (String y3 (String "-"
             (String m0 (String m1 (String "-" (String d0 (String d1 ""))))))))) ∧
    isdigit y0 = true ∧ isdigit y1 = true ∧ isdigit y2 = true ∧ isdigit y3 = true ∧
    isdigit m0 = true ∧ isdigit m1 = true ∧ isdigit d0 = true ∧ isdigit d1 = true ∧
    1 ≤ dateMonth temp ≤ 12 ∧
    1 ≤ dateDay temp ≤ daysInMonth (dateYear temp) (dateMonth temp) ∧
    buf = dateBuffer temp.
Proof.
  unfold getValidDate.
  destruct (Nat.eqb_spec (String.length temp) 10) as [Hlen|]; [|discriminate].
  destruct temp as [|y0 [|y1 [|y2 [|y3 [|c4 [|m0 [|m1 [|c7 [|d0 [|d1 [|? ?]]]]]]]]]]];
    try discriminate.
  cbn [negb orb charAt String.get from_option Datatypes.id].
  destruct (Ascii.eqb_spec c4 "-") as [->|]; [|discriminate].
  destruct (Ascii.eqb_spec c7 "-") as [->|]; [|discriminate].
  cbn [negb orb].
  destruct (isdigit y0) eqn:Hy0; [|discriminate].
  destruct (isdigit y1) eqn:Hy1; [|discriminate].
  destruct (isdigit y2) eqn:Hy2; [|discriminate].
  destruct (isdigit y3) eqn:Hy3; [|discriminate].
  destruct (isdigit m0) eqn:Hm0; [|discriminate].
  destruct (isdigit m1) eqn:Hm1; [|discriminate].
  destruct (isdigit d0) eqn:Hd0; [|discriminate].
  destruct (isdigit d1) eqn:Hd1; [|discriminate].
  cbn [negb orb].
  set (t := String y0 _).
  destruct (Z.ltb_spec (dateMonth t) 1); [discriminate|].
  destruct (Z.gtb_spec (dateMonth t) 12); [discriminate|].
  cbn [orb].
  destruct (Z.ltb_spec (dateDay t) 1); [discriminate|].
  destruct (Z.gtb_spec (dateDay t) (daysInMonth (dateYear t) (dateMonth t)));
    [discriminate|].
  cbn [orb]. intros [= <-].
  exists y0, y1, y2, y3, m0, m1, d0, d1. repeat split; try done; lia.
Qed.

Lemma daysInMonth_cases (year month : Z) :
  1 ≤ month ≤ 12 →
  28 ≤ daysInMonth year month ≤ 31 ∧
  (month = 2 → daysInMonth year month = if isLeapYear year then 29 else 28) ∧
  (month = 4 ∨ month = 6 ∨ month = 9 ∨ month = 11 → daysInMonth year month = 30) ∧
  (month = 1 ∨ month = 3 ∨ month = 5 ∨ month = 7 ∨ month = 8 ∨ month = 10 ∨ month = 12 →
     daysInMonth year month = 31).
Proof.
  intros Hm.
  assert (month = 1 ∨ month = 2 ∨ month = 3 ∨ month = 4 ∨ month = 5 ∨ month = 6 ∨
          month = 7 ∨ month = 8 ∨ month = 9 ∨ month = 10 ∨ month = 11 ∨ month = 12)
    as Hcases by lia.
  unfold daysInMonth.
  repeat (destruct Hcases as [->|Hcases]); try subst month; simpl;
    destruct (isLeapYear year); repeat split; intros; lia.
Qed.

(** What [strncpy] stores for an accepted text: the text and two NUL bytes. *)
Lemma getValidDate_stored (temp buf : string) :
  getValidDate temp = Some buf → buf = temp +:+ two_nuls ∧ cstr buf = temp.
Proof.
  intros Hok.
  apply getValidDate_shape in Hok
    as (y0 & y1 & y2 & y3 & m0 & m1 & d0 & d1 & -> &
        Hy0 & Hy1 & Hy2 & Hy3 & Hm0 & Hm1 & Hd0 & Hd1 & _ & _ & ->).
  set (t := String y0 _) in *.
  assert (Hbuf : dateBuffer t = t +:+ two_nuls).
  { unfold dateBuffer, t. cbn [strncpy].
    rewrite (isdigit_not_nul y0), (isdigit_not_nul y1), (isdigit_not_nul y2),
      (isdigit_not_nul y3), (isdigit_not_nul m0), (isdigit_not_nul m1),
      (isdigit_not_nul d0), (isdigit_not_nul d1) by done. reflexivity. }
  split; [exact Hbuf|].
  rewrite Hbuf. unfold t. rewrite !append_cons, append_nil. cbn [cstr].
  rewrite (isdigit_not_nul y0), (isdigit_not_nul y1), (isdigit_not_nul y2),
      (isdigit_not_nul y3), (isdigit_not_nul m0), (isdigit_not_nul m1),
      (isdigit_not_nul d0), (isdigit_not_nul d1) by done. reflexivity.
Qed.

(** An accepted month and day are below 100. *)
Lemma getValidDate_ranges (temp buf : string) :
  getValidDate temp = Some buf →
  1 ≤ dateMonth temp ≤ 12 ∧ 1 ≤ dateDay temp ≤ 31.
Proof.
  intros Hok.
  apply getValidDate_shape in Hok
    as (y0 & y1 & y2 & y3 & m0 & m1 & d0 & d1 & _ &
        _ & _ & _ & _ & _ & _ & _ & _ & Hmonth & Hday & _).
  destruct (daysInMonth_cases (dateYear temp) (dateMonth temp) Hmonth) as (Hdim & _).
  lia.
Qed.



(** X6: on two stored dates that passed [getValidDate], [strcmp] orders as
    the calendar does: its sign is the comparison of the days named (year,
    then month, then day), and it is zero only for the same text. *)
Theorem stored_dates_chronological (t1 b1 t2 b2 : string) :
  getValidDate t1 = Some b1 → getValidDate t2 = Some b2 →
  strcmp b1 b2 = (dateNumber t1 ?= dateNumber t2) ∧
  (strcmp b1 b2 = Eq ↔ t1 = t2) ∧
  (strcmp b1 b2 = Lt ↔
     dateYear t1 < dateYear t2 ∨
     (dateYear t1 = dateYear t2 ∧ dateMonth t1 < dateMonth t2) ∨
     (dateYear t1 = dateYear t2 ∧ dateMonth t1 = dateMonth t2 ∧ dateDay t1 < dateDay t2)).
Proof.
  intros H1 H2.
  pose proof (getValidDate_stored t1 b1 H1) as [_ Hc1].
  pose proof (getValidDate_stored t2 b2 H2) as [_ Hc2].
  pose proof (getValidDate_ranges t1 b1 H1) as [Hmo1 Hda1].
  pose proof (getValidDate_ranges t2 b2 H2) as [Hmo2 Hda2].
  unfold strcmp. rewrite Hc1, Hc2.
  assert (Hcmp : String.compare t1 t2 = (dateNumber t1 ?= dateNumber t2)).
  { apply getValidDate_shape in H1
      as (y0 & y1 & y2 & y3 & m0 & m1 & d0 & d1 & -> &
          Hy0 & Hy1 & Hy2 & Hy3 & Hm0 & Hm1 & Hd0 & Hd1 & _ & _ & _).
    apply getValidDate_shape in H2
      as (z0 & z1 & z2 & z3 & n0 & n1 & e0 & e1 & -> &
          Hz0 & Hz1 & Hz2 & Hz3 & Hn0 & Hn1 & He0 & He1 & _ & _ & _).
    apply isdigit_range in Hy0, Hy1, Hy2, Hy3, Hm0, Hm1, Hd0, Hd1,
                            Hz0, Hz1, Hz2, Hz3, Hn0, Hn1, He0, He1.
    unfold dateNumber, dateYear, dateMonth, dateDay, digitValue.
    cbn [charAt String.get from_option Datatypes.id String.compare].
    unfold Ascii.compare.
    change (N_of_ascii "-" ?= N_of_ascii "-")%N with Eq. cbv iota.
    repeat match goal with
           | |- context [(N_of_ascii ?a ?= N_of_ascii ?b)%N] =>
               destruct (N.compare_spec (N_of_ascii a) (N_of_ascii b))
           end;
      symmetry;
      first [apply Z.compare_eq_iff; lia
            |apply Z.compare_lt_iff; lia
            |apply Z.compare_gt_iff; lia]. }
  split; [exact Hcmp|]. split.
  - split; [apply String.compare_eq_iff|]. intros ->. apply string_compare_refl.
  - rewrite Hcmp, Z.compare_lt_iff. unfold dateNumber. lia.
Qed.

Lemma stored_dates_chronological_witness :
  strcmp (dateBuffer "2026-01-05") (dateBuffer "2026-01-06") =
    (dateNumber "2026-01-05" ?= dateNumber "2026-01-06") ∧
  (strcmp (dateBuffer "2026-01-05") (dateBuffer "2026-01-06") = Eq ↔
     "2026-01-05" = "2026-01-06") ∧
  (strcmp (dateBuffer "2026-01-05") (dateBuffer "2026-01-06") = Lt ↔
     dateYear "2026-01-05" < dateYear "2026-01-06" ∨
     (dateYear "2026-01-05" = dateYear "2026-01-06" ∧
      dateMonth "2026-01-05" < dateMonth "2026-01-06") ∨
     (dateYear "2026-01-05" = dateYear "2026-01-06" ∧
      dateMonth "2026-01-05" = dateMonth "2026-01-06" ∧
      dateDay "2026-01-05" < dateDay "2026-01-06")).
Proof.
  apply (stored_dates_chronological "2026-01-05" (dateBuffer "2026-01-05")
           "2026-01-06" (dateBuffer "2026-01-06")); reflexivity.
Defined.

(** X7: searching by a date that passed [getValidDate] returns, in store
    order, exactly the live positions whose stored date reads, as a C
    string, as the text typed. *)
Theorem searchByDate_spec (items : list Item) (itemCount : Z) (typed dateQ : string) :
  getValidDate typed = Some dateQ →
  StronglySorted lt (searchByDate items itemCount dateQ) ∧
  ∀ i, i ∈ searchByDate items itemCount dateQ ↔
       (i < Z.to_nat itemCount)%nat ∧
       ∃ it, items !! i = Some it ∧ cstr (date it) = typed.
Proof.
  intros Hq.
  pose proof (getValidDate_stored typed dateQ Hq) as [_ Hc].
  destruct (collect_spec items (λ it, bool_decide (strcmp (date it) dateQ = Eq))
              (Z.to_nat itemCount)) as [Hs Hm].
  split; [exact Hs|]. intros i. unfold searchByDate. rewrite Hm.
  assert (Hiff : ∀ it, bool_decide (strcmp (date it) dateQ = Eq) = true
                       ↔ cstr (date it) = typed).
  { intros it. rewrite bool_decide_eq_true. unfold strcmp. rewrite Hc. split.
    - apply String.compare_eq_iff.
    - intros ->. apply string_compare_refl. }
  split; intros [Hi (it & Hit & H)]; (split; [exact Hi|]); exists it;
    (split; [exact Hit|]); by apply Hiff.
Qed.

Lemma searchByDate_spec_witness :
  StronglySorted lt (searchByDate exampleItems 2 (dateBuffer "2026-01-05")) ∧
  ∀ i, i ∈ searchByDate exampleItems 2 (dateBuffer "2026-01-05") ↔
       (i < Z.to_nat 2)%nat ∧
       ∃ it, exampleItems !! i = Some it ∧ cstr (date it) = "2026-01-05".
Proof.
  apply (searchByDate_spec exampleItems 2 "2026-01-05" (dateBuffer "2026-01-05")).
  reflexivity.
Defined.

(** ** Status input *)

(** X8: [getStatus] accepts exactly the texts equal to "lost" or "found"
    with letter case ignored, and hands on "Lost" or "Found" and nothing
    else; the status search made with the text handed on returns what it
    returns for the text as typed. *)
Theorem getStatus_spec (input : string) :
  (eq_nocase input "lost" → getStatus input = Some "Lost") ∧
  (eq_nocase input "found" → getStatus input = Some "Found") ∧
  (¬ eq_nocase input "lost" → ¬ eq_nocase input "found" → getStatus input = None) ∧
  (∀ s, getStatus input = Some s → s = "Lost" ∨ s = "Found") ∧
  (∀ s items itemCount, getStatus input = Some s →
     searchStatusMenu items itemCount input = Some (searchByStatus items itemCount input)).
Proof.
  unfold eq_nocase, getStatus. change (toLowerCase "lost") with "lost".
  change (toLowerCase "found") with "found".
  assert (Hsome : ∀ s,
    (if String.eqb (toLowerCase input) "lost" || String.eqb (toLowerCase input) "found"
     then match toLowerCase input with
          | EmptyString => Some (toLowerCase input)
          | String c rest => Some (String (toupper c) rest)
          end
     else None) = Some s →
    (s = "Lost" ∧ toLowerCase input = "lost") ∨
    (s = "Found" ∧ toLowerCase input = "found")).
  { intros s.
    destruct (String.eqb_spec (toLowerCase input) "lost") as [->|Hl].
    - intros [= <-]. by left.
    - destruct (String.eqb_spec (toLowerCase input) "found") as [->|Hf]; [|discriminate].
      intros [= <-]. by right. }
  split; [by intros ->|]. split; [by intros ->|]. split.
  - intros Hl Hf.
    destruct (String.eqb_spec (toLowerCase input) "lost"); [done|].
    by destruct (String.eqb_spec (toLowerCase input) "found").
  - split.
    + intros s Hs. destruct (Hsome s Hs) as [[-> _]|[-> _]]; auto.
    + intros s items itemCount Hs. unfold searchStatusMenu, getStatus.
      rewrite Hs. f_equal. unfold searchByStatus.
      destruct (Hsome s Hs) as [[-> ->]|[-> ->]]; reflexivity.
Qed.

(** ** Growing the array *)

(** X9: [resizeArray] doubles the capacity, keeps every record in its slot
    and fills the new slots with value-initialised records. *)
Theorem resizeArray_keeps_records (items : list Item) (capacity : Z) :
  Z.of_nat (length items) = capacity → capacity * 2 ≤ INT_MAX →
  snd (resizeArray items capacity) = capacity * 2 ∧
  Z.of_nat (length (fst (resizeArray items capacity))) = capacity * 2 ∧
  (∀ i, (i < length items)%nat → fst (resizeArray items capacity) !! i = items !! i) ∧
  (∀ i, (length items ≤ i < 2 * length items)%nat →
        fst (resizeArray items capacity) !! i = Some defaultItem) ∧
  (∀ n, n ≤ capacity → live (fst (resizeArray items capacity)) n = live items n).
Proof.
  intros Hlen Hmax. rewrite resizeArray_spec by done. simpl.
  split; [done|]. split; [rewrite length_app, length_replicate; lia|].
  split; [intros i Hi; by apply lookup_app_l|]. split.
  - intros i Hi. rewrite lookup_app_r by lia. apply lookup_replicate_2. lia.
  - intros n Hn. unfold live. apply take_app_le. lia.
Qed.

Lemma resizeArray_keeps_records_witness :
  snd (resizeArray exampleItems 10) = 10 * 2 ∧
  Z.of_nat (length (fst (resizeArray exampleItems 10))) = 10 * 2 ∧
  (∀ i, (i < length exampleItems)%nat →
        fst (resizeArray exampleItems 10) !! i = exampleItems !! i) ∧
  (∀ i, (length exampleItems ≤ i < 2 * length exampleItems)%nat →
        fst (resizeArray exampleItems 10) !! i = Some defaultItem) ∧
  (∀ n, n ≤ 10 → live (fst (resizeArray exampleItems 10)) n = live exampleItems n).
Proof.
  apply (resizeArray_keeps_records exampleItems 10).
  - reflexivity.
  - unfold INT_MAX. lia.
Defined.

(** ** Adding a record *)

(** The store an add operation saves, before it offers the search. *)
Lemma addItem_stored (statusLit : string) (canWrite : bool) (inp : ItemInput) (st : State) :
  size_range statusLit → Inv st → add_ok st inp →
  ∃ items2 capacity2,
    (∀ searchChoice picks,
       addItem statusLit canWrite inp searchChoice picks st =
       searchForMatches canWrite searchChoice picks
         (mkState items2 (itemCount st + 1) capacity2 (nextID st + 1)
            (saveToFile canWrite items2 (itemCount st + 1) (nextID st + 1)
               (fileBytes st)))) ∧
    live items2 (itemCount st + 1) =
      live (items st) (itemCount st) ++ [newRecord statusLit inp (nextID st)] ∧
    capacity2 = (if itemCount st =? capacity st then capacity st * 2 else capacity st) ∧
    Inv (mkState items2 (itemCount st + 1) capacity2 (nextID st + 1)
           (saveToFile canWrite items2 (itemCount st + 1) (nextID st + 1)
              (fileBytes st))).
Proof.
  intros Hstatus HI ((I1 & I2 & I3 & I4 & I5 & I6) & Hnext & Hroom).
  destruct HI as [((H0 & Hlen & Hst & Hu & Hlt) & Hnid & Hcap & [j Hj] & Hmax) Hd].
  unfold addItem.
  change (mkItem (nextID st) _ _ _ _ _ _ _ _ _ _ _)
    with (newRecord statusLit inp (nextID st)).
  set (newItem := newRecord statusLit inp (nextID st)).
  assert (Hw : int_wrap (nextID st + 1) = nextID st + 1).
  { apply int_wrap_small. unfold int_range, INT_MIN, INT_MAX in *. lia. }
  rewrite Hw.
  assert (Hnew : storable_item newItem).
  { unfold storable_item, newItem, newRecord, int_range, INT_MIN, INT_MAX in *. simpl.
    repeat split; try done; try lia. apply dateBuffer_length. }
  assert (Harr : ∃ items1 capacity1,
    (if itemCount st =? capacity st then resizeArray (items st) (capacity st)
     else (items st, capacity st)) = (items1, capacity1) ∧
    Z.of_nat (length items1) = capacity1 ∧ itemCount st < capacity1 ∧
    live items1 (itemCount st) = live (items st) (itemCount st) ∧
    (∃ j' : nat, capacity1 = 10 * 2 ^ Z.of_nat j') ∧ capacity1 ≤ INT_MAX ∧
    capacity1 = (if itemCount st =? capacity st then capacity st * 2 else capacity st)).
  { destruct (Z.eqb_spec (itemCount st) (capacity st)) as [Heq|Hne].
    - rewrite resizeArray_spec by (done || lia).
      eexists _, _. split; [reflexivity|].
      assert (0 < capacity st).
      { rewrite Hj. assert (0 < 2 ^ Z.of_nat j) by (apply Z.pow_pos_nonneg; lia). lia. }
      split; [rewrite length_app, length_replicate; lia|]. split; [lia|].
      split; [unfold live; apply take_app_le; lia|].
      split; [|split; [lia|done]].
      exists (S j). rewrite Nat2Z.inj_succ, Z.pow_succ_r by lia. lia.
    - eexists _, _. split; [reflexivity|]. split; [done|]. split; [lia|].
      split; [done|]. split; [by exists j|done]. }
  destruct Harr as (items1 & capacity1 & -> & Hcap1 & Hroom1 & Hlive1 & Hj1 & Hmax1 & Hc1).
  set (items2 := <[Z.to_nat (itemCount st) := newItem]> items1).
  assert (Hlive2 : live items2 (itemCount st + 1) =
                   live (items st) (itemCount st) ++ [newItem]).
  { unfold live, items2. replace (Z.to_nat (itemCount st + 1))
      with (S (Z.to_nat (itemCount st))) by lia.
    rewrite (take_S_r _ _ newItem) by (apply list_lookup_insert_eq; lia).
    rewrite take_insert_ge by lia. unfold live in Hlive1. by rewrite Hlive1. }
  assert (Hm2 : ∀ file, mem_inv (mkState items2 (itemCount st + 1) capacity1
                                   (nextID st + 1) file)).
  { intros file. unfold mem_inv, arr_inv, unique_ids. simpl. rewrite Hlive2.
    unfold items2. rewrite length_insert.
    repeat split; try done; try lia.
    - apply Forall_app. split; [done|]. by apply Forall_singleton.
    - rewrite fmap_app. apply NoDup_app. split; [done|]. split; [|apply NoDup_singleton].
      intros v Hv. simpl. rewrite list_elem_of_singleton. intros ->.
      apply list_elem_of_fmap in Hv as (it & Hit & Hin).
      rewrite Forall_forall in Hlt. specialize (Hlt it Hin). simpl in Hlt. lia.
    - apply Forall_app. split.
      + eapply Forall_impl; [exact Hlt|]. simpl. intros; lia.
      + apply Forall_singleton. simpl. lia.
    - unfold int_range, INT_MIN in *. lia. }
  exists items2, capacity1. split; [reflexivity|]. split; [exact Hlive2|].
  split; [exact Hc1|]. by apply Inv_saved.
Qed.

Lemma linked_to_fields (other : Z) (it : Item) :
  id (linked_to other it) = id it ∧ status (linked_to other it) = status it ∧
  matched (linked_to other it) = 1 ∧ matchedItemID (linked_to other it) = other ∧
  claimed (linked_to other it) = claimed it.
Proof. by destruct it. Qed.

(** The live records after [markAsMatched] on two live slots. *)
Lemma markAsMatched_live (n p1 p2 : nat) (items : list Item) (a b : Item) :
  p1 ≠ p2 → items !! p1 = Some a → items !! p2 = Some b →
  take n (markAsMatched p1 p2 items) =
  <[p1 := linked_to (id b) a]> (<[p2 := linked_to (id a) b]> (take n items)).
Proof.
  intros Hne Ha Hb.
  destruct (markAsMatched_lookup p1 p2 items a b Hne Ha Hb) as (H1 & H2 & H3).
  apply list_eq. intros j.
  destruct (decide (j < n)%nat) as [Hj|Hj].
  - rewrite lookup_take_lt by done.
    destruct (decide (j = p1)) as [->|Hj1].
    + rewrite H1, list_lookup_insert_eq; [done|].
      rewrite length_insert, length_take. apply lookup_lt_Some in Ha. lia.
    + rewrite list_lookup_insert_ne by done.
      destruct (decide (j = p2)) as [->|Hj2].
      * rewrite H2, list_lookup_insert_eq; [done|].
        rewrite length_take. apply lookup_lt_Some in Hb. lia.
      * rewrite list_lookup_insert_ne by done. rewrite H3 by done.
        by rewrite lookup_take_lt.
  - rewrite lookup_take_ge by lia. symmetry. apply lookup_ge_None.
    rewrite !length_insert, length_take. lia.
Qed.

(** What the loop asking for the id to match ends with. *)
Lemma pickLoop_first (items : list Item) (itemCount : Z) (newPos : nat)
    (matchIndices : list nat) (choice : Z) (rest : list Z) (c : nat) (cand : Item) :
  (Z.to_nat itemCount ≤ length items)%nat → unique_ids items itemCount →
  (c < Z.to_nat itemCount)%nat →
  c ∈ matchIndices → items !! c = Some cand → id cand = choice → choice ≠ 0 →
  pickLoop items itemCount newPos matchIndices (choice :: rest) =
  (markAsMatched newPos c items, true).
Proof.
  intros Hlen Hu Hc Hin Hcand Hid Hnz. simpl.
  destruct (Z.eqb_spec choice 0); [done|].
  assert (Hex : existsb (λ idx, match items !! idx with
                                | Some it => id it =? choice
                                | None => false
                                end) matchIndices = true).
  { apply existsb_exists. exists c. split; [by apply list_elem_of_In|].
    rewrite Hcand. by apply Z.eqb_eq. }
  rewrite Hex. unfold markMatchByID.
  destruct (firstWithID items 0 (Z.to_nat itemCount) choice) as [i|] eqn:Hi.
  - apply firstWithID_Some in Hi as (Hr & (it & Hit & Hidit) & _).
    assert (i = c) as ->; [|done].
    apply (unique_ids_pos items itemCount i c it cand); (done || lia || congruence).
  - exfalso. eapply (firstWithID_None items 0 (Z.to_nat itemCount) choice); try done.
    split; [lia|]. simpl. exact Hc.
Qed.

Lemma pickLoop_cases (items : list Item) (itemCount : Z) (newPos : nat)
    (matchIndices : list nat) (picks : list Z) :
  (Z.to_nat itemCount ≤ length items)%nat → unique_ids items itemCount →
  (∀ c, c ∈ matchIndices → (c < Z.to_nat itemCount)%nat) →
  pickLoop items itemCount newPos matchIndices picks = (items, false) ∨
  ∃ c cand, c ∈ matchIndices ∧ items !! c = Some cand ∧ id cand ∈ picks ∧ id cand ≠ 0 ∧
    pickLoop items itemCount newPos matchIndices picks =
    (markAsMatched newPos c items, true).
Proof.
  intros Hlen Hu Hidx. induction picks as [|choice rest IH]; [by left|].
  assert (Hrest : pickLoop items itemCount newPos matchIndices rest = (items, false) ∨
    ∃ c cand, c ∈ matchIndices ∧ items !! c = Some cand ∧ id cand ∈ choice :: rest ∧
      id cand ≠ 0 ∧
      pickLoop items itemCount newPos matchIndices rest =
      (markAsMatched newPos c items, true)).
  { destruct IH as [IH|(c & cand & ? & ? & ? & ? & ?)]; [by left|].
    right. exists c, cand. repeat split; try done. by apply list_elem_of_further. }
  destruct (Z.eqb_spec choice 0) as [Hz|Hnz].
  { left. simpl. by rewrite (proj2 (Z.eqb_eq choice 0) Hz). }
  destruct (existsb (λ idx, match items !! idx with
                            | Some it => id it =? choice
                            | None => false
                            end) matchIndices) eqn:Hex.
  - apply existsb_exists in Hex as (c & Hin & Hc). apply list_elem_of_In in Hin.
    destruct (items !! c) as [cand|] eqn:Hcand; [|done]. apply Z.eqb_eq in Hc.
    right. exists c, cand. split; [done|]. split; [done|].
    split; [rewrite Hc; apply list_elem_of_here|]. split; [lia|].
    apply (pickLoop_first _ _ _ _ _ _ c cand); auto.
  - simpl. rewrite (proj2 (Z.eqb_neq choice 0) Hnz), Hex. exact Hrest.
Qed.

(** [getItemByID] is a first-hit search in the live records. *)
Lemma firstWithID_find (items : list Item) (i r : nat) (idQ : Z) :
  firstWithID items i r idQ =
  (λ p, (i + p.1)%nat) <$> list_find (λ it, id it = idQ) (take r (drop i items)).
Proof.
  revert i. induction r as [|r IH]; intros i; [done|]. simpl.
  destruct (items !! i) as [it|] eqn:Hit.
  - rewrite (drop_S _ _ _ Hit). simpl.
    destruct (Z.eqb_spec (id it) idQ) as [He|Hne].
    + rewrite decide_True by done. simpl. f_equal. lia.
    + rewrite decide_False by done. rewrite IH.
      destruct (list_find _ _) as [[p x]|]; simpl; [f_equal; lia|done].
  - rewrite drop_ge by (by apply lookup_ge_None). by rewrite take_nil.
Qed.

Lemma getItemByID_find (items : list Item) (itemCount idQ : Z) :
  getItemByID items itemCount idQ =
  fst <$> list_find (λ it, id it = idQ) (live items itemCount).
Proof.
  unfold getItemByID, live. rewrite firstWithID_find, drop_0.
  by destruct (list_find _ _) as [[p x]|].
Qed.

Lemma getItemByID_Some (items : list Item) (itemCount idQ : Z) (p : nat) :
  getItemByID items itemCount idQ = Some p ↔
  ∃ it, live items itemCount !! p = Some it ∧ id it = idQ ∧
        ∀ j y, live items itemCount !! j = Some y → (j < p)%nat → id y ≠ idQ.
Proof.
  rewrite getItemByID_find. split.
  - destruct (list_find _ _) as [[q x]|] eqn:Hf; [|done]. intros [= <-].
    apply list_find_Some in Hf. by exists x.
  - intros (it & H1 & H2 & H3).
    by rewrite (proj2 (list_find_Some (λ it, id it = idQ) _ p it)).
Qed.

Lemma getItemByID_None (items : list Item) (itemCount idQ : Z) :
  getItemByID items itemCount idQ = None ↔
  Forall (λ it, id it ≠ idQ) (live items itemCount).
Proof.
  rewrite getItemByID_find. split.
  - destruct (list_find _ _) as [[q x]|] eqn:Hf; [done|]. intros _.
    by apply list_find_None in Hf.
  - intros Hall. by rewrite (proj2 (list_find_None (λ it, id it = idQ) _)).
Qed.

Lemma exampleState_Inv : Inv exampleState.
Proof.
  split; [|by left].
  destruct exampleItems_storable as (H0 & Hlen & _ & Hnid & Hst).
  split; [|split; [done|split; [done|split; [by exists 0%nat|unfold INT_MAX; simpl; lia]]]].
  split; [done|]. split; [done|]. split; [done|]. split.
  - unfold unique_ids, live. simpl. apply (bool_decide_unpack _). reflexivity.
  - unfold live. simpl. repeat constructor; simpl; lia.
Qed.

(** X10: an add without the search appends the record built from the texts
    typed as the last live record, under the id the counter held: count and
    counter go up by one, the earlier records keep their slots, the new id
    resolves to the new slot and every id that resolved before resolves to
    the same slot; the capacity doubles exactly when the array was full, and
    the file holds the new store when it can be written. *)
Theorem addItem_appends (statusLit : string) (canWrite : bool) (inp : ItemInput)
    (picks : list Z) (st : State) :
  size_range statusLit → Inv st → add_ok st inp →
  let st' := addItem statusLit canWrite inp false picks st in
  itemCount st' = itemCount st + 1 ∧
  nextID st' = nextID st + 1 ∧
  live (items st') (itemCount st') =
    live (items st) (itemCount st) ++ [newRecord statusLit inp (nextID st)] ∧
  capacity st' = (if itemCount st =? capacity st then capacity st * 2 else capacity st) ∧
  getItemByID (items st') (itemCount st') (nextID st) = Some (Z.to_nat (itemCount st)) ∧
  (∀ idQ p, getItemByID (items st) (itemCount st) idQ = Some p →
            getItemByID (items st') (itemCount st') idQ = Some p) ∧
  fileBytes st' =
    (if canWrite then Some (encode (items st') (itemCount st') (nextID st'))
     else fileBytes st).
Proof.
  intros Hstatus HI Hok.
  destruct (addItem_stored statusLit canWrite inp st Hstatus HI Hok)
    as (items2 & capacity2 & Hadd & Hlive2 & Hcap & HI2).
  destruct HI as [((H0 & Hlen & _ & _ & Hlt) & _) _].
  rewrite Hadd. unfold searchForMatches. simpl.
  assert (Hn : length (live (items st) (itemCount st)) = Z.to_nat (itemCount st)).
  { unfold live. apply length_take_le. lia. }
  split; [done|]. split; [done|]. split; [done|]. split; [done|]. split; [|split].
  - apply getItemByID_Some. exists (newRecord statusLit inp (nextID st)).
    rewrite Hlive2. split; [|split; [done|]].
    + rewrite lookup_app_r by lia. by rewrite Hn, Nat.sub_diag.
    + intros j y Hj Hlt'. rewrite lookup_app_l in Hj by lia.
      rewrite Forall_forall in Hlt. apply list_elem_of_lookup_2 in Hj.
      specialize (Hlt y Hj). simpl in Hlt. lia.
  - intros idQ p Hp. apply getItemByID_Some in Hp as (it & Hit & Hid & Hfirst).
    apply getItemByID_Some. exists it. rewrite Hlive2.
    pose proof (lookup_lt_Some _ _ _ Hit) as Hplt.
    split; [by rewrite lookup_app_l|]. split; [done|].
    intros j y Hj Hjp. rewrite lookup_app_l in Hj by lia. by apply (Hfirst j).
  - unfold saveToFile. by destruct canWrite.
Qed.

Lemma addItem_appends_witness :
  live (items (addItem "Found" true walletInput false [] exampleState))
       (itemCount (addItem "Found" true walletInput false [] exampleState)) =
  live (items exampleState) (itemCount exampleState) ++
  [newRecord "Found" walletInput (nextID exampleState)].
Proof.
  destruct (addItem_appends "Found" true walletInput [] exampleState)
    as (_ & _ & Hlive & _).
  - vm_compute. reflexivity.
  - exact exampleState_Inv.
  - split; [apply walletInput_ok|]. split; [vm_compute; reflexivity|].
    simpl. discriminate.
  - exact Hlive.
Defined.

(** What the search offered after an add ends with: the store as it was,
    or the new record linked with one candidate picked by its id. *)
Lemma searchForMatches_cases (canWrite searchChoice : bool) (picks : list Z)
    (st : State) (newItem : Item) :
  Inv st → 0 < itemCount st →
  items st !! Z.to_nat (itemCount st - 1) = Some newItem →
  searchForMatches canWrite searchChoice picks st = st ∨
  ∃ c cand, (c < Z.to_nat (itemCount st - 1))%nat ∧ items st !! c = Some cand ∧
    id cand ∈ picks ∧ id cand ≠ 0 ∧
    matched cand ≠ 1 ∧ status cand ≠ status newItem ∧ overlap cand newItem ∧
    searchForMatches canWrite searchChoice picks st =
    mkState (markAsMatched (Z.to_nat (itemCount st - 1)) c (items st))
      (itemCount st) (capacity st) (nextID st)
      (saveToFile canWrite (markAsMatched (Z.to_nat (itemCount st - 1)) c (items st))
         (itemCount st) (nextID st) (fileBytes st)).
Proof.
  intros HI Hpos Hnew. destruct HI as [((H0 & Hlen & _ & Hu & _) & _) _].
  unfold searchForMatches. destruct searchChoice; [|by left].
  destruct (0 <? _)%nat; [|by left].
  pose proof (findPotentialMatches_spec (items st) (itemCount st - 1) newItem)
    as [_ Hmem].
  assert (Hcand : candidatesForNew (items st) (itemCount st) =
                  findPotentialMatches (items st) (itemCount st - 1) newItem).
  { unfold candidatesForNew. by rewrite Hnew. }
  rewrite Hcand.
  destruct (pickLoop_cases (items st) (itemCount st) (Z.to_nat (itemCount st - 1))
              (findPotentialMatches (items st) (itemCount st - 1) newItem) picks)
    as [Hp|(c & cand & Hc & Hcd & Hin & Hnz & Hp)]; [done|done| | |].
  - intros c Hc. apply Hmem in Hc as [Hc _]. lia.
  - rewrite Hp. by left.
  - rewrite Hp. right. exists c, cand.
    apply Hmem in Hc as [Hc (cand' & Hcd' & Hm & Hs & Ho)].
    assert (cand' = cand) as -> by congruence. done.
Qed.

Lemma searchForMatches_first (canWrite : bool) (choice : Z) (rest : list Z)
    (st : State) (newItem : Item) (c : nat) (cand : Item) :
  Inv st → 0 < itemCount st →
  items st !! Z.to_nat (itemCount st - 1) = Some newItem →
  (c < Z.to_nat (itemCount st - 1))%nat → items st !! c = Some cand →
  id cand = choice → choice ≠ 0 →
  matched cand ≠ 1 → status cand ≠ status newItem → overlap cand newItem →
  searchForMatches canWrite true (choice :: rest) st =
  mkState (markAsMatched (Z.to_nat (itemCount st - 1)) c (items st))
    (itemCount st) (capacity st) (nextID st)
    (saveToFile canWrite (markAsMatched (Z.to_nat (itemCount st - 1)) c (items st))
       (itemCount st) (nextID st) (fileBytes st)).
Proof.
  intros HI Hpos Hnew Hc Hcd Hid Hnz Hm Hs Ho.
  destruct HI as [((H0 & Hlen & _ & Hu & _) & _) _].
  unfold searchForMatches.
  pose proof (findPotentialMatches_spec (items st) (itemCount st - 1) newItem)
    as [_ Hmem].
  assert (Hcand : candidatesForNew (items st) (itemCount st) =
                  findPotentialMatches (items st) (itemCount st - 1) newItem).
  { unfold candidatesForNew. by rewrite Hnew. }
  rewrite Hcand.
  assert (Hin : c ∈ findPotentialMatches (items st) (itemCount st - 1) newItem).
  { apply Hmem. split; [done|]. by exists cand. }
  assert (Hlt : (0 <? length (findPotentialMatches (items st) (itemCount st - 1)
                                newItem))%nat = true).
  { apply Nat.ltb_lt. destruct (findPotentialMatches _ _ _); [|simpl; lia].
    by apply elem_of_nil in Hin. }
  rewrite Hlt.
  by rewrite (pickLoop_first (items st) (itemCount st) _ _ choice rest c cand)
    by (done || lia).
Qed.

(** The live records once the new, last record is linked with record [c]. *)
Lemma markAsMatched_last (old : list Item) (items : list Item) (n : Z) (c : nat)
    (new cand : Item) :
  0 ≤ n → live items (n + 1) = old ++ [new] → length old = Z.to_nat n →
  old !! c = Some cand →
  live (markAsMatched (Z.to_nat (n + 1 - 1)) c items) (n + 1) =
  <[c := linked_to (id new) cand]> old ++ [linked_to (id cand) new].
Proof.
  intros H0 Hlive Hlen Hc. pose proof (lookup_lt_Some _ _ _ Hc) as Hclt.
  replace (n + 1 - 1) with n by lia.
  assert (Hnew : items !! Z.to_nat n = Some new).
  { rewrite <- (lookup_take_lt items (Z.to_nat (n + 1))) by lia.
    fold (live items (n + 1)). rewrite Hlive, lookup_app_r by lia.
    by rewrite Hlen, Nat.sub_diag. }
  assert (Hcand : items !! c = Some cand).
  { rewrite <- (lookup_take_lt items (Z.to_nat (n + 1))) by lia.
    fold (live items (n + 1)). by rewrite Hlive, lookup_app_l by lia. }
  unfold live. rewrite (markAsMatched_live _ _ _ _ new cand) by (done || lia).
  fold (live items (n + 1)). rewrite Hlive.
  rewrite (insert_app_l _ _ c) by lia.
  rewrite insert_app_r_alt by (rewrite length_insert; lia).
  by rewrite length_insert, Hlen, Nat.sub_diag.
Qed.

(** X11: an add with the search on ends either with the new record appended
    as it was built, or with it appended and linked with exactly one earlier
    record: one whose id was typed, that was not matched, whose status
    differs and whose fields overlap with the new record's; each of the two
    then carries matched = 1 and the other's id, and nothing else changes.
    When the first id typed is the id of such a record, the link is made
    with it. *)
Theorem addItem_search_outcome (statusLit : string) (canWrite : bool) (inp : ItemInput)
    (picks : list Z) (st : State) :
  size_range statusLit → Inv st → add_ok st inp →
  let st' := addItem statusLit canWrite inp true picks st in
  let old := live (items st) (itemCount st) in
  let new := newRecord statusLit inp (nextID st) in
  itemCount st' = itemCount st + 1 ∧
  nextID st' = nextID st + 1 ∧
  (live (items st') (itemCount st') = old ++ [new] ∨
   ∃ c cand, old !! c = Some cand ∧ id cand ∈ picks ∧ id cand ≠ 0 ∧
     matched cand ≠ 1 ∧ status cand ≠ statusLit ∧ overlap cand new ∧
     live (items st') (itemCount st') =
       <[c := linked_to (nextID st) cand]> old ++ [linked_to (id cand) new]) ∧
  (∀ choice rest c cand,
     picks = choice :: rest → old !! c = Some cand → id cand = choice → choice ≠ 0 →
     matched cand ≠ 1 → status cand ≠ statusLit → overlap cand new →
     live (items st') (itemCount st') =
       <[c := linked_to (nextID st) cand]> old ++ [linked_to choice new]).
Proof.
  intros Hstatus HI Hok.
  destruct (addItem_stored statusLit canWrite inp st Hstatus HI Hok)
    as (items2 & capacity2 & Hadd & Hlive2 & Hcap & HI2).
  destruct HI as [((H0 & Hlen & _ & _ & Hlt) & _) _].
  simpl. rewrite Hadd.
  set (st2 := mkState items2 _ _ _ _) in *.
  set (new := newRecord statusLit inp (nextID st)) in *.
  assert (Hn : length (live (items st) (itemCount st)) = Z.to_nat (itemCount st)).
  { unfold live. apply length_take_le. lia. }
  assert (Hnew : items st2 !! Z.to_nat (itemCount st2 - 1) = Some new).
  { simpl. rewrite <- (lookup_take_lt items2 (Z.to_nat (itemCount st + 1))) by lia.
    fold (live items2 (itemCount st + 1)). rewrite Hlive2, lookup_app_r by lia.
    replace (Z.to_nat (itemCount st + 1 - 1)) with (Z.to_nat (itemCount st)) by lia.
    by rewrite Hn, Nat.sub_diag. }
  assert (Hpos : 0 < itemCount st2) by (simpl; lia).
  assert (Hold : ∀ c cand, (c < Z.to_nat (itemCount st2 - 1))%nat →
            items st2 !! c = Some cand → live (items st) (itemCount st) !! c = Some cand).
  { simpl. intros c cand Hc Hcd.
    rewrite <- (lookup_take_lt items2 (Z.to_nat (itemCount st + 1))) in Hcd by lia.
    fold (live items2 (itemCount st + 1)) in Hcd.
    by rewrite Hlive2, lookup_app_l in Hcd by lia. }
  split; [|split; [|split]].
  - destruct (searchForMatches_cases canWrite true picks st2 new HI2 Hpos Hnew)
      as [->|(c & cand & _ & _ & _ & _ & _ & _ & _ & ->)]; done.
  - destruct (searchForMatches_cases canWrite true picks st2 new HI2 Hpos Hnew)
      as [->|(c & cand & _ & _ & _ & _ & _ & _ & _ & ->)]; done.
  - destruct (searchForMatches_cases canWrite true picks st2 new HI2 Hpos Hnew)
      as [->|(c & cand & Hc & Hcd & Hin & Hnz & Hm & Hs & Ho & ->)]; [by left|].
    right. exists c, cand. apply Hold in Hcd; [|done].
    repeat (split; [done|]). simpl.
    by rewrite (markAsMatched_last (live (items st) (itemCount st)) items2
                  (itemCount st) c new cand).
  - intros choice rest c cand -> Hcd Hid Hnz Hm Hs Ho.
    pose proof (lookup_lt_Some _ _ _ Hcd) as Hclt.
    assert (Hcd2 : items st2 !! c = Some cand).
    { simpl. rewrite <- (lookup_take_lt items2 (Z.to_nat (itemCount st + 1))) by lia.
      fold (live items2 (itemCount st + 1)). by rewrite Hlive2, lookup_app_l by lia. }
    rewrite (searchForMatches_first canWrite choice rest st2 new c cand)
      by (done || simpl; lia).
    simpl. rewrite <- Hid.
    by rewrite (markAsMatched_last (live (items st) (itemCount st)) items2
                  (itemCount st) c new cand).
Qed.

Lemma addItem_search_outcome_witness :
  live (items (addItem "Found" true walletInput true [100] exampleState))
       (itemCount (addItem "Found" true walletInput true [100] exampleState)) =
  <[0%nat := linked_to 102 walletLost]> (live (items exampleState) (itemCount exampleState))
    ++ [linked_to 100 (newRecord "Found" walletInput 102)].
Proof.
  destruct (addItem_search_outcome "Found" true walletInput [100] exampleState)
    as (_ & _ & _ & Hfirst).
  - vm_compute. reflexivity.
  - exact exampleState_Inv.
  - split; [apply walletInput_ok|]. split; [vm_compute; reflexivity|].
    simpl. discriminate.
  - apply (Hfirst 100 [] 0%nat walletLost); try reflexivity; try discriminate.
    apply fieldsOverlap_spec. reflexivity.
Defined.

Lemma recordByID_find (items : list Item) (itemCount idQ : Z) :
  recordByID items itemCount idQ =
  snd <$> list_find (λ it, id it = idQ) (live items itemCount).
Proof.
  unfold recordByID. rewrite getItemByID_find.
  destruct (list_find _ _) as [[p x]|] eqn:Hf; [|done]. simpl.
  apply list_find_Some in Hf as (Hp & _). unfold live in Hp.
  apply lookup_take_Some in Hp as [Hp _]. exact Hp.
Qed.

(** ** Updating a record *)

Lemma applyEdits_fixed (edits : list Edit) (it : Item) :
  id (foldl applyEdit it edits) = id it ∧
  status (foldl applyEdit it edits) = status it ∧
  matched (foldl applyEdit it edits) = matched it ∧
  claimed (foldl applyEdit it edits) = claimed it ∧
  matchedItemID (foldl applyEdit it edits) = matchedItemID it.
Proof.
  revert it. induction edits as [|e edits IH]; intros it; simpl; [done|].
  destruct (IH (applyEdit it e)) as (-> & -> & -> & -> & ->). by destruct e.
Qed.

(** X12: an update changes nothing but the texts of the record found: it
    fails with the store untouched when the store is empty or the id is not
    held by a live record; otherwise the first live record with that id has
    the edits applied and keeps its id, status, flags and link, every other
    slot is as before, count, counter and capacity are as before, and every
    id resolves to the same slot as before. *)
Theorem updateItem_frame (canWrite : bool) (idQ : Z) (edits : list Edit) (st : State) :
  let st' := fst (updateItem canWrite idQ edits st) in
  let o := snd (updateItem canWrite idQ edits st) in
  itemCount st' = itemCount st ∧ nextID st' = nextID st ∧ capacity st' = capacity st ∧
  length (items st') = length (items st) ∧
  (o = UpdateNoItems ↔ itemCount st = 0) ∧
  (o = Updated ↔
     itemCount st ≠ 0 ∧ ∃ p, getItemByID (items st) (itemCount st) idQ = Some p) ∧
  (o ≠ Updated → st' = st) ∧
  (∀ j a, items st !! j = Some a →
     ∃ a', items st' !! j = Some a' ∧
       id a' = id a ∧ status a' = status a ∧ matched a' = matched a ∧
       claimed a' = claimed a ∧ matchedItemID a' = matchedItemID a ∧
       (getItemByID (items st) (itemCount st) idQ ≠ Some j → a' = a) ∧
       (o = Updated → getItemByID (items st) (itemCount st) idQ = Some j →
          a' = foldl applyEdit a edits)) ∧
  (∀ idQ', getItemByID (items st') (itemCount st') idQ' =
           getItemByID (items st) (itemCount st) idQ').
Proof.
  unfold updateItem, getItemByID.
  destruct (Z.eqb_spec (itemCount st) 0) as [Hz|Hnz]; simpl.
  { split_and!; try done.
    - split; [done|]. by intros [? _].
    - intros j a Hj. exists a. by split_and!. }
  destruct (firstWithID (items st) 0 (Z.to_nat (itemCount st)) idQ) as [p|] eqn:Hp; simpl.
  - split_and!; try done.
    + apply length_alter.
    + split; [|done]. intros _. split; [done|by exists p].
    + intros j a Hj. destruct (decide (j = p)) as [->|Hne].
      * exists (foldl applyEdit a edits).
        destruct (applyEdits_fixed edits a) as (? & ? & ? & ? & ?).
        split_and!; try done.
        by rewrite list_lookup_alter_eq, Hj.
      * exists a. split_and!; try done.
        -- by rewrite list_lookup_alter_ne.
        -- by intros _ [= <-].
    + intros idQ'. apply firstWithID_ids. intros j.
      destruct (decide (j = p)) as [->|Hne].
      * rewrite list_lookup_alter_eq. destruct (items st !! p) as [a|]; [|done].
        simpl. f_equal. apply applyEdits_id.
      * by rewrite list_lookup_alter_ne.
  - split_and!; try done.
    + split; [done|]. by intros [_ [? ?]].
    + intros j a Hj. exists a. by split_and!.
Qed.

(** ** Deleting a record *)

Lemma list_find_delete_other {A : Type} (P : A → Prop) `{∀ x, Decision (P x)}
    (l : list A) (i : nat) (x : A) :
  l !! i = Some x → ¬ P x →
  snd <$> list_find P (delete i l) = snd <$> list_find P l.
Proof.
  revert i. induction l as [|y l IH]; intros i Hi Hx; [done|].
  destruct i as [|i]; simpl in *.
  - injection Hi as ->. rewrite decide_False by done.
    by destruct (list_find P l) as [[? ?]|].
  - destruct (decide (P y)); [done|].
    specialize (IH i Hi Hx).
    destruct (list_find P (delete i l)) as [[? ?]|], (list_find P l) as [[? ?]|];
      simpl in *; congruence.
Qed.

Lemma list_find_delete_hit {A : Type} (P : A → Prop) `{∀ x, Decision (P x)}
    (l : list A) (i : nat) :
  (∀ j y, l !! j = Some y → P y → j = i) →
  list_find P (delete i l) = None.
Proof.
  intros Hu. apply list_find_None, Forall_lookup. intros j y Hj Hy.
  destruct (decide (j < i)%nat) as [Hlt|Hge].
  - rewrite list_lookup_delete_lt in Hj by done. specialize (Hu j y Hj Hy). lia.
  - rewrite list_lookup_delete_ge in Hj by lia. specialize (Hu (S j) y Hj Hy). lia.
Qed.

Lemma recordByID_None (items : list Item) (itemCount idQ : Z) :
  recordByID items itemCount idQ = None ↔ getItemByID items itemCount idQ = None.
Proof.
  rewrite recordByID_find, getItemByID_find.
  by destruct (list_find _ _) as [[? ?]|].
Qed.

Lemma unique_ids_live (items : list Item) (itemCount : Z) (i j : nat) (a b : Item) :
  unique_ids items itemCount →
  live items itemCount !! i = Some a → live items itemCount !! j = Some b →
  id a = id b → i = j.
Proof.
  intros Hu Ha Hb Hid. unfold live in Ha, Hb.
  apply lookup_take_Some in Ha as [Ha Hi]. apply lookup_take_Some in Hb as [Hb Hj].
  by apply (unique_ids_pos items itemCount i j a b).
Qed.

(** What a confirmed delete of a live id leaves. *)
Lemma deleteItem_deleted (canWrite : bool) (st : State) (index : nat) (idQ : Z) :
  (Z.to_nat (itemCount st) ≤ length (items st))%nat →
  getItemByID (items st) (itemCount st) idQ = Some index →
  ∃ items', deleteItem canWrite idQ true st =
      (mkState items' (itemCount st - 1) (capacity st) (nextID st)
         (saveToFile canWrite items' (itemCount st - 1) (nextID st) (fileBytes st)),
       Deleted) ∧
    length items' = length (items st) ∧
    live items' (itemCount st - 1) = delete index (live (items st) (itemCount st)).
Proof.
  intros Hlen Hidx. unfold deleteItem. unfold getItemByID in Hidx.
  pose proof (firstWithID_Some _ _ _ _ _ Hidx) as (Hr & _).
  destruct (Z.eqb_spec (itemCount st) 0) as [Hz|Hnz]; [rewrite Hz in Hr; simpl in Hr; lia|].
  rewrite Hidx. simpl. eexists. split; [reflexivity|].
  split; [apply shiftDown_length|]. apply shiftDown_live; [done|lia].
Qed.

(** X13: a delete ends with "no items" exactly on an empty store, with "not
    found" exactly when no live record holds the id, with "cancelled"
    exactly when the record exists and the answer is no, and in these cases
    the store is untouched.  A confirmed delete of a live id takes the count
    down by one and leaves the counter as it is, so that the id is not given
    again; when ids are unique the id no longer resolves, and every other id
    resolves to the record it resolved to before. *)
Theorem deleteItem_outcomes (canWrite : bool) (idQ : Z) (confirm : bool) (st : State) :
  (Z.to_nat (itemCount st) ≤ length (items st))%nat →
  unique_ids (items st) (itemCount st) →
  let st' := fst (deleteItem canWrite idQ confirm st) in
  let o := snd (deleteItem canWrite idQ confirm st) in
  (o = DeleteNoItems ↔ itemCount st = 0) ∧
  (o = DeleteNotFound ↔
     itemCount st ≠ 0 ∧ recordByID (items st) (itemCount st) idQ = None) ∧
  (o = DeleteCancelled ↔
     itemCount st ≠ 0 ∧ recordByID (items st) (itemCount st) idQ ≠ None ∧
     confirm = false) ∧
  (o = Deleted ↔
     itemCount st ≠ 0 ∧ recordByID (items st) (itemCount st) idQ ≠ None ∧
     confirm = true) ∧
  (o ≠ Deleted → st' = st) ∧
  (o = Deleted →
     itemCount st' = itemCount st - 1 ∧ nextID st' = nextID st ∧
     capacity st' = capacity st ∧
     recordByID (items st') (itemCount st') idQ = None ∧
     ∀ idQ', idQ' ≠ idQ →
       recordByID (items st') (itemCount st') idQ' =
       recordByID (items st) (itemCount st) idQ').
Proof.
  intros Hlen Hu. simpl. rewrite recordByID_None.
  destruct (getItemByID (items st) (itemCount st) idQ) as [index|] eqn:Hidx.
  - destruct confirm.
    + destruct (deleteItem_deleted canWrite st index idQ Hlen Hidx)
        as (items' & -> & Hl & Hlive). simpl.
      pose proof Hidx as Hidx'. apply getItemByID_Some in Hidx' as (r & Hr & Hid & _).
      assert (Hnz : itemCount st ≠ 0).
      { intros Hz. unfold live in Hr. rewrite Hz in Hr. by rewrite take_0 in Hr. }
      split_and!; try done; try (split; [done|]; by intros (? & ? & ?)).
      * split; [done|]. by intros [_ ?].
      * intros _. split_and!; try done.
        -- rewrite recordByID_find, Hlive.
           rewrite (list_find_delete_hit (λ it, id it = idQ)); [done|].
           intros j y Hj Hy. apply (unique_ids_live (items st) (itemCount st) j index y r);
             (done || congruence).
        -- intros idQ' Hne. rewrite !recordByID_find, Hlive.
           apply (list_find_delete_other (λ it, id it = idQ') _ index r); [done|].
           congruence.
    + unfold deleteItem. unfold getItemByID in Hidx. rewrite Hidx.
      pose proof (firstWithID_Some _ _ _ _ _ Hidx) as (Hr & _).
      destruct (Z.eqb_spec (itemCount st) 0) as [Hz|Hnz];
        [rewrite Hz in Hr; simpl in Hr; lia|]. simpl.
      split_and!; try done; try (split; [done|]; by intros (? & ? & ?)).
      split; [done|]. by intros [_ ?].
  - unfold deleteItem. unfold getItemByID in Hidx. rewrite Hidx.
    destruct (Z.eqb_spec (itemCount st) 0) as [Hz|Hnz]; simpl.
    + split_and!; try done; try (split; [done|]; by intros (? & ? & ?)).
      split; [done|]. by intros [? _].
    + split_and!; try done; try (split; [done|]; by intros (? & ? & ?)).
Qed.

Lemma exampleState_unique : unique_ids (items exampleState) (itemCount exampleState).
Proof. destruct exampleState_Inv as [((_ & _ & _ & Hu & _) & _) _]. exact Hu. Qed.

Lemma deleteItem_outcomes_witness :
  snd (deleteItem true 100 true exampleState) = Deleted ∧
  recordByID (items (fst (deleteItem true 100 true exampleState)))
    (itemCount (fst (deleteItem true 100 true exampleState))) 100 = None.
Proof.
  destruct (deleteItem_outcomes true 100 true exampleState) as (_ & _ & _ & _ & _ & Hd).
  - simpl. lia.
  - exact exampleState_unique.
  - split; [reflexivity|]. by apply Hd.
Defined.

(** X14: deleting a record does not touch the link its counterpart holds.
    When [a] is matched with [b] and [b] is deleted, [a] stays matched and
    keeps the id of [b], which no longer resolves; claiming [a] then
    succeeds and sets the claimed flag of [a] alone. *)
Theorem claim_after_counterpart_deleted (canWrite : bool) (st : State)
    (pa pb : nat) (a b : Item) :
  (Z.to_nat (itemCount st) ≤ length (items st))%nat →
  unique_ids (items st) (itemCount st) →
  live (items st) (itemCount st) !! pa = Some a →
  live (items st) (itemCount st) !! pb = Some b →
  pa ≠ pb → matched a ≠ 0 → claimed a ≠ 1 → matchedItemID a = id b →
  let st1 := fst (deleteItem canWrite (id b) true st) in
  let st2 := fst (markAsClaimed canWrite (id a) st1) in
  snd (deleteItem canWrite (id b) true st) = Deleted ∧
  recordByID (items st1) (itemCount st1) (id b) = None ∧
  recordByID (items st1) (itemCount st1) (id a) = Some a ∧
  snd (markAsClaimed canWrite (id a) st1) = ClaimDone ∧
  itemCount st2 = itemCount st - 1 ∧
  live (items st2) (itemCount st2) =
    alter (set_claimed 1) (if decide (pa < pb)%nat then pa else pred pa)
      (delete pb (live (items st) (itemCount st))).
Proof.
  intros Hlen Hu Ha Hb Hne Hm Hc Hlink.
  assert (Hgb : getItemByID (items st) (itemCount st) (id b) = Some pb).
  { apply getItemByID_Some. exists b. split; [done|]. split; [done|].
    intros j y Hj Hlt Hid.
    pose proof (unique_ids_live (items st) (itemCount st) j pb y b Hu Hj Hb Hid). lia. }
  destruct (deleteItem_deleted canWrite st pb (id b) Hlen Hgb) as (items1 & Hdel & Hl1 & Hlive1).
  simpl. rewrite Hdel. simpl.
  set (pa' := if decide (pa < pb)%nat then pa else pred pa).
  assert (Hida : id a ≠ id b).
  { intros Hid. by pose proof (unique_ids_live _ _ pa pb a b Hu Ha Hb Hid). }
  assert (Ha1 : live items1 (itemCount st - 1) !! pa' = Some a).
  { rewrite Hlive1. unfold pa'. destruct (decide (pa < pb)%nat).
    - by rewrite list_lookup_delete_lt.
    - rewrite list_lookup_delete_ge by lia. by replace (S (pred pa)) with pa by lia. }
  assert (Hu1 : ∀ j y, live items1 (itemCount st - 1) !! j = Some y →
                       id y = id a → j = pa').
  { intros j y Hj Hid. rewrite Hlive1 in Hj. unfold pa'.
    destruct (decide (j < pb)%nat).
    - rewrite list_lookup_delete_lt in Hj by done.
      pose proof (unique_ids_live _ _ j pa y a Hu Hj Ha Hid) as ->.
      by rewrite decide_True.
    - rewrite list_lookup_delete_ge in Hj by lia.
      pose proof (unique_ids_live _ _ (S j) pa y a Hu Hj Ha Hid) as <-.
      rewrite decide_False by lia. done. }
  assert (Hga : getItemByID items1 (itemCount st - 1) (id a) = Some pa').
  { apply getItemByID_Some. exists a. split; [done|]. split; [done|].
    intros j y Hj Hlt Hid. specialize (Hu1 j y Hj Hid). lia. }
  assert (Hnob : getItemByID items1 (itemCount st - 1) (id b) = None).
  { apply recordByID_None. rewrite recordByID_find, Hlive1.
    rewrite (list_find_delete_hit (λ it, id it = id b)); [done|].
    intros j y Hj Hy. by apply (unique_ids_live (items st) (itemCount st) j pb y b). }
  assert (Ha1' : items1 !! pa' = Some a).
  { unfold live in Ha1. by apply lookup_take_Some in Ha1 as [? _]. }
  split; [done|]. split; [by apply recordByID_None|].
  split; [unfold recordByID; by rewrite Hga|].
  unfold markAsClaimed. simpl. rewrite Hga, Ha1'.
  destruct (Z.eqb_spec (matched a) 0); [done|].
  destruct (Z.eqb_spec (claimed a) 1); [done|].
  rewrite Hlink, getItemByID_set_claimed, Hnob. simpl.
  split; [done|]. split; [done|].
  assert (Hpa' : (pa' < Z.to_nat (itemCount st - 1))%nat).
  { apply lookup_lt_Some in Ha1. unfold live in Ha1. rewrite length_take in Ha1. lia. }
  destruct (negb (id b =? -1)); rewrite <- Hlive1; unfold live;
    by rewrite take_alter_lt.
Qed.

Lemma claim_after_counterpart_deleted_witness :
  snd (markAsClaimed true 100 (fst (deleteItem true 101 true matchedState))) = ClaimDone ∧
  recordByID (items (fst (deleteItem true 101 true matchedState)))
    (itemCount (fst (deleteItem true 101 true matchedState))) 101 = None.
Proof.
  destruct (claim_after_counterpart_deleted true matchedState 0 1
              (linked_to 101 walletLost) (linked_to 100 walletFound))
    as (_ & Hgone & _ & Hdone & _); try done.
  - simpl. lia.
  - unfold unique_ids, live. simpl. apply (bool_decide_unpack _). reflexivity.
Defined.

(** ** Matching two records by their ids *)

(** With unique ids the scan without [break] ends where [getItemByID] does. *)
Lemma findBoth_unique (items : list Item) (itemCount id1 id2 : Z) :
  (Z.to_nat itemCount ≤ length items)%nat → unique_ids items itemCount →
  findBoth items itemCount id1 id2 =
  (getItemByID items itemCount id1, getItemByID items itemCount id2).
Proof.
  intros Hlen Hu.
  assert (Hgen : ∀ idQ o, is_last_hit items (Z.to_nat itemCount) idQ o →
                          o = getItemByID items itemCount idQ).
  { intros idQ [p|] Ho; simpl in Ho; symmetry.
    - destruct Ho as (Hp & (it & Hit & Hid) & _).
      apply getItemByID_Some. exists it. unfold live.
      split; [by rewrite lookup_take_lt|]. split; [done|].
      intros j y Hj Hjp Hy. rewrite lookup_take_lt in Hj by lia.
      assert (j = p); [|lia].
      apply (unique_ids_pos items itemCount j p y it); (done || lia || congruence).
    - apply getItemByID_None, Forall_lookup. intros j y Hj. unfold live in Hj.
      apply lookup_take_Some in Hj as [Hj Hlt]. by apply (Ho j). }
  destruct (findBoth_spec items itemCount id1 id2) as [H1 H2].
  destruct (findBoth items itemCount id1 id2) as [o1 o2]. simpl in *.
  by rewrite (Hgen id1 o1 H1), (Hgen id2 o2 H2).
Qed.

Lemma getItemByID_lookup (items : list Item) (itemCount idQ : Z) (p : nat) :
  getItemByID items itemCount idQ = Some p →
  (p < Z.to_nat itemCount)%nat ∧ ∃ it, items !! p = Some it ∧ id it = idQ.
Proof.
  intros Hp. apply getItemByID_Some in Hp as (it & Hit & Hid & _).
  unfold live in Hit. apply lookup_take_Some in Hit as [Hit Hlt]. eauto.
Qed.

Lemma getItemByID_markAsMatched (p1 p2 : nat) (items : list Item) (itemCount idQ : Z) :
  getItemByID (markAsMatched p1 p2 items) itemCount idQ = getItemByID items itemCount idQ.
Proof.
  unfold getItemByID, markAsMatched. apply firstWithID_ids.
  assert (Hal : ∀ (f : Item → Item) (p : nat) (l : list Item) (j : nat),
                (∀ x, id (f x) = id x) →
                id <$> alter f p l !! j = id <$> l !! j).
  { intros f p l j Hf. destruct (decide (j = p)) as [->|Hne].
    - rewrite list_lookup_alter_eq. destruct (l !! p); simpl; [by rewrite Hf|done].
    - by rewrite list_lookup_alter_ne. }
  intros j.
  set (items1 := alter (set_matched 1) p1 items).
  set (items2 := alter (set_matched 1) p2 items1).
  set (items3 := match items2 !! p2 with
                 | Some item2 => alter (set_matchedItemID (id item2)) p1 items2
                 | None => items2
                 end).
  assert (H3 : id <$> items3 !! j = id <$> items !! j).
  { unfold items3. destruct (items2 !! p2).
    - rewrite Hal by done. unfold items2, items1. by rewrite !Hal.
    - unfold items2, items1. by rewrite !Hal. }
  destruct (items3 !! p1); [by rewrite Hal|done].
Qed.

(** X15: with unique ids, the explicit match of two ids ends with each of
    its messages in exactly one situation, checked in this order: fewer
    than two records; equal ids; an id that no live record holds; both
    records "Lost" or both "Found"; a record already matched.  Otherwise it
    succeeds: each of the two records gets matched = 1 and the other's id,
    every other id resolves to an unchanged record, and in every other case
    the store is untouched. *)
Theorem markItemAsMatched_outcomes (canWrite : bool) (id1 id2 : Z) (st : State) :
  (Z.to_nat (itemCount st) ≤ length (items st))%nat →
  unique_ids (items st) (itemCount st) →
  let st' := fst (markItemAsMatched canWrite id1 id2 st) in
  let o := snd (markItemAsMatched canWrite id1 id2 st) in
  let bothStatus (a b : Item) (s : string) := status a = s ∧ status b = s in
  (o = MatchNotEnoughItems ↔ itemCount st < 2) ∧
  (o = MatchSelf ↔ 2 ≤ itemCount st ∧ id1 = id2) ∧
  (o = MatchNotFound ↔
     2 ≤ itemCount st ∧ id1 ≠ id2 ∧
     (recordByID (items st) (itemCount st) id1 = None ∨
      recordByID (items st) (itemCount st) id2 = None)) ∧
  (∀ a b, 2 ≤ itemCount st → id1 ≠ id2 →
     recordByID (items st) (itemCount st) id1 = Some a →
     recordByID (items st) (itemCount st) id2 = Some b →
     (o = MatchSameStatus ↔ bothStatus a b "Lost" ∨ bothStatus a b "Found") ∧
     (o = MatchAlreadyMatched ↔
        ¬ (bothStatus a b "Lost" ∨ bothStatus a b "Found") ∧
        (matched a ≠ 0 ∨ matched b ≠ 0)) ∧
     (o = MatchDone ↔
        ¬ (bothStatus a b "Lost" ∨ bothStatus a b "Found") ∧
        matched a = 0 ∧ matched b = 0) ∧
     (o = MatchDone →
        recordByID (items st') (itemCount st') id1 = Some (linked_to id2 a) ∧
        recordByID (items st') (itemCount st') id2 = Some (linked_to id1 b) ∧
        ∀ idQ, idQ ≠ id1 → idQ ≠ id2 →
          recordByID (items st') (itemCount st') idQ =
          recordByID (items st) (itemCount st) idQ)) ∧
  (o ≠ MatchDone → st' = st) ∧
  itemCount st' = itemCount st ∧ nextID st' = nextID st ∧ capacity st' = capacity st.
Proof.
  intros Hlen Hu. simpl. unfold markItemAsMatched.
  destruct (Z.ltb_spec (itemCount st) 2) as [Hlt|Hge]; simpl.
  { split_and!; try done; try (split; intros; intuition (congruence || lia)). }
  destruct (Z.eqb_spec id1 id2) as [Heq|Hne]; simpl.
  { split_and!; try done; try (split; intros; intuition (congruence || lia)). }
  rewrite (findBoth_unique _ _ _ _ Hlen Hu). rewrite !recordByID_None.
  destruct (getItemByID (items st) (itemCount st) id1) as [p1|] eqn:Hp1; swap 1 2.
  { simpl. split_and!; try done; try (split; intros; intuition (congruence || lia)).
    intros a b _ _ Ha. apply (proj2 (recordByID_None _ _ _)) in Hp1. congruence. }
  destruct (getItemByID (items st) (itemCount st) id2) as [p2|] eqn:Hp2; swap 1 2.
  { simpl. split_and!; try done; try (split; intros; intuition (congruence || lia)).
    intros a b _ _ _ Hb. apply (proj2 (recordByID_None _ _ _)) in Hp2. congruence. }
  destruct (getItemByID_lookup _ _ _ _ Hp1) as (Hlt1 & a & Ha & Hida).
  destruct (getItemByID_lookup _ _ _ _ Hp2) as (Hlt2 & b & Hb & Hidb).
  assert (Hp12 : p1 ≠ p2) by congruence.
  rewrite Ha, Hb.
  assert (Hsame : (String.eqb (status a) "Lost" && String.eqb (status b) "Lost") ||
                  (String.eqb (status a) "Found" && String.eqb (status b) "Found") = true
                  ↔ (status a = "Lost" ∧ status b = "Lost") ∨
                    (status a = "Found" ∧ status b = "Found")).
  { rewrite orb_true_iff, !andb_true_iff, !String.eqb_eq. done. }
  assert (Hmat : negb (matched a =? 0) || negb (matched b =? 0) = true
                 ↔ matched a ≠ 0 ∨ matched b ≠ 0).
  { rewrite orb_true_iff, !negb_true_iff, !Z.eqb_neq. done. }
  assert (Hrec : ∀ a' b', recordByID (items st) (itemCount st) id1 = Some a' →
                          recordByID (items st) (itemCount st) id2 = Some b' →
                          a' = a ∧ b' = b).
  { intros a' b'. unfold recordByID. rewrite Hp1, Hp2. simpl. rewrite Ha, Hb.
    by intros [= <-] [= <-]. }
  destruct (_ || _) eqn:Hs in |- *; simpl.
  { apply Hsame in Hs.
    split_and!; try done; try (split; intros; intuition (congruence || lia)).
    intros a' b' _ _ Ha' Hb'. destruct (Hrec a' b' Ha' Hb') as [-> ->].
    split_and!; try done; try (split; intros; intuition (congruence || lia)). }
  assert (Hns : ¬ ((status a = "Lost" ∧ status b = "Lost") ∨
                   (status a = "Found" ∧ status b = "Found"))).
  { intros H. apply Hsame in H. congruence. }
  destruct (negb (matched a =? 0) || negb (matched b =? 0)) eqn:Hm in |- *; simpl.
  { apply Hmat in Hm.
    split_and!; try done; try (split; intros; intuition (congruence || lia)).
    intros a' b' _ _ Ha' Hb'. destruct (Hrec a' b' Ha' Hb') as [-> ->].
    split_and!; try done; try (split; intros; intuition (congruence || lia)). }
  assert (Hnm : matched a = 0 ∧ matched b = 0).
  { destruct (Z.eqb_spec (matched a) 0), (Z.eqb_spec (matched b) 0); simpl in Hm;
      done. }
  destruct (markAsMatched_lookup p1 p2 (items st) a b Hp12 Ha Hb) as (H1 & H2 & H3).
  split_and!; try done; try (split; intros; intuition (congruence || lia)).
  intros a' b' _ _ Ha' Hb'. destruct (Hrec a' b' Ha' Hb') as [-> ->].
  split_and!; try done; try (split; intros; intuition (congruence || lia)).
  intros _. unfold recordByID. rewrite !getItemByID_markAsMatched, Hp1, Hp2. simpl.
  rewrite H1, H2. unfold linked_to. rewrite Hida, Hidb.
  split_and!; try done.
  intros idQ Hq1 Hq2. rewrite getItemByID_markAsMatched.
  destruct (getItemByID (items st) (itemCount st) idQ) as [q|] eqn:Hq; [|done].
  simpl. destruct (getItemByID_lookup _ _ _ _ Hq) as (_ & x & Hx & Hidx).
  apply H3; intros ->; congruence.
Qed.

Lemma markItemAsMatched_outcomes_witness :
  snd (markItemAsMatched true 100 101 exampleState) = MatchDone ∧
  recordByID (items (fst (markItemAsMatched true 100 101 exampleState)))
    (itemCount (fst (markItemAsMatched true 100 101 exampleState))) 100 =
  Some (linked_to 101 walletLost).
Proof.
  destruct (markItemAsMatched_outcomes true 100 101 exampleState)
    as (_ & _ & _ & Hfound & _).
  - simpl. lia.
  - exact exampleState_unique.
  - destruct (Hfound walletLost walletFound) as (_ & _ & _ & Hdone);
      [simpl; lia|lia|reflexivity|reflexivity|].
    split; [reflexivity|]. apply Hdone. reflexivity.
Defined.

(** ** Claiming *)

Lemma set_claimed_idemp (x : Item) : set_claimed 1 (set_claimed 1 x) = set_claimed 1 x.
Proof. by destruct x. Qed.

(** X16: a successful claim changes nothing but claimed flags, which it sets
    to 1 on at most the record asked for and its counterpart; claiming the
    same id again is rejected as already claimed and leaves the store as it
    is, and so is a claim of the counterpart when that record is matched. *)
Theorem markAsClaimed_again (canWrite canWrite' : bool) (idQ : Z) (st : State) :
  snd (markAsClaimed canWrite idQ st) = ClaimDone →
  let st1 := fst (markAsClaimed canWrite idQ st) in
  markAsClaimed canWrite' idQ st1 = (st1, ClaimAlreadyClaimed) ∧
  itemCount st1 = itemCount st ∧ nextID st1 = nextID st ∧ capacity st1 = capacity st ∧
  (∀ idQ', getItemByID (items st1) (itemCount st1) idQ' =
           getItemByID (items st) (itemCount st) idQ') ∧
  (∀ j x, items st !! j = Some x →
          items st1 !! j = Some x ∨ items st1 !! j = Some (set_claimed 1 x)) ∧
  (∀ a b, recordByID (items st) (itemCount st) idQ = Some a →
          matchedItemID a ≠ -1 →
          recordByID (items st) (itemCount st) (matchedItemID a) = Some b →
          matched b ≠ 0 →
          markAsClaimed canWrite' (id b) st1 = (st1, ClaimAlreadyClaimed)).
Proof.
  intros Hdone.
  assert (Hform : ∃ p item,
    getItemByID (items st) (itemCount st) idQ = Some p ∧ items st !! p = Some item ∧
    matched item ≠ 0 ∧
    markAsClaimed canWrite idQ st =
    (let items1 := alter (set_claimed 1) p (items st) in
     let items2 :=
       if negb (matchedItemID item =? -1)
       then match getItemByID items1 (itemCount st) (matchedItemID item) with
            | Some q => alter (set_claimed 1) q items1
            | None => items1
            end
       else items1 in
     (mkState items2 (itemCount st) (capacity st) (nextID st)
        (saveToFile canWrite items2 (itemCount st) (nextID st) (fileBytes st)),
      ClaimDone))).
  { unfold markAsClaimed in *.
    destruct (getItemByID (items st) (itemCount st) idQ) as [p|]; [|done].
    destruct (items st !! p) as [item|] eqn:Hitem; [|done].
    destruct (Z.eqb_spec (matched item) 0) as [|Hm]; [done|].
    destruct (Z.eqb_spec (claimed item) 1) as [|Hc]; [done|].
    by exists p, item. }
  destruct Hform as (p & item & Hp & Hitem & Hm & ->). clear Hdone. simpl.
  set (items1 := alter (set_claimed 1) p (items st)).
  set (items2 := if negb (matchedItemID item =? -1)
                 then match getItemByID items1 (itemCount st) (matchedItemID item) with
                      | Some q => alter (set_claimed 1) q items1
                      | None => items1
                      end
                 else items1).
  assert (Hget : ∀ idQ', getItemByID items2 (itemCount st) idQ' =
                         getItemByID (items st) (itemCount st) idQ').
  { intros idQ'. unfold items2, items1.
    destruct (negb _); [|apply getItemByID_set_claimed].
    destruct (getItemByID _ _ (matchedItemID item)).
    - by rewrite !getItemByID_set_claimed.
    - apply getItemByID_set_claimed. }
  assert (H1 : ∀ j x, items st !! j = Some x →
             items1 !! j = Some x ∨ items1 !! j = Some (set_claimed 1 x)).
  { intros j x Hx. unfold items1. destruct (decide (j = p)) as [->|Hne].
    - right. by rewrite list_lookup_alter_eq, Hx.
    - left. by rewrite list_lookup_alter_ne. }
  assert (Hq : ∀ q j x, items st !! j = Some x →
             alter (set_claimed 1) q items1 !! j = Some x ∨
             alter (set_claimed 1) q items1 !! j = Some (set_claimed 1 x)).
  { intros q j x Hx. destruct (decide (j = q)) as [->|Hne].
    - right. rewrite list_lookup_alter_eq.
      destruct (H1 q x Hx) as [->| ->]; simpl; [done|by rewrite set_claimed_idemp].
    - rewrite list_lookup_alter_ne by done. by apply H1. }
  assert (H2 : ∀ j x, items st !! j = Some x →
             items2 !! j = Some x ∨ items2 !! j = Some (set_claimed 1 x)).
  { intros j x Hx. unfold items2. destruct (negb _); [|by apply H1].
    destruct (getItemByID _ _ (matchedItemID item)); [by apply Hq|by apply H1]. }
  assert (Hp2 : ∃ item', items2 !! p = Some item' ∧ matched item' = matched item ∧
                         claimed item' = 1).
  { assert (Hp1 : items1 !! p = Some (set_claimed 1 item)).
    { unfold items1. by rewrite list_lookup_alter_eq, Hitem. }
    unfold items2. destruct (negb _); [|by eexists].
    destruct (getItemByID _ _ (matchedItemID item)) as [q|]; [|by eexists].
    destruct (decide (p = q)) as [<-|Hne].
    - rewrite list_lookup_alter_eq, Hp1. by eexists.
    - rewrite list_lookup_alter_ne by done. by eexists. }
  split_and!; try done.
  - unfold markAsClaimed. simpl. rewrite Hget, Hp.
    destruct Hp2 as (item' & -> & Hm' & Hc'). rewrite Hm', Hc'.
    by destruct (Z.eqb_spec (matched item) 0).
  - intros a b Ha Hlink Hb Hmb.
    unfold recordByID in Ha, Hb. rewrite Hp in Ha. simpl in Ha.
    assert (a = item) as -> by congruence.
    destruct (getItemByID (items st) (itemCount st) (matchedItemID item)) as [q|] eqn:Hgq;
      [|done]. simpl in Hb.
    destruct (getItemByID_lookup _ _ _ _ Hgq) as (_ & b' & Hb' & Hidb).
    assert (b' = b) as -> by congruence.
    assert (Hq2 : items2 !! q = Some (set_claimed 1 b)).
    { unfold items2. rewrite (proj2 (Z.eqb_neq _ _) Hlink). simpl.
      unfold items1 at 1. rewrite getItemByID_set_claimed, Hgq.
      rewrite list_lookup_alter_eq.
      destruct (H1 q b Hb) as [->| ->]; simpl; [done|by rewrite set_claimed_idemp]. }
    unfold markAsClaimed. simpl. rewrite Hget, Hidb, Hgq, Hq2.
    assert (Hmb' : matched (set_claimed 1 b) = matched b) by (by destruct b).
    assert (Hcb' : claimed (set_claimed 1 b) = 1) by (by destruct b).
    rewrite Hmb', Hcb'. by destruct (Z.eqb_spec (matched b) 0).
Qed.

Lemma markAsClaimed_again_witness :
  markAsClaimed false 100 (fst (markAsClaimed true 100 matchedState)) =
  (fst (markAsClaimed true 100 matchedState), ClaimAlreadyClaimed).
Proof.
  apply (markAsClaimed_again true false 100 matchedState). reflexivity.
Defined.

(** ** Sorting: the order reached *)

Lemma string_compare_cons (a b : ascii) (s t : string) :
  String.compare (String a s) (String b t) =
  match (N_of_ascii a ?= N_of_ascii b)%N with
  | Eq => String.compare s t
  | Lt => Lt
  | Gt => Gt
  end.
Proof. reflexivity. Qed.

Lemma string_compare_lt_trans (s t u : string) :
  String.compare s t = Lt → String.compare t u = Lt → String.compare s u = Lt.
Proof.
  revert t u. induction s as [|a s IH]; intros [|b t] [|c u]; try done.
  rewrite !string_compare_cons.
  destruct (N.compare_spec (N_of_ascii a) (N_of_ascii b)) as [Hab|Hab|Hab]; [| |done];
    destruct (N.compare_spec (N_of_ascii b) (N_of_ascii c)) as [Hbc|Hbc|Hbc]; try done;
    destruct (N.compare_spec (N_of_ascii a) (N_of_ascii c)) as [Hac|Hac|Hac];
    try done; try lia.
  apply IH.
Qed.

Lemma key_compare_antisym (a b : Z + string) :
  key_compare a b = CompOpp (key_compare b a).
Proof.
  destruct a, b; simpl; try done.
  - apply Z.compare_antisym.
  - apply String.compare_antisym.
Qed.

Lemma key_compare_eq (a b : Z + string) : key_compare a b = Eq ↔ a = b.
Proof.
  destruct a as [x|s], b as [y|t]; simpl; try done.
  - rewrite Z.compare_eq_iff. split; congruence.
  - split; [by intros ->%String.compare_eq_iff|]. intros [= ->].
    apply string_compare_refl.
Qed.

Lemma key_compare_lt_trans (a b c : Z + string) :
  key_compare a b = Lt → key_compare b c = Lt → key_compare a c = Lt.
Proof.
  destruct a, b, c; simpl; try done.
  - rewrite !Z.compare_lt_iff. lia.
  - apply string_compare_lt_trans.
Qed.

(** "Not after" is transitive. *)
Lemma key_compare_le_trans (a b c : Z + string) :
  key_compare a b ≠ Gt → key_compare b c ≠ Gt → key_compare a c ≠ Gt.
Proof.
  intros Hab Hbc.
  destruct (key_compare a b) eqn:H1; [| |done].
  - apply key_compare_eq in H1 as ->. done.
  - destruct (key_compare b c) eqn:H2; [| |done].
    + apply key_compare_eq in H2 as ->. by rewrite H1.
    + by rewrite (key_compare_lt_trans a b c).
Qed.

Lemma key_compare_ge_trans (a b c : Z + string) :
  key_compare a b ≠ Lt → key_compare b c ≠ Lt → key_compare a c ≠ Lt.
Proof.
  rewrite (key_compare_antisym a b), (key_compare_antisym b c),
    (key_compare_antisym a c).
  intros Hab Hbc Hac.
  apply (key_compare_le_trans c b a).
  - by destruct (key_compare c b).
  - by destruct (key_compare b a).
  - by destruct (key_compare c a).
Qed.

(** The swap condition of every sort is a comparison of the keys. *)
Lemma swapCond_compare (k : SortKey) (flag : bool) (x y : Item) :
  swapCond k flag x y =
  bool_decide (key_compare (sortKey k x) (sortKey k y) =
               if ascends k flag then Gt else Lt).
Proof.
  destruct k, flag; simpl;
    unfold idCond, nameCond, categoryCond, dateCond, statusCond, string_gt, string_lt,
      strcmp; simpl; rewrite ?orb_false_r;
    try (destruct (String.compare _ _); done).
  - destruct (Z.gtb_spec (id x) (id y)) as [H|H].
    + by rewrite bool_decide_eq_true_2 by (apply Z.compare_gt_iff; lia).
    + rewrite bool_decide_eq_false_2; [done|]. rewrite Z.compare_gt_iff. lia.
  - destruct (Z.ltb_spec (id x) (id y)) as [H|H].
    + by rewrite bool_decide_eq_true_2 by (apply Z.compare_lt_iff; lia).
    + rewrite bool_decide_eq_false_2; [done|]. rewrite Z.compare_lt_iff. lia.
Qed.

Lemma swapCond_false (k : SortKey) (flag : bool) (x y : Item) :
  swapCond k flag x y = false ↔ in_order k flag x y.
Proof. rewrite swapCond_compare. apply bool_decide_eq_false. Qed.

Lemma swapCond_asym (k : SortKey) (flag : bool) (x y : Item) :
  swapCond k flag x y = true → swapCond k flag y x = false.
Proof.
  rewrite !swapCond_compare, bool_decide_eq_true, bool_decide_eq_false.
  rewrite (key_compare_antisym (sortKey k y)). intros ->.
  by destruct (ascends k flag).
Qed.

Lemma swapCond_trans (k : SortKey) (flag : bool) (x y z : Item) :
  swapCond k flag x y = false → swapCond k flag y z = false →
  swapCond k flag x z = false.
Proof.
  rewrite !swapCond_false. unfold in_order. destruct (ascends k flag).
  - apply key_compare_le_trans.
  - apply key_compare_ge_trans.
Qed.

Lemma sortBy_sorted (k : SortKey) (flag : bool) (items : list Item) (itemCount : Z) :
  (Z.to_nat itemCount ≤ length items)%nat →
  StronglySorted (in_order k flag) (live (sortBy k flag items itemCount) itemCount).
Proof.
  intros Hlen. rewrite sortBy_bubbleSort.
  apply StronglySorted_lookup_2. intros a b x y Hab Hx Hy.
  unfold live in Hx, Hy.
  apply lookup_take_Some in Hx as [Hx Ha]. apply lookup_take_Some in Hy as [Hy Hb].
  apply swapCond_false.
  apply (bubbleSort_in_order (swapCond k flag) (swapCond_asym k flag)
           (swapCond_trans k flag) items itemCount Hlen a b x y); (done || lia).
Qed.

Lemma StronglySorted_weaken {A : Type} (R R' : relation A) (l : list A) :
  (∀ x y, R x y → R' x y) → StronglySorted R l → StronglySorted R' l.
Proof.
  intros HR Hs. induction Hs as [|x l Hs IH Hall]; constructor; [done|].
  eapply Forall_impl; [exact Hall|]. apply HR.
Qed.

Lemma StronglySorted_lookup_1 {A : Type} (R : relation A) (l : list A)
    (a b : nat) (x y : A) :
  StronglySorted R l → (a < b)%nat → l !! a = Some x → l !! b = Some y → R x y.
Proof.
  intros Hs. revert a b. induction Hs as [|z l Hs IH Hall]; intros a b Hab Hx Hy;
    [done|].
  destruct b as [|b]; [lia|]. simpl in Hy. destruct a as [|a]; simpl in Hx.
  - injection Hx as ->. rewrite Forall_lookup in Hall. by apply (Hall b).
  - apply (IH a b); (done || lia).
Qed.

(** X17: each of the five sorts, in either direction, leaves the live
    records in the order of its key (rising, or falling, as the flag asks;
    equal keys may follow each other), as a rearrangement of the live
    records, and leaves the slots after them and the length of the array as
    they were. *)
Theorem sort_in_order (k : SortKey) (flag : bool) (items : list Item) (itemCount : Z) :
  (Z.to_nat itemCount ≤ length items)%nat →
  StronglySorted (in_order k flag) (live (sortBy k flag items itemCount) itemCount) ∧
  live (sortBy k flag items itemCount) itemCount ≡ₚ live items itemCount ∧
  drop (Z.to_nat itemCount) (sortBy k flag items itemCount) =
    drop (Z.to_nat itemCount) items ∧
  length (sortBy k flag items itemCount) = length items.
Proof.
  intros Hlen. split; [by apply sortBy_sorted|].
  rewrite sortBy_bubbleSort. apply (swaps_perm (swapCond k flag)), bubbleSort_swaps.
Qed.

Lemma sort_in_order_witness :
  StronglySorted (in_order ByName false) (live (sortBy ByName false exampleItems 2) 2).
Proof.
  apply (sort_in_order ByName false exampleItems 2). simpl. lia.
Defined.

(** X18: what the two numbers typed in the sort menu ask for.  Choices 1 to
    3 with order 1 give rising ids, names and categories, with order 2
    falling ones; for the date, order 1 ("Recent First") gives falling dates
    and order 2 rising ones; for the status, order 1 ("Lost First") leaves no
    "Found" record before a "Lost" one and order 2 no "Lost" record before a
    "Found" one; any other choice leaves the array as it is. *)
Theorem sortChoice_orders (items : list Item) (itemCount : Z) :
  (Z.to_nat itemCount ≤ length items)%nat →
  let sorted (R : relation Item) (choice order : Z) :=
    StronglySorted R (live (sortChoice choice order items itemCount) itemCount) in
  sorted (λ x y, id x ≤ id y) 1 1 ∧
  sorted (λ x y, id y ≤ id x) 1 2 ∧
  sorted (λ x y, String.compare (name x) (name y) ≠ Gt) 2 1 ∧
  sorted (λ x y, String.compare (name x) (name y) ≠ Lt) 2 2 ∧
  sorted (λ x y, String.compare (category x) (category y) ≠ Gt) 3 1 ∧
  sorted (λ x y, String.compare (category x) (category y) ≠ Lt) 3 2 ∧
  sorted (λ x y, strcmp (date x) (date y) ≠ Lt) 4 1 ∧
  sorted (λ x y, strcmp (date x) (date y) ≠ Gt) 4 2 ∧
  sorted (λ x y, ¬ (status x = "Found" ∧ status y = "Lost")) 5 1 ∧
  sorted (λ x y, ¬ (status x = "Lost" ∧ status y = "Found")) 5 2 ∧
  (∀ choice order, choice < 1 ∨ 5 < choice →
     sortChoice choice order items itemCount = items).
Proof.
  intros Hlen. simpl.
  assert (Hs : ∀ k flag (R : relation Item),
    (∀ x y, in_order k flag x y → R x y) →
    StronglySorted R (live (sortBy k flag items itemCount) itemCount)).
  { intros k flag R HR. eapply StronglySorted_weaken; [exact HR|].
    by apply sortBy_sorted. }
  split_and!.
  - apply (Hs ByID true). unfold in_order. simpl. intros x y. rewrite Z.compare_gt_iff. lia.
  - apply (Hs ByID false). unfold in_order. simpl. intros x y. rewrite Z.compare_lt_iff. lia.
  - by apply (Hs ByName true).
  - by apply (Hs ByName false).
  - by apply (Hs ByCategory true).
  - by apply (Hs ByCategory false).
  - by apply (Hs ByDate false).
  - by apply (Hs ByDate true).
  - apply (Hs ByStatus true). unfold in_order. simpl. intros x y Hc [Hx Hy].
    rewrite Hx, Hy in Hc. by apply Hc.
  - apply (Hs ByStatus false). unfold in_order. simpl. intros x y Hc [Hx Hy].
    rewrite Hx, Hy in Hc. by apply Hc.
  - intros choice order Hc. unfold sortChoice.
    destruct (Z.eqb_spec choice 1); [lia|]. destruct (Z.eqb_spec choice 2); [lia|].
    destruct (Z.eqb_spec choice 3); [lia|]. destruct (Z.eqb_spec choice 4); [lia|].
    destruct (Z.eqb_spec choice 5); [lia|]. done.
Qed.

Lemma sortChoice_orders_witness :
  StronglySorted (λ x y, strcmp (date x) (date y) ≠ Lt)
    (live (sortChoice 4 1 exampleItems 2) 2).
Proof.
  destruct (sortChoice_orders exampleItems 2) as (_ & _ & _ & _ & _ & _ & Hd & _).
  - simpl. lia.
  - exact Hd.
Defined.

Lemma for_loop_fixed {S : Type} (lo hi : nat) (body : nat → S → S) (s : S) :
  (∀ i, (lo ≤ i < hi)%nat → body i s = s) → for_loop lo hi body s = s.
Proof.
  intros Hb. destruct (decide (lo ≤ hi)%nat) as [Hle|]; [|apply for_loop_nil; lia].
  refine (for_loop_inv (λ _ x, x = s) lo hi body s Hle eq_refl _).
  intros i x Hi ->. by apply Hb.
Qed.

(** An array whose neighbours are in order is left as it is. *)
Lemma bubbleSort_fixed (outOfOrder : Item → Item → bool) (items : list Item)
    (itemCount : Z) :
  (∀ j x y, (j + 1 < Z.to_nat itemCount)%nat →
            items !! j = Some x → items !! (j + 1)%nat = Some y →
            outOfOrder x y = false) →
  bubbleSort outOfOrder items itemCount = items.
Proof.
  intros Hord. unfold bubbleSort. apply for_loop_fixed. intros i Hi.
  apply for_loop_fixed. intros j Hj. unfold bubbleStep.
  destruct (items !! j) as [x|] eqn:Hx; [|done].
  destruct (items !! (j + 1)%nat) as [y|] eqn:Hy; [|done].
  rewrite (Hord j x y); (done || lia).
Qed.

(** X19: a sort leaves an array whose live records are already in the order
    asked for exactly as it is, so sorting a second time by the same key and
    direction changes nothing. *)
Theorem sort_idempotent (k : SortKey) (flag : bool) (items : list Item) (itemCount : Z) :
  (Z.to_nat itemCount ≤ length items)%nat →
  (StronglySorted (in_order k flag) (live items itemCount) →
   sortBy k flag items itemCount = items) ∧
  sortBy k flag (sortBy k flag items itemCount) itemCount = sortBy k flag items itemCount.
Proof.
  intros Hlen.
  assert (Hfix : ∀ l, StronglySorted (in_order k flag) (live l itemCount) →
                      sortBy k flag l itemCount = l).
  { intros l Hs. rewrite sortBy_bubbleSort. apply bubbleSort_fixed.
    intros j x y Hj Hx Hy. apply swapCond_false.
    apply (StronglySorted_lookup_1 _ _ j (j + 1) x y Hs); [lia| |];
      unfold live; by rewrite lookup_take_lt by lia. }
  split; [apply Hfix|]. by apply Hfix, sortBy_sorted.
Qed.

Lemma sort_idempotent_witness :
  sortBy ByDate false (sortBy ByDate false exampleItems 2) 2 =
  sortBy ByDate false exampleItems 2.
Proof.
  apply (sort_idempotent ByDate false exampleItems 2). simpl. lia.
Defined.

(** ** Sessions: the records stay consistent *)

Lemma SInv_Inv (st : State) : SInv st → Inv st.
Proof.
  intros (Hm & _ & Hd). split; [done|].
  destruct Hd as [->|[->|(items0 & n & nid & -> & ? & ? & ? & _)]];
    [by left|by right; left|].
  right; right. by exists items0, n, nid.
Qed.

Lemma record_ok_core (x x' : Item) : same_core x x' → record_ok x → record_ok x'.
Proof.
  intros (Hi & Hs & Hm & Hc & Hl) ((H1 & H2 & H3) & H4 & H5 & H6).
  unfold record_ok, valid_flags. rewrite Hi, Hs, Hm, Hc, Hl. done.
Qed.

(** Consistency depends on ids, status, flags and links only, and is kept
    when records are dropped or rearranged. *)
Lemma store_ok_map (l l' : list Item) (nid : Z) :
  (∀ x', x' ∈ l' → ∃ x, x ∈ l ∧ same_core x x') →
  store_ok l nid → store_ok l' nid.
Proof.
  intros Hmap (Hnid & Hrec & Hlt & Hlinks).
  rewrite Forall_forall in Hrec. rewrite Forall_forall in Hlt.
  split; [done|]. split; [|split].
  - apply Forall_forall. intros x' Hx'. destruct (Hmap x' Hx') as (x & Hx & Hcore).
    by apply (record_ok_core x x'), Hrec.
  - apply Forall_forall. intros x' Hx'.
    destruct (Hmap x' Hx') as (x & Hx & (_ & _ & Hm & _ & Hl)).
    rewrite Hm, Hl. by apply Hlt.
  - intros a' b' Ha' Hb'.
    destruct (Hmap a' Ha') as (a & Ha & (Hia & Hsa & Hma & Hca & Hla)).
    destruct (Hmap b' Hb') as (b & Hb & (Hib & Hsb & Hmb & Hcb & Hlb)).
    rewrite Hia, Hsa, Hma, Hca, Hla, Hib, Hsb, Hmb, Hcb, Hlb. by apply Hlinks.
Qed.

Lemma same_core_refl (x : Item) : same_core x x.
Proof. done. Qed.

Lemma store_ok_perm (l l' : list Item) (nid : Z) :
  l' ≡ₚ l → store_ok l nid → store_ok l' nid.
Proof.
  intros Hp. apply store_ok_map. intros x Hx. exists x. split; [|done].
  by rewrite <- Hp.
Qed.

Lemma store_ok_delete (l : list Item) (i : nat) (nid : Z) :
  store_ok l nid → store_ok (delete i l) nid.
Proof.
  apply store_ok_map. intros x Hx. exists x. split; [|done].
  apply list_elem_of_lookup in Hx as [j Hj]. apply list_elem_of_lookup.
  destruct (decide (j < i)%nat).
  - exists j. by rewrite list_lookup_delete_lt in Hj.
  - exists (S j). by rewrite list_lookup_delete_ge in Hj by lia.
Qed.

Lemma store_ok_alter (f : Item → Item) (p : nat) (l : list Item) (nid : Z) :
  (∀ x, same_core x (f x)) → store_ok l nid → store_ok (alter f p l) nid.
Proof.
  intros Hf. apply store_ok_map. intros x' Hx'.
  apply list_elem_of_lookup in Hx' as [j Hj].
  destruct (decide (j = p)) as [->|Hne].
  - rewrite list_lookup_alter_eq in Hj. destruct (l !! p) as [x|] eqn:Hx; [|done].
    injection Hj as <-. exists x. split; [by eapply list_elem_of_lookup_2|apply Hf].
  - rewrite list_lookup_alter_ne in Hj by done. exists x'.
    split; [by eapply list_elem_of_lookup_2|done].
Qed.

Lemma NoDup_ids_eq (l : list Item) (x y : Item) :
  NoDup (id <$> l) → x ∈ l → y ∈ l → id x = id y → x = y.
Proof. apply NoDup_fmap_elem_inj. Qed.

Lemma opposite_status_ne' (s t : string) : opposite_status s t → s ≠ t.
Proof. by intros [[-> ->]|[-> ->]]. Qed.

Lemma opposite_status_sym (s t : string) : opposite_status s t → opposite_status t s.
Proof. intros [[-> ->]|[-> ->]]; [by right|by left]. Qed.

(** Linking two unmatched records of opposite status keeps consistency. *)
Lemma store_ok_link (l l' : list Item) (nid : Z) (a b : Item) :
  store_ok l nid → NoDup (id <$> l) → Forall (λ it, id it < nid) l →
  a ∈ l → b ∈ l → matched a = 0 → matched b = 0 →
  opposite_status (status a) (status b) →
  (∀ x', x' ∈ l' →
     x' = linked_to (id b) a ∨ x' = linked_to (id a) b ∨
     (x' ∈ l ∧ id x' ≠ id a ∧ id x' ≠ id b)) →
  store_ok l' nid.
Proof.
  intros (Hnid & Hrec & Hlt & Hlinks) Hnd Hids Ha Hb Hma Hmb Hopp Hmem.
  rewrite Forall_forall in Hrec. rewrite Forall_forall in Hlt.
  rewrite Forall_forall in Hids.
  destruct (Hrec a Ha) as ((Hsa & _ & Hca) & Hia & Hua & _).
  destruct (Hrec b Hb) as ((Hsb & _ & Hcb) & Hib & Hub & _).
  destruct (Hua Hma) as [_ Hca0]. destruct (Hub Hmb) as [_ Hcb0].
  pose proof (linked_to_fields (id b) a) as (Ea1 & Ea2 & Ea3 & Ea4 & Ea5).
  pose proof (linked_to_fields (id a) b) as (Eb1 & Eb2 & Eb3 & Eb4 & Eb5).
  assert (Hab : id a ≠ id b).
  { intros Hid. pose proof (NoDup_ids_eq l a b Hnd Ha Hb Hid) as ->.
    by apply opposite_status_ne' in Hopp. }
  split; [done|]. split; [|split].
  - apply Forall_forall. intros x' Hx'.
    destruct (Hmem x' Hx') as [->|[->|(Hx & _)]]; [| |by apply Hrec].
    + unfold record_ok, valid_flags. rewrite Ea1, Ea2, Ea3, Ea4, Ea5.
      split_and!; try done; try lia; try (by right).
    + unfold record_ok, valid_flags. rewrite Eb1, Eb2, Eb3, Eb4, Eb5.
      split_and!; try done; try lia; try (by right).
  - apply Forall_forall. intros x' Hx'.
    destruct (Hmem x' Hx') as [->|[->|(Hx & _)]]; [| |by apply Hlt].
    + rewrite Ea4. intros _. by apply Hids.
    + rewrite Eb4. intros _. by apply Hids.
  - intros x y Hx Hy Hmx Hlx.
    destruct (Hmem x Hx) as [->|[->|(Hx0 & Hxa & Hxb)]];
      destruct (Hmem y Hy) as [->|[->|(Hy0 & Hya & Hyb)]];
      rewrite ?Ea1, ?Ea2, ?Ea3, ?Ea4, ?Ea5, ?Eb1, ?Eb2, ?Eb3, ?Eb4, ?Eb5 in *;
      try congruence.
    + split_and!; first [done | congruence].
    + split_and!; first [done | congruence | by apply opposite_status_sym].
    + destruct (Hlinks x a Hx0 Ha Hmx Hlx) as (? & _). congruence.
    + destruct (Hlinks x b Hx0 Hb Hmx Hlx) as (? & _). congruence.
    + by apply Hlinks.
Qed.

(** Claiming a matched record together with its counterpart, when that one
    is live, keeps consistency. *)
Lemma store_ok_claim (l l' : list Item) (nid : Z) (a : Item) :
  store_ok l nid → NoDup (id <$> l) →
  a ∈ l → matched a = 1 →
  (∀ x', x' ∈ l' → ∃ x, x ∈ l ∧
     ((x' = x ∧ id x ≠ id a ∧ id x ≠ matchedItemID a) ∨
      (x' = set_claimed 1 x ∧ (id x = id a ∨ id x = matchedItemID a)))) →
  store_ok l' nid.
Proof.
  intros (Hnid & Hrec & Hlt & Hlinks) Hnd Ha Hma Hmem.
  rewrite Forall_forall in Hrec. rewrite Forall_forall in Hlt.
  assert (Hin : ∀ x, x ∈ l → id x = id a ∨ id x = matchedItemID a → matched x = 1).
  { intros x Hx [Hid|Hid].
    - by rewrite (NoDup_ids_eq l x a Hnd Hx Ha Hid).
    - by destruct (Hlinks a x Ha Hx Hma (eq_sym Hid)) as (? & _). }
  assert (Hclosed : ∀ x y, x ∈ l → y ∈ l → matched x = 1 → matchedItemID x = id y →
    (id x = id a ∨ id x = matchedItemID a) ↔ (id y = id a ∨ id y = matchedItemID a)).
  { intros x y Hx Hy Hmx Hlx.
    destruct (Hlinks x y Hx Hy Hmx Hlx) as (Hmy & Hly & _).
    split; intros [Hid|Hid].
    - right. rewrite <- Hlx. by rewrite (NoDup_ids_eq l x a Hnd Hx Ha Hid).
    - left. destruct (Hlinks a x Ha Hx Hma (eq_sym Hid)) as (_ & Hl & _). congruence.
    - right. pose proof (NoDup_ids_eq l y a Hnd Hy Ha Hid) as ->. congruence.
    - left. destruct (Hlinks a y Ha Hy Hma (eq_sym Hid)) as (_ & Hl & _). congruence. }
  assert (Hsc : ∀ x, id (set_claimed 1 x) = id x ∧ status (set_claimed 1 x) = status x ∧
                     matched (set_claimed 1 x) = matched x ∧
                     matchedItemID (set_claimed 1 x) = matchedItemID x ∧
                     claimed (set_claimed 1 x) = 1).
  { by intros []. }
  split; [done|]. split; [|split].
  - apply Forall_forall. intros x' Hx'.
    destruct (Hmem x' Hx') as (x & Hx & [(-> & _)|(-> & Hid)]); [by apply Hrec|].
    destruct (Hsc x) as (E1 & E2 & E3 & E4 & E5).
    destruct (Hrec x Hx) as ((Hs & Hm & Hc) & Hi & Hu & Hk).
    unfold record_ok, valid_flags. rewrite E1, E2, E3, E4, E5.
    split_and!; try done; try (by right).
    intros Hm0. rewrite (Hin x Hx Hid) in Hm0. lia.
  - apply Forall_forall. intros x' Hx'.
    destruct (Hmem x' Hx') as (x & Hx & [(-> & _)|(-> & Hid)]); [by apply Hlt|].
    destruct (Hsc x) as (E1 & E2 & E3 & E4 & E5). rewrite E3, E4. by apply Hlt.
  - intros x' y' Hx' Hy' Hmx Hlx.
    destruct (Hmem x' Hx') as (x & Hx & Hcx). destruct (Hmem y' Hy') as (y & Hy & Hcy).
    destruct (Hsc x) as (Ex1 & Ex2 & Ex3 & Ex4 & Ex5).
    destruct (Hsc y) as (Ey1 & Ey2 & Ey3 & Ey4 & Ey5).
    assert (Hxy : matched x = 1 ∧ matchedItemID x = id y).
    { destruct Hcx as [(-> & _)|(-> & _)], Hcy as [(-> & _)|(-> & _)];
        rewrite ?Ex1, ?Ex3, ?Ex4, ?Ey1 in *; done. }
    destruct Hxy as [Hmx0 Hlx0].
    destruct (Hlinks x y Hx Hy Hmx0 Hlx0) as (Hmy & Hly & Hcl & Hop).
    pose proof (Hclosed x y Hx Hy Hmx0 Hlx0) as Hcls.
    destruct Hcx as [(-> & Hx1 & Hx2)|(-> & Hxin)], Hcy as [(-> & Hy1 & Hy2)|(-> & Hyin)];
      rewrite ?Ex1, ?Ex2, ?Ex3, ?Ex4, ?Ex5, ?Ey1, ?Ey2, ?Ey3, ?Ey4, ?Ey5; try done.
    + exfalso. apply Hcls in Hyin as [?|?]; done.
    + exfalso. apply Hcls in Hxin as [?|?]; done.
Qed.

(** A fresh, unmatched record at the end keeps consistency. *)
Lemma store_ok_new (l : list Item) (nid : Z) (new : Item) :
  store_ok l nid → Forall (λ it, id it < nid) l →
  id new = nid → (status new = "Lost" ∨ status new = "Found") →
  matched new = 0 → claimed new = 0 → matchedItemID new = -1 →
  store_ok (l ++ [new]) (nid + 1).
Proof.
  intros (Hnid & Hrec & Hlt & Hlinks) Hids Hid Hst Hm Hc Hl.
  rewrite Forall_forall in Hids. rewrite Forall_forall in Hlt.
  split; [lia|]. split; [|split].
  - apply Forall_app. split; [done|]. apply Forall_singleton.
    unfold record_ok, valid_flags. rewrite Hid, Hm, Hc, Hl.
    split_and!; try done; try lia; try (by left).
  - apply Forall_app. split.
    + apply Forall_forall. intros x Hx Hmx. specialize (Hlt x Hx Hmx). lia.
    + apply Forall_singleton. rewrite Hm. lia.
  - intros x y Hx Hy Hmx Hlx.
    apply elem_of_app in Hx as [Hx|Hx%list_elem_of_singleton];
      [|subst x; rewrite Hm in Hmx; lia].
    apply elem_of_app in Hy as [Hy|Hy%list_elem_of_singleton]; [by apply Hlinks|].
    subst y. specialize (Hlt x Hx Hmx). lia.
Qed.

Lemma disk_store_saved (canWrite : bool) (st : State) (file : option (list byte)) :
  mem_inv st → store_ok (live (items st) (itemCount st)) (nextID st) →
  disk_store_ok file →
  disk_store_ok (saveToFile canWrite (items st) (itemCount st) (nextID st) file).
Proof.
  intros Hm Hs Hd. unfold saveToFile. destruct canWrite; [|done].
  right; right. exists (items st), (itemCount st), (nextID st).
  pose proof (mem_inv_can_grow st Hm). destruct Hm as (? & ? & _). done.
Qed.

Lemma SInv_saved (canWrite : bool) (items' : list Item) (n' cap' nid' : Z)
    (file file0 : option (list byte)) :
  mem_inv (mkState items' n' cap' nid' file0) → store_ok (live items' n') nid' →
  disk_store_ok file →
  SInv (mkState items' n' cap' nid' (saveToFile canWrite items' n' nid' file)).
Proof.
  intros Hm Hs Hd. split; [exact Hm|]. split; [exact Hs|].
  by apply (disk_store_saved canWrite (mkState items' n' cap' nid' file0)).
Qed.

Lemma live_alter (f : Item → Item) (p : nat) (items : list Item) (n : Z) :
  live (alter f p items) n =
  if decide (p < Z.to_nat n)%nat then alter f p (live items n) else live items n.
Proof.
  unfold live. destruct (decide (p < Z.to_nat n)%nat).
  - by apply take_alter_lt.
  - apply take_alter_ge. lia.
Qed.

Lemma updateItem_sinv (canWrite : bool) (idQ : Z) (edits : list Edit) (st : State) :
  SInv st → mem_inv (fst (updateItem canWrite idQ edits st)) →
  SInv (fst (updateItem canWrite idQ edits st)).
Proof.
  intros HS. pose proof HS as (_ & Hs & Hd). unfold updateItem.
  destruct (itemCount st =? 0); [done|].
  destruct (firstWithID _ _ _ _) as [p|]; [|done]. simpl. intros Hm.
  apply (SInv_saved _ _ _ _ _ _ (fileBytes st)); [done| |done].
  rewrite live_alter. destruct (decide _); [|done].
  apply store_ok_alter; [|done]. intros x.
  destruct (applyEdits_fixed edits x) as (? & ? & ? & ? & ?). done.
Qed.

Lemma deleteItem_sinv (canWrite : bool) (idQ : Z) (confirm : bool) (st : State) :
  SInv st → mem_inv (fst (deleteItem canWrite idQ confirm st)) →
  SInv (fst (deleteItem canWrite idQ confirm st)).
Proof.
  intros HS. pose proof HS as (((_ & Hlen & _) & _) & Hs & Hd).
  destruct (getItemByID (items st) (itemCount st) idQ) as [index|] eqn:Hidx.
  - destruct confirm.
    + destruct (deleteItem_deleted canWrite st index idQ Hlen Hidx)
        as (items' & -> & _ & Hlive). simpl. intros Hm.
      apply (SInv_saved _ _ _ _ _ _ (fileBytes st)); [done| |done].
      rewrite Hlive. by apply store_ok_delete.
    + unfold deleteItem. unfold getItemByID in Hidx. rewrite Hidx.
      by destruct (itemCount st =? 0).
  - unfold deleteItem. unfold getItemByID in Hidx. rewrite Hidx.
    by destruct (itemCount st =? 0).
Qed.

Lemma unique_ids_lookup_ne (items : list Item) (n : Z) (i j : nat) (x y : Item) :
  unique_ids items n → live items n !! i = Some x → live items n !! j = Some y →
  i ≠ j → id x ≠ id y.
Proof.
  intros Hu Hx Hy Hne Hid. by apply Hne, (unique_ids_live items n i j x y).
Qed.

Lemma markAsClaimed_sinv (canWrite : bool) (idQ : Z) (st : State) :
  SInv st → mem_inv (fst (markAsClaimed canWrite idQ st)) →
  SInv (fst (markAsClaimed canWrite idQ st)).
Proof.
  intros HS. pose proof HS as (((_ & Hlen & _ & Hu & _) & _) & Hs & Hd).
  unfold markAsClaimed.
  destruct (getItemByID (items st) (itemCount st) idQ) as [p|] eqn:Hp; [|done].
  destruct (getItemByID_lookup _ _ _ _ Hp) as (Hpn & a & Ha & Hida).
  rewrite Ha.
  destruct (Z.eqb_spec (matched a) 0) as [|Hm0]; [done|].
  destruct (claimed a =? 1); [done|]. simpl. intros Hm.
  apply (SInv_saved _ _ _ _ _ _ (fileBytes st)); [done| |done].
  assert (Hal : live (items st) (itemCount st) !! p = Some a).
  { unfold live. by rewrite lookup_take_lt. }
  assert (Hain : a ∈ live (items st) (itemCount st)) by (by eapply list_elem_of_lookup_2).
  pose proof Hs as (_ & Hrec & _ & _). rewrite Forall_forall in Hrec.
  destruct (Hrec a Hain) as ((_ & [?|Hm1] & _) & _); [done|].
  apply (store_ok_claim (live (items st) (itemCount st)) _ _ a); try done.
  intros x' Hx'. apply list_elem_of_lookup in Hx' as [j Hj].
  set (items1 := alter (set_claimed 1) p (items st)) in *.
  assert (H1 : ∀ i, (i < Z.to_nat (itemCount st))%nat → i ≠ p →
                    ∃ x, live (items st) (itemCount st) !! i = Some x ∧
                         items1 !! i = Some x ∧ id x ≠ id a).
  { intros i Hi Hne. destruct (lookup_lt_is_Some_2 (items st) i) as [x Hx]; [lia|].
    assert (Hxl : live (items st) (itemCount st) !! i = Some x).
    { unfold live. by rewrite lookup_take_lt. }
    exists x. split; [done|]. split; [unfold items1; by rewrite list_lookup_alter_ne|].
    by apply (unique_ids_lookup_ne (items st) (itemCount st) i p x a). }
  assert (Hp1 : items1 !! p = Some (set_claimed 1 a)).
  { unfold items1. by rewrite list_lookup_alter_eq, Ha. }
  unfold live in Hj. apply lookup_take_Some in Hj as [Hj Hjn].
  destruct (Z.eqb_spec (matchedItemID a) (-1)) as [Hl1|Hl1]; simpl in Hj; swap 1 2.
  - unfold items1 in Hj at 1. rewrite getItemByID_set_claimed in Hj.
    destruct (getItemByID (items st) (itemCount st) (matchedItemID a)) as [q|] eqn:Hq.
    + destruct (getItemByID_lookup _ _ _ _ Hq) as (Hqn & b & Hb & Hidb).
      assert (Hbl : live (items st) (itemCount st) !! q = Some b).
      { unfold live. by rewrite lookup_take_lt. }
      destruct (decide (j = q)) as [->|Hjq].
      * rewrite list_lookup_alter_eq in Hj. exists b.
        split; [by eapply list_elem_of_lookup_2|]. right. split; [|by right].
        destruct (decide (q = p)) as [->|Hqp].
        -- rewrite Hp1 in Hj. simpl in Hj. rewrite set_claimed_idemp in Hj. congruence.
        -- unfold items1 in Hj. rewrite list_lookup_alter_ne, Hb in Hj by done.
           simpl in Hj. congruence.
      * rewrite list_lookup_alter_ne in Hj by done.
        destruct (decide (j = p)) as [->|Hjp].
        -- exists a. split; [done|]. right. split; [congruence|by left].
        -- destruct (H1 j Hjn Hjp) as (x & Hxl & Hx1 & Hxa).
           exists x. split; [by eapply list_elem_of_lookup_2|]. left.
           split; [congruence|]. split; [done|]. rewrite <- Hidb.
           by apply (unique_ids_lookup_ne (items st) (itemCount st) j q x b).
    + apply getItemByID_None in Hq. rewrite Forall_forall in Hq.
      destruct (decide (j = p)) as [->|Hjp].
      * exists a. split; [done|]. right. split; [congruence|by left].
      * destruct (H1 j Hjn Hjp) as (x & Hxl & Hx1 & Hxa).
        exists x. split; [by eapply list_elem_of_lookup_2|]. left.
        split; [congruence|]. split; [done|]. apply Hq. by eapply list_elem_of_lookup_2.
  - destruct (decide (j = p)) as [->|Hjp].
    + exists a. split; [done|]. right. split; [congruence|by left].
    + destruct (H1 j Hjn Hjp) as (x & Hxl & Hx1 & Hxa).
      exists x. split; [by eapply list_elem_of_lookup_2|]. left.
      split; [congruence|]. split; [done|].
      destruct (Hrec x (list_elem_of_lookup_2 _ _ _ Hxl)) as (_ & Hix & _). lia.
Qed.

Lemma elem_of_insert2 {A : Type} (l : list A) (p1 p2 : nat) (v1 v2 x : A) :
  x ∈ <[p1 := v1]> (<[p2 := v2]> l) →
  x = v1 ∨ x = v2 ∨ ∃ j, j ≠ p1 ∧ j ≠ p2 ∧ l !! j = Some x.
Proof.
  intros Hx. apply list_elem_of_lookup in Hx as [j Hj].
  destruct (decide (j = p1)) as [->|H1].
  - apply list_lookup_insert_Some in Hj as [(_ & -> & _)|[? _]]; [by left|done].
  - rewrite list_lookup_insert_ne in Hj by done.
    destruct (decide (j = p2)) as [->|H2].
    + apply list_lookup_insert_Some in Hj as [(_ & -> & _)|[? _]]; [by right; left|done].
    + rewrite list_lookup_insert_ne in Hj by done. right; right. by exists j.
Qed.

(** Linking two live slots holding unmatched records of opposite status. *)
Lemma store_ok_markAsMatched (items : list Item) (n nid : Z) (p1 p2 : nat) (a b : Item) :
  arr_inv items n nid → store_ok (live items n) nid →
  p1 ≠ p2 → live items n !! p1 = Some a → live items n !! p2 = Some b →
  matched a = 0 → matched b = 0 → status a ≠ status b →
  store_ok (live (markAsMatched p1 p2 items) n) nid.
Proof.
  intros (H0 & Hlen & _ & Hu & Hlt) Hs Hne Ha Hb Hma Hmb Hst.
  pose proof Ha as Ha'. pose proof Hb as Hb'. unfold live in Ha', Hb'.
  apply lookup_take_Some in Ha' as [Ha' Hp1]. apply lookup_take_Some in Hb' as [Hb' Hp2].
  pose proof (list_elem_of_lookup_2 _ _ _ Ha) as Hain.
  pose proof (list_elem_of_lookup_2 _ _ _ Hb) as Hbin.
  pose proof Hs as (_ & Hrec & _ & _). rewrite Forall_forall in Hrec.
  destruct (Hrec a Hain) as (Hva & _). destruct (Hrec b Hbin) as (Hvb & _).
  apply (store_ok_link (live items n) _ nid a b); try done.
  - by apply opposite_status_ne.
  - unfold live at 1. rewrite (markAsMatched_live _ _ _ _ a b) by done.
    fold (live items n). intros x' Hx'.
    apply elem_of_insert2 in Hx' as [->|[->|(j & Hj1 & Hj2 & Hj)]];
      [by left|by right; left|].
    right; right. split; [by eapply list_elem_of_lookup_2|].
    split; [by apply (unique_ids_lookup_ne items n j p1 x' a)
           |by apply (unique_ids_lookup_ne items n j p2 x' b)].
Qed.

Lemma markItemAsMatched_sinv (canWrite : bool) (id1 id2 : Z) (st : State) :
  SInv st → mem_inv (fst (markItemAsMatched canWrite id1 id2 st)) →
  SInv (fst (markItemAsMatched canWrite id1 id2 st)).
Proof.
  intros HS. pose proof HS as ((Harr & _) & Hs & Hd).
  pose proof Harr as (_ & Hlen & _ & Hu & _).
  unfold markItemAsMatched.
  destruct (itemCount st <? 2); [done|].
  destruct (Z.eqb_spec id1 id2) as [|Hne]; [done|].
  rewrite (findBoth_unique _ _ _ _ Hlen Hu).
  destruct (getItemByID (items st) (itemCount st) id1) as [p1|] eqn:Hp1; [|done].
  destruct (getItemByID (items st) (itemCount st) id2) as [p2|] eqn:Hp2; [|done].
  destruct (getItemByID_lookup _ _ _ _ Hp1) as (Hlt1 & a & Ha & Hida).
  destruct (getItemByID_lookup _ _ _ _ Hp2) as (Hlt2 & b & Hb & Hidb).
  rewrite Ha, Hb.
  destruct (_ || _) eqn:Hsame; [done|].
  destruct (negb (matched a =? 0) || negb (matched b =? 0)) eqn:Hm; [done|].
  simpl. intros Hmem.
  apply (SInv_saved _ _ _ _ _ _ (fileBytes st)); [done| |done].
  apply orb_false_iff in Hm as [Hma Hmb].
  apply negb_false_iff, Z.eqb_eq in Hma. apply negb_false_iff, Z.eqb_eq in Hmb.
  assert (Hal : live (items st) (itemCount st) !! p1 = Some a).
  { unfold live. by rewrite lookup_take_lt. }
  assert (Hbl : live (items st) (itemCount st) !! p2 = Some b).
  { unfold live. by rewrite lookup_take_lt. }
  apply (store_ok_markAsMatched _ _ _ p1 p2 a b); try done; [congruence|].
  pose proof Hs as (_ & Hrec & _ & _). rewrite Forall_forall in Hrec.
  destruct (Hrec a (list_elem_of_lookup_2 _ _ _ Hal)) as ((Hsa & _) & _).
  intros Heq. rewrite <- Heq in Hsame.
  destruct Hsa as [Hsa|Hsa]; rewrite Hsa in Hsame; done.
Qed.

Lemma addItem_sinv (statusLit : string) (canWrite : bool) (inp : ItemInput)
    (searchChoice : bool) (picks : list Z) (st : State) :
  statusLit = "Lost" ∨ statusLit = "Found" →
  SInv st → add_ok st inp →
  SInv (addItem statusLit canWrite inp searchChoice picks st).
Proof.
  intros Hlit HS Hok. pose proof HS as ((Harr & _) & Hs & Hd).
  assert (Hsize : size_range statusLit).
  { destruct Hlit as [->| ->]; vm_compute; reflexivity. }
  destruct (addItem_stored statusLit canWrite inp st Hsize (SInv_Inv st HS) Hok)
    as (items2 & capacity2 & Hadd & Hlive2 & Hcap & HI2).
  rewrite Hadd.
  set (new := newRecord statusLit inp (nextID st)) in *.
  set (st2 := mkState items2 _ _ _ _) in *.
  destruct Harr as (H0 & Hlen & _ & _ & Hlt).
  assert (Hs2 : store_ok (live (items st2) (itemCount st2)) (nextID st2)).
  { simpl. rewrite Hlive2. by apply store_ok_new. }
  assert (HS2 : SInv st2).
  { destruct HI2 as [Hm2 _].
    by apply (SInv_saved canWrite items2 _ _ _ (fileBytes st) (fileBytes st2)). }
  assert (Hn : length (live (items st) (itemCount st)) = Z.to_nat (itemCount st)).
  { unfold live. apply length_take_le. lia. }
  assert (Hnewl : live (items st2) (itemCount st2) !! Z.to_nat (itemCount st2 - 1) =
                  Some new).
  { simpl. rewrite Hlive2, lookup_app_r by lia.
    replace (Z.to_nat (itemCount st + 1 - 1)) with (Z.to_nat (itemCount st)) by lia.
    by rewrite Hn, Nat.sub_diag. }
  assert (Hnew : items st2 !! Z.to_nat (itemCount st2 - 1) = Some new).
  { unfold live in Hnewl. by apply lookup_take_Some in Hnewl as [? _]. }
  assert (Hpos : 0 < itemCount st2) by (simpl; lia).
  destruct (searchForMatches_cases canWrite searchChoice picks st2 new HI2 Hpos Hnew)
    as [->|(c & cand & Hc & Hcd & _ & _ & Hm & Hst & _ & ->)]; [done|].
  destruct HI2 as [Hm2 _].
  apply (SInv_saved _ _ _ _ _ (fileBytes st2) (fileBytes st2)); [| |by destruct HS2 as (_ & _ & ?)].
  - pose proof Hm2 as (Harr2 & Hr2).
    destruct (markAsMatched_inv (Z.to_nat (itemCount st2 - 1)) c (items st2)
                (itemCount st2) (nextID st2)) as [Harr' Hlen']; [lia|lia|done|].
    split; [done|]. unfold mem_inv in Hr2. simpl in *. by rewrite Hlen'.
  - assert (Hcl : live (items st2) (itemCount st2) !! c = Some cand).
    { unfold live. rewrite lookup_take_lt by lia. done. }
    pose proof Hs2 as (_ & Hrec & _ & _). rewrite Forall_forall in Hrec.
    destruct (Hrec cand (list_elem_of_lookup_2 _ _ _ Hcl)) as ((_ & [Hm0|?] & _) & _);
      [|done].
    apply (store_ok_markAsMatched _ _ _ _ c new cand).
    + by destruct Hm2.
    + done.
    + lia.
    + done.
    + done.
    + done.
    + done.
    + by apply not_eq_sym.
Qed.

Lemma sortMenu_sinv (canWrite : bool) (rounds : list (Z * Z)) (st : State) :
  SInv st → SInv (sortMenu canWrite rounds st).
Proof.
  unfold sortMenu. revert st.
  induction rounds as [|r rounds IH]; intros st HS; simpl; [done|].
  apply IH. pose proof HS as (Hm & Hs & Hd).
  destruct (sortChoice_perm (fst r) (snd r) (items st) (itemCount st)) as [Hp Hl].
  apply (SInv_saved _ _ _ _ _ (fileBytes st) (fileBytes st)); [| |done].
  - destruct Hm as (Harr & Hr). split.
    + by apply (arr_inv_perm (items st)).
    + simpl. by rewrite Hl.
  - by apply (store_ok_perm (live (items st) (itemCount st))).
Qed.

Lemma store_ok_nil : store_ok [] 100.
Proof.
  split; [done|]. split; [constructor|]. split; [constructor|].
  intros a b Ha. by apply elem_of_nil in Ha.
Qed.

Lemma loadFromFile_fileBytes (st st' : State) :
  loadFromFile st = Some st' → fileBytes st' = fileBytes st.
Proof.
  unfold loadFromFile. destruct (fileBytes st) as [bytes|] eqn:Hf; [|by intros [= <-]].
  destruct (read_header bytes) as [[[h_nextID h_itemCount] rest]|]; [|by intros [= <-]].
  destruct (if h_itemCount >? capacity st then _ else _) as [[items1 capacity1]|];
    [|done].
  destruct (read_items _ _ _ _) as [[items2 ?]|]; [|done]. by intros [= <-].
Qed.

Lemma restart_sinv (file : option (list byte)) :
  disk_store_ok file → ∃ st', loadFromFile (initialState file) = Some st' ∧ SInv st'.
Proof.
  intros Hd.
  assert (Hdisk : disk_ok file).
  { destruct Hd as [->|[->|(items0 & n & nid & -> & ? & ? & ? & _)]];
      [by left|by right; left|]. right; right. by exists items0, n, nid. }
  destruct Hd as [->|[->|(items0 & n & nid & -> & Harr & Hnid & Hgrow & Hs)]].
  - eexists. split; [reflexivity|]. split; [by destruct (firstRun_inv None Hdisk)|].
    split; [|by left]. simpl. unfold live. rewrite take_0. apply store_ok_nil.
  - eexists. split; [reflexivity|]. split; [by destruct (firstRun_inv (Some []) Hdisk)|].
    split; [|by right; left]. simpl. unfold live. rewrite take_0. apply store_ok_nil.
  - destruct (restart_saved items0 n nid Harr Hnid Hgrow Hdisk)
      as (st' & Hload & [Hm _] & Hn' & Hc' & Hlive).
    exists st'. split; [done|]. split; [done|]. split.
    + rewrite Hlive, Hn'. done.
    + rewrite (loadFromFile_fileBytes _ _ Hload). simpl.
      right; right. by exists items0, n, nid.
Qed.

Lemma step_sinv (canWrite : bool) (c : Command) (st : State) :
  SInv st → cmd_ok st c → ∃ st', step canWrite c st = Some st' ∧ SInv st'.
Proof.
  intros HS Hok.
  destruct (step_inv canWrite c st (SInv_Inv st HS) Hok) as (st' & Hstep & [Hm' _] & _).
  exists st'. split; [done|]. destruct c; simpl in Hstep.
  - injection Hstep as <-. apply addItem_sinv; [by left|done|done].
  - injection Hstep as <-. apply addItem_sinv; [by right|done|done].
  - injection Hstep as <-. by apply updateItem_sinv.
  - injection Hstep as <-. by apply deleteItem_sinv.
  - injection Hstep as <-. by apply markAsClaimed_sinv.
  - injection Hstep as <-. by apply markItemAsMatched_sinv.
  - injection Hstep as <-. by apply sortMenu_sinv.
  - injection Hstep as <-. unfold clearAllItems in *. destruct confirm, canWrite; try done.
    simpl in *. split; [done|]. split; [|by right; left].
    unfold live. rewrite take_0. apply store_ok_nil.
  - injection Hstep as <-. destruct HS as (Hm & Hs & Hd).
    by apply (SInv_saved _ _ _ _ _ (fileBytes st) (fileBytes st)).
  - destruct (restart_sinv (fileBytes st)) as (st'' & Hload & HS''); [by destruct HS as (_ & _ & ?)|].
    congruence.
Qed.

Lemma run_sinv (cmds : list (bool * Command)) (st : State) :
  SInv st → run_ok cmds st → ∃ st', run cmds st = Some st' ∧ SInv st'.
Proof.
  revert st. induction cmds as [|[canWrite c] cmds IH]; intros st HS Hok.
  - by exists st.
  - destruct Hok as [Hc Hrest].
    destruct (step_sinv canWrite c st HS Hc) as (st1 & Hstep & HS1).
    destruct (IH st1 HS1 (Hrest st1 Hstep)) as (st' & Hrun & HS').
    exists st'. simpl. by rewrite Hstep.
Qed.

Lemma firstRun_sinv : SInv (initialState None).
Proof.
  split; [by destruct (firstRun_inv None (or_introl eq_refl))|].
  split; [|by left]. simpl. unfold live. rewrite take_0. apply store_ok_nil.
Qed.

Lemma walletSession_ok : run_ok walletSession (initialState None).
Proof.
  unfold walletSession.
  split; [split; [exact walletInput_ok|]; split; vm_compute; [reflexivity|discriminate]|].
  intros st2 [= <-].
  split; [split; [exact walletInput_ok|]; split; vm_compute; [reflexivity|discriminate]|].
  intros st3 [= <-].
  split; [exact I|]. intros st4 _. exact I.
Qed.

(** X20: whatever the commands of a session (adds with or without the
    search, updates, deletes, claims, matches, sorts, clear-all, saves,
    restarts, with the file writable or not), the live records stay
    consistent: status "Lost" or "Found", flags 0 or 1, ids from 100 up to
    the counter, a claimed record is matched, a record has the link -1
    exactly while it is unmatched, a link never names the record itself,
    and two live records linked one way are linked both ways, are one lost
    and one found, and are claimed together. *)
Theorem session_records_consistent (cmds : list (bool * Command)) (st : State) :
  SInv st → run_ok cmds st →
  ∃ st', run cmds st = Some st' ∧ SInv st' ∧
    Forall (λ it, valid_flags it ∧ 100 ≤ id it < nextID st' ∧
                  (claimed it = 1 → matched it = 1) ∧
                  (matched it = 0 ↔ matchedItemID it = -1) ∧
                  (matched it = 1 →
                     100 ≤ matchedItemID it < nextID st' ∧ matchedItemID it ≠ id it))
      (live (items st') (itemCount st')) ∧
    (∀ a b, a ∈ live (items st') (itemCount st') → b ∈ live (items st') (itemCount st') →
       matched a = 1 → matchedItemID a = id b →
       matched b = 1 ∧ matchedItemID b = id a ∧ claimed b = claimed a ∧
       opposite_status (status a) (status b)).
Proof.
  intros HS Hok. destruct (run_sinv cmds st HS Hok) as (st' & Hrun & HS').
  exists st'. split; [done|]. split; [done|].
  destruct HS' as (((_ & _ & _ & _ & Hlt) & _) & (Hnid & Hrec & Hlk & Hlinks) & _).
  split; [|exact Hlinks].
  rewrite Forall_forall in Hrec. rewrite Forall_forall in Hlk.
  rewrite Forall_forall in Hlt.
  apply Forall_forall. intros it Hit.
  destruct (Hrec it Hit) as ((Hs & Hm & Hc) & Hi & Hu & Hk).
  specialize (Hlt it Hit). simpl in Hlt.
  split_and!; try done.
  - intros Hc1. destruct Hm as [Hm0|Hm1]; [|done].
    destruct (Hu Hm0) as [_ Hc0]. lia.
  - split; [by intros H0; apply Hu|]. intros Hl.
    destruct Hm as [Hm0|Hm1]; [done|]. specialize (Hk Hm1). lia.
  - intros Hm1. split; [split; [by apply Hk|by apply Hlk]|].
    intros Hself. destruct (Hlinks it it Hit Hit Hm1 Hself) as (_ & _ & _ & Hop).
    by destruct Hop as [[-> ?]|[-> ?]].
Qed.

Lemma session_records_consistent_witness :
  ∃ st', run walletSession (initialState None) = Some st' ∧ SInv st'.
Proof.
  destruct (session_records_consistent walletSession (initialState None))
    as (st' & Hrun & HS' & _).
  - exact firstRun_sinv.
  - exact walletSession_ok.
  - by exists st'.
Defined.

(** ** The file *)

Lemma write_item_length (it : Item) : length (write_item it) = record_bytes it.
Proof.
  unfold write_item, write_string, write_int, write_size, record_bytes.
  rewrite !length_app, !le_bytes_length, !length_list_byte_of_string.
  unfold sizeof_int, sizeof_size_t. lia.
Qed.

Lemma encode_live (items : list Item) (itemCount nextID : Z) :
  (Z.to_nat itemCount ≤ length items)%nat →
  encode items itemCount nextID =
  write_int nextID ++ write_int itemCount ++ (live items itemCount ≫= write_item).
Proof. intros Hlen. unfold encode, live. by rewrite encode_records. Qed.

(** X21: a save that cannot open the file leaves it as it was; one that
    can replaces it by the two header numbers, four bytes each, followed by
    the live records in store order and nothing else: slots after the live
    part are not written, and the size is eight bytes plus, for each live
    record, four ints, seven eight-byte lengths, the date array and the
    characters of its seven texts. *)
Theorem saveToFile_layout (items : list Item) (itemCount nextID : Z)
    (file : option (list byte)) :
  (Z.to_nat itemCount ≤ length items)%nat →
  saveToFile false items itemCount nextID file = file ∧
  saveToFile true items itemCount nextID file =
    Some (write_int nextID ++ write_int itemCount ++
          (live items itemCount ≫= write_item)) ∧
  (∀ items', (Z.to_nat itemCount ≤ length items')%nat →
     live items' itemCount = live items itemCount →
     saveToFile true items' itemCount nextID file =
     saveToFile true items itemCount nextID file) ∧
  (∀ bytes, saveToFile true items itemCount nextID file = Some bytes →
     length bytes =
     (2 * sizeof_int + sum_list (record_bytes <$> live items itemCount))%nat ∧
     take sizeof_int bytes = write_int nextID ∧
     take sizeof_int (drop sizeof_int bytes) = write_int itemCount).
Proof.
  intros Hlen. unfold saveToFile. split; [done|].
  split; [by rewrite encode_live|]. split.
  - intros items' Hlen' Hlive. by rewrite !encode_live, Hlive.
  - intros bytes [= <-]. rewrite encode_live by done. split; [|split].
    + rewrite !length_app. unfold write_int. rewrite !le_bytes_length.
      assert (Hsum : ∀ l : list Item,
                length (l ≫= write_item) = sum_list (record_bytes <$> l)).
      { induction l as [|x l IH]; [done|].
        rewrite bind_cons, length_app, IH, write_item_length, fmap_cons. done. }
      rewrite Hsum. lia.
    + rewrite take_app_length'; [done|]. unfold write_int. by rewrite le_bytes_length.
    + rewrite drop_app_length'; [|unfold write_int; by rewrite le_bytes_length].
      rewrite take_app_length'; [done|]. unfold write_int. by rewrite le_bytes_length.
Qed.

Lemma saveToFile_layout_witness :
  saveToFile true exampleItems 2 102 None =
  Some (write_int 102 ++ write_int 2 ++ (live exampleItems 2 ≫= write_item)).
Proof.
  destruct (saveToFile_layout exampleItems 2 102 None) as (_ & Hsaved & _).
  - simpl. lia.
  - exact Hsaved.
Defined.

(** With the file not writable, no command changes it. *)
Lemma searchForMatches_unwritable (searchChoice : bool) (picks : list Z) (st : State) :
  fileBytes (searchForMatches false searchChoice picks st) = fileBytes st.
Proof.
  unfold searchForMatches. destruct searchChoice; [|done].
  destruct (0 <? _)%nat; [|done].
  destruct (pickLoop _ _ _ _ _) as [items' done]. by destruct done.
Qed.

Lemma step_unwritable (c : Command) (st st' : State) :
  step false c st = Some st' → fileBytes st' = fileBytes st.
Proof.
  destruct c; simpl.
  - intros [= <-]. unfold addLostItem, addItem.
    destruct (if itemCount st =? capacity st then _ else _) as [items1 capacity1].
    by rewrite searchForMatches_unwritable.
  - intros [= <-]. unfold addFoundItem, addItem.
    destruct (if itemCount st =? capacity st then _ else _) as [items1 capacity1].
    by rewrite searchForMatches_unwritable.
  - intros [= <-]. unfold updateItem. destruct (itemCount st =? 0); [done|].
    by destruct (firstWithID _ _ _ _).
  - intros [= <-]. unfold deleteItem. destruct (itemCount st =? 0); [done|].
    destruct (firstWithID _ _ _ _); [|done]. by destruct confirm.
  - intros [= <-]. unfold markAsClaimed.
    destruct (getItemByID _ _ _) as [p|]; [|done].
    destruct (items st !! p) as [item|]; [|done].
    destruct (matched item =? 0); [done|]. by destruct (claimed item =? 1).
  - intros [= <-]. unfold markItemAsMatched.
    destruct (itemCount st <? 2); [done|]. destruct (id1 =? id2); [done|].
    destruct (findBoth _ _ _ _) as [[p1|] [p2|]]; try done.
    destruct (items st !! p1) as [item1|]; [|done].
    destruct (items st !! p2) as [item2|]; [|done].
    destruct (_ || _); [done|]. by destruct (_ || _).
  - intros [= <-]. unfold sortMenu. revert st.
    induction rounds as [|r rounds IH]; intros st; [done|]. simpl. by rewrite IH.
  - intros [= <-]. unfold clearAllItems. by destruct confirm.
  - by intros [= <-].
  - intros Hload. by rewrite (loadFromFile_fileBytes _ _ Hload).
Qed.

(** X22: [viewFromFile] shows the records of the file, whatever the store
    in memory holds: nothing when the file is absent or empty, and after a
    save that could write, exactly the live records saved, in order.  It
    returns on every file a session leaves.  While the file cannot be
    written no command changes it, so the view stays what it was. *)
Theorem viewFromFile_shows_file (st : State) :
  Inv st →
  viewFromFile None = Some [] ∧
  viewFromFile (Some []) = Some [] ∧
  viewFromFile (saveToFile true (items st) (itemCount st) (nextID st) (fileBytes st)) =
    Some (live (items st) (itemCount st)) ∧
  (∃ recs, viewFromFile (fileBytes st) = Some recs) ∧
  (∀ c st', step false c st = Some st' →
            viewFromFile (fileBytes st') = viewFromFile (fileBytes st)).
Proof.
  intros [Hm Hd].
  assert (Hsaved : ∀ items0 n nid,
    arr_inv items0 n nid → int_range nid → can_grow 10 n →
    viewFromFile (Some (encode items0 n nid)) = Some (live items0 n)).
  { intros items0 n nid Harr Hnid Hgrow.
    destruct (restart_saved items0 n nid Harr Hnid Hgrow) as (st' & Hload & _ & _ & _ & Hlive).
    - right; right. by exists items0, n, nid.
    - unfold viewFromFile. unfold initialState in Hload. rewrite Hload.
      by rewrite <- Hlive. }
  split; [done|]. split; [done|]. split; [|split].
  - unfold saveToFile. apply Hsaved; [by destruct Hm|by destruct Hm as (_ & ? & _)|].
    by apply mem_inv_can_grow.
  - destruct Hd as [->|[->|(items0 & n & nid & -> & Harr & Hnid & Hgrow)]];
      [by exists []|by exists []|].
    exists (live items0 n). by apply Hsaved.
  - intros c st' Hstep. by rewrite (step_unwritable c st st' Hstep).
Qed.

Lemma viewFromFile_shows_file_witness :
  viewFromFile (saveToFile true (items exampleState) (itemCount exampleState)
                  (nextID exampleState) (fileBytes exampleState)) =
  Some (live (items exampleState) (itemCount exampleState)).
Proof.
  destruct (viewFromFile_shows_file exampleState) as (_ & _ & Hview & _).
  - exact exampleState_Inv.
  - exact Hview.
Defined.

(** ** Clearing the store *)

(** X23: clear-all does something only when it is confirmed and the file
    can be emptied: then no record is live, no id resolves, the counter is
    100 again and the file is empty, so that a restart finds the state of a
    first run and the next record added is the only live one, with id 100;
    the slots of the array are not wiped.  Declined or with a file that
    cannot be opened, it leaves the store as it is. *)
Theorem clearAllItems_fresh_start (statusLit : string) (canWrite : bool)
    (inp : ItemInput) (st : State) :
  Inv st → input_ok inp → size_range statusLit →
  let cleared := fst (clearAllItems true true st) in
  snd (clearAllItems true true st) = Cleared ∧
  live (items cleared) (itemCount cleared) = [] ∧
  items cleared = items st ∧ capacity cleared = capacity st ∧
  nextID cleared = 100 ∧ fileBytes cleared = Some [] ∧
  (∀ idQ, getItemByID (items cleared) (itemCount cleared) idQ = None) ∧
  loadFromFile (initialState (fileBytes cleared)) = Some (initialState (Some [])) ∧
  live (items (addItem statusLit canWrite inp false [] cleared))
       (itemCount (addItem statusLit canWrite inp false [] cleared)) =
    [newRecord statusLit inp 100] ∧
  clearAllItems false true st = (st, ClearFailed) ∧
  clearAllItems canWrite false st = (st, ClearCancelled).
Proof.
  intros HI Hinp Hsize. simpl.
  split_and!; try done.
  pose proof (clearAllItems_inv true true st HI) as HIc.
  set (cleared := fst (clearAllItems true true st)) in *.
  assert (Hok : add_ok cleared inp).
  { split; [done|]. split; [unfold INT_MAX; simpl; lia|]. simpl.
    destruct HI as [(_ & _ & _ & [j Hj] & _) _]. intros Hcap.
    assert (0 < 2 ^ Z.of_nat j) by (apply Z.pow_pos_nonneg; lia). lia. }
  destruct (addItem_stored statusLit canWrite inp cleared Hsize HIc Hok)
    as (items2 & capacity2 & Hadd & Hlive2 & _ & _).
  rewrite Hadd. unfold searchForMatches. simpl in *. exact Hlive2.
Qed.

Lemma clearAllItems_fresh_start_witness :
  live (items (addItem "Lost" true walletInput false []
                 (fst (clearAllItems true true exampleState))))
       (itemCount (addItem "Lost" true walletInput false []
                     (fst (clearAllItems true true exampleState)))) =
  [newRecord "Lost" walletInput 100].
Proof.
  destruct (clearAllItems_fresh_start "Lost" true walletInput exampleState)
    as (_ & _ & _ & _ & _ & _ & _ & _ & Hadd & _).
  - exact exampleState_Inv.
  - exact walletInput_ok.
  - vm_compute. reflexivity.
  - exact Hadd.
Defined.

(** ** The capacity after a load *)

Lemma growCapacity_least_gen (n : Z) (k : nat) :
  ∀ (fuel : nat) (c : Z),
    0 < c → (k < fuel)%nat → n ≤ c * 2 ^ Z.of_nat k → c * 2 ^ Z.of_nat k ≤ INT_MAX →
    ∃ j : nat, growCapacity fuel c n = Some (c * 2 ^ Z.of_nat j) ∧
               n ≤ c * 2 ^ Z.of_nat j ∧
               ∀ i : nat, (i < j)%nat → c * 2 ^ Z.of_nat i < n.
Proof.
  induction k as [|k IH]; intros fuel c Hc Hfuel Hn Hmax;
    (destruct fuel as [|fuel]; [lia|]); simpl growCapacity.
  - simpl in Hn. rewrite (proj2 (Z.ltb_ge c n)) by lia.
    exists 0%nat. simpl. split; [f_equal; lia|]. split; [lia|]. intros; lia.
  - destruct (Z.ltb_spec c n) as [Hlt|Hge].
    + rewrite Nat2Z.inj_succ, Z.pow_succ_r in Hn, Hmax by lia.
      assert (0 < 2 ^ Z.of_nat k) by (apply Z.pow_pos_nonneg; lia).
      rewrite int_wrap_small by (unfold int_range, INT_MIN, INT_MAX in *; nia).
      destruct (IH fuel (c * 2)) as (j & Hg & Hnj & Hleast); try lia.
      exists (S j). rewrite Nat2Z.inj_succ, Z.pow_succ_r by lia.
      split; [rewrite Hg; f_equal; lia|]. split; [lia|].
      intros [|i] Hi; [simpl; lia|].
      rewrite Nat2Z.inj_succ, Z.pow_succ_r by lia.
      specialize (Hleast i ltac:(lia)). lia.
    + exists 0%nat. simpl. split; [f_equal; lia|]. split; [lia|]. intros; lia.
Qed.

Lemma read_items_length (i r : nat) (items0 : list Item) (s : list byte)
    (items' : list Item) (s' : list byte) :
  read_items i r items0 s = Some (items', s') → length items' = length items0.
Proof.
  revert i items0 s. induction r as [|r IH]; intros i items0 s.
  - simpl. unfold ret. by intros [= <- <-].
  - cbn [read_items]. intros H. apply bind_Some in H as (it & s1 & _ & H).
    apply IH in H. by rewrite length_insert in H.
Qed.

(** X24: a load that has to grow the array doubles the capacity the least
    number of times that makes room for the records of the file, and does
    not touch it when there is room already. *)
Theorem loadFromFile_least_capacity (st st' : State) (nid cnt : Z) (rest : list byte) :
  fileBytes st = Some (write_int nid ++ write_int cnt ++ rest) →
  int_range nid → int_range cnt →
  0 < capacity st → can_grow (capacity st) cnt →
  loadFromFile st = Some st' →
  ∃ j : nat, capacity st' = capacity st * 2 ^ Z.of_nat j ∧
             cnt ≤ capacity st' ∧
             (∀ i : nat, (i < j)%nat → capacity st * 2 ^ Z.of_nat i < cnt) ∧
             (cnt ≤ capacity st → capacity st' = capacity st ∧
                                  length (items st') = length (items st)).
Proof.
  intros Hfile Hnid Hcnt Hcap [k [Hk Hmax]]. unfold loadFromFile.
  rewrite Hfile, read_header_written by done.
  pose proof (can_grow_steps (capacity st) cnt k Hcap Hmax) as Hfuel.
  destruct (growCapacity_least_gen cnt k 33 (capacity st) Hcap Hfuel Hk Hmax)
    as (j & Hg & Hnj & Hleast).
  destruct (Z.gtb_spec cnt (capacity st)) as [Hgt|Hle].
  - rewrite Hg.
    destruct (read_items _ _ _ _) as [[items2 ?]|]; [|done]. intros [= <-]. simpl.
    exists j. split; [done|]. split; [done|]. split; [done|]. lia.
  - destruct (read_items _ _ _ _) as [[items2 ?]|] eqn:Hread; [|done].
    intros [= <-]. simpl.
    exists 0%nat. simpl. split; [lia|]. split; [lia|]. split; [intros; lia|].
    intros _. split; [done|].
    by apply read_items_length in Hread.
Qed.

Lemma loadFromFile_least_capacity_witness :
  ∃ st', loadFromFile (initialState (saveToFile true exampleItems 2 102 None)) = Some st' ∧
         capacity st' = 10.
Proof.
  destruct (loadFromFile (initialState (saveToFile true exampleItems 2 102 None)))
    as [st'|] eqn:Hload; [|by vm_compute in Hload].
  exists st'. split; [reflexivity|].
  destruct (loadFromFile_least_capacity
              (initialState (saveToFile true exampleItems 2 102 None)) st' 102 2
              (live exampleItems 2 ≫= write_item))
    as (j & _ & _ & _ & Hsame).
  - reflexivity.
  - unfold int_range, INT_MIN, INT_MAX. lia.
  - unfold int_range, INT_MIN, INT_MAX. lia.
  - simpl. lia.
  - exists 0%nat. unfold INT_MAX. simpl. lia.
  - exact Hload.
  - apply Hsame. simpl. lia.
Defined.

(** ** Sessions: a match or a claim is never undone *)













(** ** The views of the filter menu on a consistent store *)

(** X26: on every store a session reaches, the three views "lost",
    "found" (both list unmatched records only) and "matched" of the filter
    menu split the live records: each live position is in exactly one of
    them; every claimed record is in the matched view, and every unmatched
    record in the unclaimed view. *)
Theorem filter_views_partition (st : State) :
  SInv st →
  (∀ i, (i < Z.to_nat (itemCount st))%nat →
     (i ∈ searchByStatus (items st) (itemCount st) "Lost" ∧
      (i ∉ searchByStatus (items st) (itemCount st) "Found") ∧
      (i ∉ filterByMatched (items st) (itemCount st) 1)) ∨
     ((i ∉ searchByStatus (items st) (itemCount st) "Lost") ∧
      i ∈ searchByStatus (items st) (itemCount st) "Found" ∧
      (i ∉ filterByMatched (items st) (itemCount st) 1)) ∨
     ((i ∉ searchByStatus (items st) (itemCount st) "Lost") ∧
      (i ∉ searchByStatus (items st) (itemCount st) "Found") ∧
      i ∈ filterByMatched (items st) (itemCount st) 1)) ∧
  (∀ i, i ∈ filterByClaimed (items st) (itemCount st) 1 →
        i ∈ filterByMatched (items st) (itemCount st) 1) ∧
  (∀ i, i ∈ filterByMatched (items st) (itemCount st) 0 →
        i ∈ filterByClaimed (items st) (itemCount st) 0).
Proof.
  intros (((_ & Hlen & _) & _) & (_ & Hrec & _) & _).
  rewrite Forall_forall in Hrec.
  assert (Hst : ∀ q i, i ∈ searchByStatus (items st) (itemCount st) q ↔
    (i < Z.to_nat (itemCount st))%nat ∧
    ∃ it, items st !! i = Some it ∧
          String.eqb (toLowerCase (status it)) (toLowerCase q) && (matched it =? 0) = true).
  { intros q i. unfold searchByStatus.
    apply (proj2 (collect_spec (items st)
      (λ it, String.eqb (toLowerCase (status it)) (toLowerCase q) && (matched it =? 0))
      (Z.to_nat (itemCount st)))). }
  assert (Hmt : ∀ v i, i ∈ filterByMatched (items st) (itemCount st) v ↔
    (i < Z.to_nat (itemCount st))%nat ∧
    ∃ it, items st !! i = Some it ∧ (matched it =? v) = true).
  { intros v i. unfold filterByMatched.
    apply (proj2 (collect_spec (items st) (λ it, matched it =? v)
                    (Z.to_nat (itemCount st)))). }
  assert (Hcl : ∀ v i, i ∈ filterByClaimed (items st) (itemCount st) v ↔
    (i < Z.to_nat (itemCount st))%nat ∧
    ∃ it, items st !! i = Some it ∧ (claimed it =? v) = true).
  { intros v i. unfold filterByClaimed.
    apply (proj2 (collect_spec (items st) (λ it, claimed it =? v)
                    (Z.to_nat (itemCount st)))). }
  assert (Hok : ∀ i it, (i < Z.to_nat (itemCount st))%nat → items st !! i = Some it →
                        record_ok it).
  { intros i it Hi Hit. apply Hrec, (list_elem_of_lookup_2 _ i).
    unfold live. by rewrite lookup_take_lt. }
  split; [|split].
  - intros i Hi. destruct (lookup_lt_is_Some_2 (items st) i) as [it Hit]; [lia|].
    destruct (Hok i it Hi Hit) as ((Hs & Hm & _) & _).
    rewrite !Hst, !Hmt.
    assert (Hcase : ∀ P : Item → bool,
      ((i < Z.to_nat (itemCount st))%nat ∧ ∃ it', items st !! i = Some it' ∧ P it' = true)
      ↔ P it = true).
    { intros P. split.
      - intros [_ (it' & Hit' & HP)]. congruence.
      - intros HP. split; [done|]. by exists it. }
    rewrite !Hcase.
    destruct Hs as [-> | ->], Hm as [-> | ->]; vm_compute; intuition discriminate.
  - intros i. rewrite Hcl, Hmt. intros [Hi (it & Hit & Hc)]. split; [done|].
    exists it. split; [done|]. apply Z.eqb_eq in Hc. apply Z.eqb_eq.
    destruct (Hok i it Hi Hit) as ((_ & [Hm0|Hm1] & _) & _ & Hu & _); [|done].
    destruct (Hu Hm0) as [_ Hc0]. lia.
  - intros i. rewrite Hcl, Hmt. intros [Hi (it & Hit & Hm)]. split; [done|].
    exists it. split; [done|]. apply Z.eqb_eq in Hm. apply Z.eqb_eq.
    destruct (Hok i it Hi Hit) as (_ & _ & Hu & _). by destruct (Hu Hm).
Qed.

Lemma exampleState_SInv : SInv exampleState.
Proof.
  destruct exampleState_Inv as [Hm _]. split; [exact Hm|]. split; [|by left].
  unfold live. simpl. split; [done|]. split; [|split].
  - apply Forall_cons. split; [|apply Forall_cons; split; [|constructor]];
      unfold record_ok, valid_flags; simpl; split_and!; auto; lia.
  - apply Forall_cons. split; [|apply Forall_cons; split; [|constructor]]; simpl; lia.
  - intros a b Ha _ Hm1 _.
    apply elem_of_cons in Ha as [->|Ha]; [done|].
    apply elem_of_cons in Ha as [->|Ha]; [done|]. by apply elem_of_nil in Ha.
Qed.

Lemma filter_views_partition_witness :
  0%nat ∈ filterByClaimed (items exampleState) (itemCount exampleState) 0.
Proof.
  destruct (filter_views_partition exampleState) as (_ & _ & Hunclaimed).
  - exact exampleState_SInv.
  - apply Hunclaimed.
    assert (H : filterByMatched (items exampleState) (itemCount exampleState) 0 =
                [0; 1]%nat) by reflexivity.
    rewrite H. apply list_elem_of_here.
Defined.

(** ** Categories *)



(** ** Overlap of two records *)

(** X28: the overlap test of the candidate search does not depend on which
    of the two records is the new one; it holds as soon as the two records
    agree, letter case ignored, on one of name, category, description and
    location, so that two unmatched records of different status with the
    same category are always candidates for each other; and it holds
    whenever one of these four texts is empty in either record. *)
Theorem fieldsOverlap_facts (a b : Item) :
  fieldsOverlap a b = fieldsOverlap b a ∧
  (eq_nocase (name a) (name b) ∨ eq_nocase (category a) (category b) ∨
   eq_nocase (description a) (description b) ∨ eq_nocase (location a) (location b) →
   fieldsOverlap a b = true) ∧
  (name a = "" ∨ category a = "" ∨ description a = "" ∨ location a = "" →
   fieldsOverlap a b = true) ∧
  (∀ items itemCount i,
     (i < Z.to_nat itemCount)%nat → items !! i = Some a →
     matched a ≠ 1 → status a ≠ status b → eq_nocase (category a) (category b) →
     i ∈ findPotentialMatches items itemCount b).
Proof.
  assert (Hsame : ∀ s t, eq_nocase s t → containsSubstring s t = true).
  { intros s t Heq. apply containsSubstring_spec. unfold contains_nocase.
    exists "", "". rewrite Heq, append_nil. clear.
    induction (toLowerCase t) as [|c u IH]; [reflexivity|].
    rewrite append_cons. by rewrite <- IH. }
  assert (Hempty : ∀ s, containsSubstring s "" = true).
  { intros s. apply containsSubstring_spec. by exists "", (toLowerCase s). }
  assert (Heq : eq_nocase (name a) (name b) ∨ eq_nocase (category a) (category b) ∨
                eq_nocase (description a) (description b) ∨
                eq_nocase (location a) (location b) → fieldsOverlap a b = true).
  { unfold fieldsOverlap. intros [H|[H|[H|H]]]; rewrite (Hsame _ _ H);
      rewrite ?orb_true_r; reflexivity. }
  split; [|split; [|split]].
  - unfold fieldsOverlap.
    destruct (containsSubstring (name a) (name b)),
      (containsSubstring (name b) (name a)),
      (containsSubstring (category a) (category b)),
      (containsSubstring (category b) (category a)),
      (containsSubstring (description a) (description b)),
      (containsSubstring (description b) (description a)),
      (containsSubstring (location a) (location b)),
      (containsSubstring (location b) (location a)); reflexivity.
  - exact Heq.
  - unfold fieldsOverlap. intros [->|[->|[->| ->]]]; rewrite (Hempty _);
      rewrite ?orb_true_r; reflexivity.
  - intros items itemCount i Hi Hit Hm Hs Hc.
    apply findPotentialMatches_spec. split; [done|]. exists a.
    split; [done|]. split; [done|]. split; [done|].
    apply fieldsOverlap_spec, Heq. by right; left.
Qed.

(** ** Loading, then saving *)

(** X29: a save right after a load writes back what was read.  When
    [loadFromFile] returns on a file that holds at least the header, the
    file is the encoding of the store loaded, followed by the bytes after
    the last record, if any; so saving that store again gives the same file
    without those bytes. *)
Theorem load_then_save (st st' : State) (bytes : list byte) :
  0 < capacity st → Z.of_nat (length (items st)) = capacity st →
  fileBytes st = Some bytes → (sizeof_int + sizeof_int ≤ length bytes)%nat →
  loadFromFile st = Some st' →
  ∃ tail, bytes = encode (items st') (itemCount st') (nextID st') ++ tail ∧
          saveToFile true (items st') (itemCount st') (nextID st') (fileBytes st') =
            Some (take (length bytes - length tail) bytes) ∧
          (tail = [] →
           saveToFile true (items st') (itemCount st') (nextID st') (fileBytes st') =
             fileBytes st).
Proof.
  intros Hcap Hlen Hfile Hlong. unfold loadFromFile. rewrite Hfile.
  destruct (read_header bytes) as [[[nid cnt] rest]|] eqn:Hh;
    [|apply read_header_None in Hh; lia].
  apply read_header_Some in Hh as (Hbytes & Hnid & Hcnt).
  destruct (if cnt >? capacity st then _ else _) as [[items1 capacity1]|] eqn:Harr;
    [|discriminate].
  apply load_array in Harr as [Hcap1 Hlen1]; [|done..].
  destruct (read_items 0 (Z.to_nat cnt) items1 rest) as [[items2 tail]|] eqn:Hread;
    [|discriminate].
  intros [= <-]. simpl.
  apply read_items_Some in Hread as (recs & Hl & _ & Hrest & ->); [|lia].
  assert (Henc : encode (take 0 items1 ++ recs ++ drop (0 + Z.to_nat cnt) items1) cnt nid =
                 write_int nid ++ write_int cnt ++ (recs ≫= write_item)).
  { rewrite encode_live.
    - unfold live. simpl. rewrite <- Hl. by rewrite take_app_length.
    - simpl. rewrite !length_app, length_drop. lia. }
  assert (Hb : bytes = encode (take 0 items1 ++ recs ++ drop (0 + Z.to_nat cnt) items1)
                         cnt nid ++ tail).
  { rewrite Henc, Hbytes, Hrest. by rewrite <- !app_assoc. }
  exists tail. split; [exact Hb|]. unfold saveToFile. split.
  - f_equal. set (e := encode _ cnt nid) in *. rewrite Hb.
    rewrite length_app, Nat.add_sub. by rewrite take_app_length.
  - intros ->. rewrite app_nil_r in Hb. by rewrite <- Hb.
Qed.

Lemma load_then_save_witness :
  ∃ st' tail,
    loadFromFile (initialState (saveToFile true exampleItems 2 102 None)) = Some st' ∧
    encode exampleItems 2 102 =
      encode (items st') (itemCount st') (nextID st') ++ tail.
Proof.
  destruct (loadFromFile (initialState (saveToFile true exampleItems 2 102 None)))
    as [st'|] eqn:Hload; [|by vm_compute in Hload].
  destruct (load_then_save (initialState (saveToFile true exampleItems 2 102 None)) st'
              (encode exampleItems 2 102))
    as (tail & Hbytes & _).
  - simpl. lia.
  - reflexivity.
  - reflexivity.
  - vm_compute. lia.
  - exact Hload.
  - by exists st', tail.
Defined.
